(** * WIFuncResolution: lowering of work-item queries

    A shallow embedding of the pass [WIFuncResolution] (IGC,
    Compiler/Optimizer/OpenCLPasses/WIFuncs/WIFuncResolution.cpp) together
    with the small part of LLVM IR it builds, and the properties of the
    lowering that the specification states.

    The pass is a function from IR to IR.  The IR it reads and writes is
    plain data here (types, constants, values, instructions); the pass
    itself is a set of Rocq functions in a builder monad that plays the part
    of [llvm::IRBuilder<>] with its insertion point in front of the call
    being lowered.  SSA value names and debug locations carry no meaning and
    are left out. *)

From Stdlib Require Import ZArith List String Bool Lia.
Import ListNotations.
Open Scope Z_scope.

(* ------------------------------------------------------------------ *)
(** * Machine integers *)

Definition u32 (z : Z) : Z := z mod 2 ^ 32.
Definition u64 (z : Z) : Z := z mod 2 ^ 64.
Definition wrap (bits z : Z) : Z := z mod 2 ^ bits.

(** Two's complement reading of a [bits]-wide pattern. *)
Definition signed (bits z : Z) : Z :=
  if z <? 2 ^ (bits - 1) then z else z - 2 ^ bits.

(* ------------------------------------------------------------------ *)
(** * IR types *)

(** [enum ADDRESS_SPACE] is declared outside the sources; the pass names
    the default address space (number 0) and [ADDRESS_SPACE_A32]. *)
Inductive AddrSpace : Type :=
| ADDRESS_SPACE_0
| ADDRESS_SPACE_A32.

Inductive Ty : Type :=
| IntegerTy (bits : Z)
| PointerTy (pointee : Ty) (addrspace : AddrSpace)
| FixedVectorTy (elem : Ty) (n : Z).

Definition AddrSpace_eqb (a b : AddrSpace) : bool :=
  match a, b with
  | ADDRESS_SPACE_0, ADDRESS_SPACE_0 => true
  | ADDRESS_SPACE_A32, ADDRESS_SPACE_A32 => true
  | _, _ => false
  end.

Fixpoint Ty_eqb (a b : Ty) : bool :=
  match a, b with
  | IntegerTy x, IntegerTy y => x =? y
  | PointerTy p s, PointerTy q t => Ty_eqb p q && AddrSpace_eqb s t
  | FixedVectorTy e n, FixedVectorTy f m => Ty_eqb e f && (n =? m)
  | _, _ => false
  end.

Definition getScalarType (t : Ty) : Ty :=
  match t with
  | FixedVectorTy e _ => e
  | _ => t
  end.

(** [Type::getPrimitiveSizeInBits]: 0 for pointers. *)
Fixpoint getPrimitiveSizeInBits (t : Ty) : Z :=
  match t with
  | IntegerTy b => b
  | PointerTy _ _ => 0
  | FixedVectorTy e n => n * getPrimitiveSizeInBits e
  end.

Definition getScalarSizeInBits (t : Ty) : Z :=
  getPrimitiveSizeInBits (getScalarType t).

Definition Int8Ty := IntegerTy 8.
Definition Int16Ty := IntegerTy 16.
Definition Int32Ty := IntegerTy 32.
Definition Int64Ty := IntegerTy 64.

(* ------------------------------------------------------------------ *)
(** * IR values and instructions *)

Inductive CastOp : Type := IntToPtr | BitCast | ZExt | Trunc.

Inductive Constant : Type :=
| ConstantInt (bits v : Z)
| ConstantDataVector (ebits : Z) (elems : list Z)
| UndefValue (t : Ty)
| ConstantExprCast (op : CastOp) (c : Constant) (t : Ty).

(** A value is the result of an instruction (identified by its number, as
    an [Instruction*] identifies it in LLVM), a formal parameter, or a
    constant.  Each carries its type, as [Value::getType] gives it. *)
Inductive Value : Type :=
| VInst (id : nat) (t : Ty)
| VArg (argNo : nat) (t : Ty)
| VConst (c : Constant).

Definition constType (c : Constant) : Ty :=
  match c with
  | ConstantInt b _ => IntegerTy b
  | ConstantDataVector b l => FixedVectorTy (IntegerTy b) (Z.of_nat (List.length l))
  | UndefValue t => t
  | ConstantExprCast _ _ t => t
  end.

Definition getType (v : Value) : Ty :=
  match v with
  | VInst _ t => t
  | VArg _ t => t
  | VConst c => constType c
  end.

Inductive GenISA_ID : Type :=
| GenISA_simdSize
| GenISA_getR0
| GenISA_simdLaneId.

Inductive Callee : Type :=
| IndirectCallee                       (* getCalledFunction() is null *)
| NamedFunction (name : string)
| GenISAIntrinsic (id : GenISA_ID).

Inductive BinaryOp : Type := Add | Mul | LShr.
Inductive Predicate : Type := ICMP_EQ | ICMP_SGT.

Inductive Opcode : Type :=
| Call (callee : Callee) (args : list Value)
| Load (ptr : Value) (align : Z)
| Cast (op : CastOp) (v : Value)
| ExtractElement (vec idx : Value)
| InsertElement (vec elt idx : Value)
| BinOp (op : BinaryOp) (a b : Value)
| ICmp (pred : Predicate) (a b : Value)
| Select (c a b : Value)
| OtherInst (operands : list Value).   (* an instruction the pass never builds *)

Record Instruction : Type := mkInst {
  inst_id : nat;
  inst_op : Opcode;
  inst_ty : Ty
}.

Definition valueOf (I : Instruction) : Value := VInst (inst_id I) (inst_ty I).

Record Module : Type := mkModule {
  getPointerSizeInBits : AddrSpace -> Z     (* of the module's data layout *)
}.

Record Function : Type := mkFunction {
  fn_parent : Module;
  fn_args : list Ty;                 (* the formal parameters, in order *)
  fn_attrs : list string;            (* function attributes *)
  fn_body : list Instruction         (* all instructions, in visiting order *)
}.

Definition arg_size (F : Function) : Z := Z.of_nat (List.length (fn_args F)).

Definition hasFnAttribute (F : Function) (a : string) : bool :=
  existsb (String.eqb a) (fn_attrs F).

(* ------------------------------------------------------------------ *)
(** * Outcomes and the builder monad *)

(** A compilation step returns, aborts on a failed assertion, or has no
    defined behaviour (an iterator run past the end, a division by zero, an
    IR object built from operands of the wrong type). *)
Inductive Res (A : Type) : Type :=
| Ok (a : A)
| Fatal (msg : string)
| Undefined.
Arguments Ok {A} a.
Arguments Fatal {A} msg.
Arguments Undefined {A}.

(** The builder state: the next fresh instruction number and the
    instructions inserted so far in front of the call, in program order. *)
Record IRBuilder : Type := mkBuilder {
  next_id : nat;
  inserted : list Instruction
}.

Definition M (A : Type) : Type := IRBuilder -> Res (A * IRBuilder).

Definition ret {A} (a : A) : M A := fun st => Ok (a, st).

Definition bind {A B} (m : M A) (k : A -> M B) : M B :=
  fun st =>
    match m st with
    | Ok (a, st') => k a st'
    | Fatal msg => Fatal msg
    | Undefined => Undefined
    end.

Definition fatal {A} (msg : string) : M A := fun _ => Fatal msg.
Definition undefined {A} : M A := fun _ => Undefined.

Notation "x <- m ;; k" := (bind m (fun x => k))
  (at level 61, m at next level, right associativity).
Notation "m ;;; k" := (bind m (fun _ => k))
  (at level 61, right associativity).

(** Insert a new instruction at the insertion point. *)
Definition Insert (op : Opcode) (t : Ty) : M Value :=
  fun st =>
    let I := mkInst (next_id st) op t in
    Ok (valueOf I, mkBuilder (S (next_id st)) (inserted st ++ [I])).

(** [CastInst::castIsValid] for the casts the pass builds. *)
Definition castIsValid (op : CastOp) (src dst : Ty) : bool :=
  match op with
  | BitCast =>
      match src, dst with
      | PointerTy _ a, PointerTy _ b => AddrSpace_eqb a b
      | PointerTy _ _, _ => false
      | _, PointerTy _ _ => false
      | _, _ => getPrimitiveSizeInBits src =? getPrimitiveSizeInBits dst
      end
  | IntToPtr =>
      match src, dst with
      | IntegerTy _, PointerTy _ _ => true
      | _, _ => false
      end
  | ZExt =>
      match src, dst with
      | IntegerTy a, IntegerTy b => a <? b
      | _, _ => false
      end
  | Trunc =>
      match src, dst with
      | IntegerTy a, IntegerTy b => b <? a
      | _, _ => false
      end
  end.

(** [CastInst::Create]: always a new instruction. *)
Definition CastInst_Create (op : CastOp) (v : Value) (t : Ty) : M Value :=
  if castIsValid op (getType v) t then Insert (Cast op v) t else undefined.

(** [IRBuilder::CreateCast]: the value itself when the type is already the
    destination type, a constant expression for a constant operand, an
    instruction otherwise. *)
Definition CreateCast (op : CastOp) (v : Value) (t : Ty) : M Value :=
  if Ty_eqb (getType v) t then ret v
  else if castIsValid op (getType v) t then
    match v with
    | VConst c => ret (VConst (ConstantExprCast op c t))
    | _ => Insert (Cast op v) t
    end
  else undefined.

Definition CreateIntToPtr := CreateCast IntToPtr.
Definition CreateBitCast := CreateCast BitCast.
Definition CreateZExt := CreateCast ZExt.
Definition CreateTrunc := CreateCast Trunc.

Definition CreateZExtOrBitCast (v : Value) (t : Ty) : M Value :=
  if getScalarSizeInBits (getType v) =? getScalarSizeInBits t
  then CreateCast BitCast v t
  else CreateCast ZExt v t.

Definition CreateLoad (ptr : Value) : M Value :=
  match getType ptr with
  | PointerTy pointee _ => Insert (Load ptr 0) pointee
  | _ => undefined
  end.

(** [LoadInst::setAlignment] on a load built a moment ago. *)
Definition setAlignment (ld : Value) (align : Z) : M unit :=
  fun st =>
    let upd (I : Instruction) :=
      match ld, inst_op I with
      | VInst id _, Load p _ =>
          if Nat.eqb id (inst_id I) then mkInst (inst_id I) (Load p align) (inst_ty I) else I
      | _, _ => I
      end in
    Ok (tt, mkBuilder (next_id st) (map upd (inserted st))).

Definition CreateExtractElement (vec idx : Value) : M Value :=
  match getType vec with
  | FixedVectorTy e _ => Insert (ExtractElement vec idx) e
  | _ => undefined
  end.

Definition CreateInsertElement (vec elt idx : Value) : M Value :=
  match getType vec with
  | FixedVectorTy _ _ => Insert (InsertElement vec elt idx) (getType vec)
  | _ => undefined
  end.

Definition CreateBinOp (op : BinaryOp) (a b : Value) : M Value :=
  if Ty_eqb (getType a) (getType b) then Insert (BinOp op a b) (getType a) else undefined.

Definition CreateMul := CreateBinOp Mul.
Definition CreateAdd := CreateBinOp Add.
Definition CreateLShr (a : Value) (n : Z) : M Value :=
  CreateBinOp LShr a (VConst (ConstantInt (getScalarSizeInBits (getType a)) n)).

Definition CreateICmp (p : Predicate) (a b : Value) : M Value :=
  if Ty_eqb (getType a) (getType b) then Insert (ICmp p a b) (IntegerTy 1) else undefined.

Definition CreateSelect (c a b : Value) : M Value :=
  if Ty_eqb (getType a) (getType b) then Insert (Select c a b) (getType a) else undefined.

Definition CreateCall (id : GenISA_ID) (t : Ty) : M Value :=
  Insert (Call (GenISAIntrinsic id) []) t.

Definition getIntN (bits v : Z) : Value := VConst (ConstantInt bits (wrap bits v)).
Definition getInt64 (v : Z) : Value := getIntN 64 v.
Definition getInt32 (v : Z) : Value := getIntN 32 v.

(** The constructors that build an instruction directly in front of the
    call ([ExtractElementInst::Create], [CmpInst::Create], ...) insert at
    the same point as the builder. *)
Definition ExtractElementInst_Create := CreateExtractElement.
Definition CmpInst_Create := CreateICmp.
Definition SelectInst_Create := CreateSelect.
Definition BinaryOperator_CreateAdd := CreateAdd.

Definition lift {A} (r : Res A) : M A :=
  fun st =>
    match r with
    | Ok a => Ok (a, st)
    | Fatal msg => Fatal msg
    | Undefined => Undefined
    end.

(* ------------------------------------------------------------------ *)
(** * Hidden arguments *)

(** [ImplicitArg::ArgType]: the enumerators the pass names, and one
    constructor for all the others. *)
Inductive ArgType : Type :=
| R0
| PAYLOAD_HEADER
| WORK_DIM
| NUM_GROUPS
| GLOBAL_SIZE
| LOCAL_SIZE
| ENQUEUED_LOCAL_WORK_SIZE
| LOCAL_ID_X
| LOCAL_ID_Y
| LOCAL_ID_Z
| STAGE_IN_GRID_ORIGIN
| STAGE_IN_GRID_SIZE
| SYNC_BUFFER
| OTHER_ARG (n : nat).

Definition ArgType_eqb (a b : ArgType) : bool :=
  match a, b with
  | R0, R0 | PAYLOAD_HEADER, PAYLOAD_HEADER | WORK_DIM, WORK_DIM
  | NUM_GROUPS, NUM_GROUPS | GLOBAL_SIZE, GLOBAL_SIZE | LOCAL_SIZE, LOCAL_SIZE
  | ENQUEUED_LOCAL_WORK_SIZE, ENQUEUED_LOCAL_WORK_SIZE
  | LOCAL_ID_X, LOCAL_ID_X | LOCAL_ID_Y, LOCAL_ID_Y | LOCAL_ID_Z, LOCAL_ID_Z
  | STAGE_IN_GRID_ORIGIN, STAGE_IN_GRID_ORIGIN
  | STAGE_IN_GRID_SIZE, STAGE_IN_GRID_SIZE | SYNC_BUFFER, SYNC_BUFFER => true
  | OTHER_ARG n, OTHER_ARG m => Nat.eqb n m
  | _, _ => false
  end.

(** Modelled from the spec: class [ImplicitArgs] (ImplicitArgs.cpp is not
    among the sources).  The hidden-argument set of a function is the
    ordered collection of the kinds appended to its formal parameters;
    [size] is its count N and [getArgIndex] the logical index i of a kind in
    it (N when the kind is absent). *)
Module ImplicitArgs.
Definition t : Type := list ArgType.

Definition size (ia : t) : Z := Z.of_nat (List.length ia).

Fixpoint getArgIndex (ia : t) (argType : ArgType) : Z :=
  match ia with
  | [] => 0
  | k :: rest => if ArgType_eqb k argType then 0 else 1 + getArgIndex rest argType
  end.

Definition isImplicitArgExist (ia : t) (argType : ArgType) : bool :=
  existsb (ArgType_eqb argType) ia.
End ImplicitArgs.

(** The formal parameter number [k] of [F] ([arg_begin] advanced [k]
    times and dereferenced). *)
Definition arg_at (F : Function) (k : Z) : Res Value :=
  match nth_error (fn_args F) (Z.to_nat k) with
  | Some t => Ok (VArg (Z.to_nat k) t)
  | None => Undefined
  end.

(** Modelled from the spec: [ImplicitArgs::getImplicitArg(F, kind)]
    (ImplicitArgs.cpp is not among the sources): the hidden argument of the
    given kind if it is present, null otherwise. *)
Definition ImplicitArgs_getImplicitArg (ia : ImplicitArgs.t) (F : Function)
    (argType : ArgType) : Res (option Value) :=
  if negb (ImplicitArgs.isImplicitArgExist ia argType) then Ok None
  else
    match arg_at F (u32 (arg_size F - ImplicitArgs.size ia + ImplicitArgs.getArgIndex ia argType)) with
    | Ok a => Ok (Some a)
    | Fatal msg => Fatal msg
    | Undefined => Undefined
    end.

(** Modelled from the spec: [IGC_ASSERT_MESSAGE] (Probe/Assertion.h is not
    among the sources).  A violated invariant is fatal: compilation
    aborts. *)
Definition IGC_ASSERT_MESSAGE (cond : bool) (msg : string) : M unit :=
  if cond then ret tt else fatal msg.

(* ------------------------------------------------------------------ *)
(** * The pass object and its environment *)

Record CodeGenContext : Type := mkCtx {
  getGRFSize : Z                      (* platform.getGRFSize(), in bytes *)
}.

Definition SIZE_DWORD : Z := 4.

(** What [MetaDataUtils] holds for the function being visited: its
    hidden-argument bookkeeping and, when known at compile time, its thread
    group dimensions. *)
Record MetaDataUtils : Type := mkMD {
  md_implicitArgs : ImplicitArgs.t;
  md_threadGroupDims : option (Z * Z * Z)
}.

Record WIFuncResolution : Type := mkPass {
  m_implicitArgs : ImplicitArgs.t;
  m_changed : bool;
  m_ctx : CodeGenContext
}.

(** Modelled from the spec: the callee names of [WIFuncsAnalysis]
    (WIFuncsAnalysis.cpp is not among the sources); a query is recognised
    purely by the callee's name.  The strings are the names the comments of
    the handlers show (y and z after x); nothing below depends on them
    beyond their being pairwise different. *)
Module WIFuncsAnalysis.
Definition GET_LOCAL_ID_X := "__builtin_IB_get_local_id_x"%string.
Definition GET_LOCAL_ID_Y := "__builtin_IB_get_local_id_y"%string.
Definition GET_LOCAL_ID_Z := "__builtin_IB_get_local_id_z"%string.
Definition GET_GROUP_ID := "__builtin_IB_get_group_id"%string.
Definition GET_LOCAL_THREAD_ID := "__builtin_IB_get_local_thread_id"%string.
Definition GET_GLOBAL_SIZE := "__builtin_IB_get_global_size"%string.
Definition GET_LOCAL_SIZE := "__builtin_IB_get_local_size"%string.
Definition GET_ENQUEUED_LOCAL_SIZE := "__builtin_IB_get_enqueued_local_size"%string.
Definition GET_GLOBAL_OFFSET := "__builtin_IB_get_global_offset"%string.
Definition GET_WORK_DIM := "__builtin_IB_get_work_dim"%string.
Definition GET_NUM_GROUPS := "__builtin_IB_get_num_groups"%string.
Definition GET_STAGE_IN_GRID_ORIGIN := "__builtin_IB_get_grid_origin"%string.
Definition GET_STAGE_IN_GRID_SIZE := "__builtin_IB_get_grid_size"%string.
Definition GET_SYNC_BUFFER := "__builtin_IB_get_sync_buffer"%string.
End WIFuncsAnalysis.

(* ------------------------------------------------------------------ *)
(** * The side buffer layout *)

Module GLOBAL_STATE_FIELD_OFFSETS.
Definition sizeof_uint8_t : Z := 1.
Definition sizeof_uint32_t : Z := 4.
Definition sizeof_uint64_t : Z := 8.

Definition STRUCT_SIZE : Z := 0.
Definition VERSION : Z := u32 (STRUCT_SIZE + sizeof_uint8_t).
Definition NUM_WORK_DIM : Z := u32 (VERSION + sizeof_uint8_t).
Definition SIMDSIZE : Z := u32 (NUM_WORK_DIM + sizeof_uint8_t).

Definition LOCAL_SIZES : Z := u32 (SIMDSIZE + sizeof_uint8_t).
Definition LOCAL_SIZE_X : Z := LOCAL_SIZES.
Definition LOCAL_SIZE_Y : Z := u32 (LOCAL_SIZE_X + sizeof_uint32_t).
Definition LOCAL_SIZE_Z : Z := u32 (LOCAL_SIZE_Y + sizeof_uint32_t).

Definition GLOBAL_SIZES : Z := u32 (LOCAL_SIZE_Z + sizeof_uint32_t).
Definition GLOBAL_SIZE_X : Z := GLOBAL_SIZES.
Definition GLOBAL_SIZE_Y : Z := u32 (GLOBAL_SIZE_X + sizeof_uint64_t).
Definition GLOBAL_SIZE_Z : Z := u32 (GLOBAL_SIZE_Y + sizeof_uint64_t).

Definition PRINTF_BUFFER : Z := u32 (GLOBAL_SIZE_Z + sizeof_uint64_t).

Definition GLOBAL_OFFSETS : Z := u32 (PRINTF_BUFFER + sizeof_uint64_t).
Definition GLOBAL_OFFSET_X : Z := GLOBAL_OFFSETS.
Definition GLOBAL_OFFSET_Y : Z := u32 (GLOBAL_OFFSET_X + sizeof_uint64_t).
Definition GLOBAL_OFFSET_Z : Z := u32 (GLOBAL_OFFSET_Y + sizeof_uint64_t).

Definition LOCAL_IDS : Z := u32 (GLOBAL_OFFSET_Z + sizeof_uint64_t).

Definition GROUP_COUNTS : Z := u32 (LOCAL_IDS + sizeof_uint64_t).
Definition GROUP_COUNT_X : Z := GROUP_COUNTS.
Definition GROUP_COUNT_Y : Z := u32 (GROUP_COUNT_X + sizeof_uint32_t).
Definition GROUP_COUNT_Z : Z := u32 (GROUP_COUNT_Y + sizeof_uint32_t).
End GLOBAL_STATE_FIELD_OFFSETS.

Definition hasStackCallAttr (F : Function) : bool :=
  hasFnAttribute F "visaStackCall".

(* ------------------------------------------------------------------ *)
(** * The field loader *)

(** [IGCLLVM::getCorrectAlign]: the alignment value as the LLVM version in
    use wants it. *)
Definition getCorrectAlign (a : Z) : Z := a.

(** The byte-copy loop of [BuildLoadInst]: [n] iterations are left, [I] is
    the loop variable. *)
Fixpoint copyBytes (n : nat) (I Offset AlignedOffset : Z)
    (BitCastToByte NewVector : Value) : M Value :=
  match n with
  | O => ret NewVector
  | S n' =>
      Elem <- CreateExtractElement BitCastToByte (getInt64 (u32 (I - AlignedOffset))) ;;
      NewVector' <- CreateInsertElement NewVector Elem (getInt64 (u64 (I - Offset))) ;;
      copyBytes n' (u32 (I + 1)) Offset AlignedOffset BitCastToByte NewVector'
  end.

Definition BuildLoadInst (F : Function) (Offset : Z) (DataType : Ty) : M Value :=
  let ElemByteSize := getScalarSizeInBits DataType / 8 in
  let Size :=
    match DataType with
    | FixedVectorTy _ n => u32 (ElemByteSize * u32 n)
    | _ => ElemByteSize
    end in
  if ElemByteSize =? 0 then undefined else
  let AlignedOffset := u32 ((Offset / ElemByteSize) * ElemByteSize) in
  let LoadByteSize := if Offset =? AlignedOffset then Size else u32 (Size * 2) in
  let Int32Ptr := PointerTy Int32Ty ADDRESS_SPACE_A32 in
  let ElemType := getScalarType DataType in
  let LoadType := FixedVectorTy ElemType (LoadByteSize / ElemByteSize) in
  let PtrType := PointerTy LoadType ADDRESS_SPACE_A32 in
  IntToPtr <- CreateIntToPtr
                (getIntN (getPointerSizeInBits (fn_parent F) ADDRESS_SPACE_A32) AlignedOffset)
                Int32Ptr ;;
  BitCast <- CreateBitCast IntToPtr PtrType ;;
  LoadInst <- CreateLoad BitCast ;;
  setAlignment LoadInst (getCorrectAlign ElemByteSize) ;;;
  if negb (Offset =? AlignedOffset) then
    let ByteType := Int8Ty in
    BitCastToByte <- CreateBitCast LoadInst ByteType ;;
    let NewVector := VConst (UndefValue (FixedVectorTy ByteType Size)) in
    NewVector' <- copyBytes (Z.to_nat Size) Offset Offset AlignedOffset BitCastToByte NewVector ;;
    Result <- CreateBitCast NewVector' DataType ;;
    ret Result
  else
    Result <- CreateBitCast LoadInst DataType ;;
    ret Result.

(* ------------------------------------------------------------------ *)
(** * The hidden-argument resolver *)

(** [F] is the function the call sits in, [CI.getParent()->getParent()]. *)
Definition getImplicitArg (this : WIFuncResolution) (F : Function)
    (argType : ArgType) : M Value :=
  let numImplicitArgs := u32 (ImplicitArgs.size (m_implicitArgs this)) in
  let implicitArgIndex := u32 (ImplicitArgs.getArgIndex (m_implicitArgs this) argType) in
  let pFunc := F in
  IGC_ASSERT_MESSAGE (arg_size pFunc >=? numImplicitArgs)
    "Function arg size does not match meta data args." ;;;
  let implicitArgIndexInFunc := u32 (arg_size pFunc - numImplicitArgs + implicitArgIndex) in
  lift (arg_at pFunc implicitArgIndexInFunc).

Definition getArgOperand (CI : Instruction) (k : nat) : M Value :=
  match inst_op CI with
  | Call _ args =>
      match nth_error args k with
      | Some v => ret v
      | None => undefined
      end
  | _ => undefined
  end.

(* ------------------------------------------------------------------ *)
(** * The per-query handlers

    Each takes the pass object, the function [F] the call sits in
    ([CI.getFunction()]) and the call [CI]. *)

(** The thread-state vector read through the platform query. *)
Definition callGetR0 (this : WIFuncResolution) : M Value :=
  let Tys := FixedVectorTy Int32Ty (getGRFSize (m_ctx this) / SIZE_DWORD) in
  CreateCall GenISA_getR0 Tys.

Definition getLocalId (this : WIFuncResolution) (F : Function) (CI : Instruction)
    (argType : ArgType) : M Value :=
  if hasStackCallAttr F then
    (* Get Local ID Base Ptr *)
    let DataTypeI64 := Int64Ty in
    let Offset := GLOBAL_STATE_FIELD_OFFSETS.LOCAL_IDS in
    LocalIDBase <- BuildLoadInst F Offset DataTypeI64 ;;
    (* Get SIMD Size *)
    let DataTypeI32 := Int32Ty in
    SimdSize <- CreateCall GenISA_simdSize DataTypeI32 ;;
    (* SimdSize = max(SimdSize, 16) *)
    CmpInst <- CreateICmp ICMP_SGT SimdSize (VConst (ConstantInt 32 16)) ;;
    SimdSize <- CreateSelect CmpInst SimdSize (VConst (ConstantInt 32 16)) ;;
    (* Get local thread id *)
    IntCall <- callGetR0 this ;;
    LocalThreadId <- CreateExtractElement IntCall (VConst (ConstantInt 32 2)) ;;
    (* Get SIMD lane id *)
    let DataTypeI16 := Int16Ty in
    SimdLaneId <- CreateCall GenISA_simdLaneId DataTypeI16 ;;
    (* ThreadBaseOffset = LocalIDBasePtr + LocalThreadId * (simd size * 3 * 2) *)
    ThreadBaseOffset <- CreateMul SimdSize (VConst (ConstantInt 32 6)) ;;
    Z1 <- CreateZExt ThreadBaseOffset (getType LocalThreadId) ;;
    ThreadBaseOffset <- CreateMul Z1 LocalThreadId ;;
    Z2 <- CreateZExt ThreadBaseOffset (getType LocalIDBase) ;;
    ThreadBaseOffset <- CreateAdd Z2 LocalIDBase ;;
    (* Compute offset per lane *)
    let Factor : Z :=
      match argType with
      | LOCAL_ID_Y => 2
      | LOCAL_ID_Z => 4
      | _ => 0
      end in
    Expr1 <- CreateMul SimdSize (VConst (ConstantInt 32 Factor)) ;;
    Expr2 <- CreateMul SimdLaneId (VConst (ConstantInt 16 2)) ;;
    Z3 <- CreateZExt Expr1 (getType LocalIDBase) ;;
    Z4 <- CreateZExt Expr2 (getType LocalIDBase) ;;
    Result <- CreateAdd Z3 Z4 ;;
    Result <- CreateAdd Result ThreadBaseOffset ;;
    (* Load data *)
    let Int16Ptr := PointerTy Int16Ty ADDRESS_SPACE_0 in
    Addr <- CreateIntToPtr Result Int16Ptr ;;
    LoadInst <- CreateLoad Addr ;;
    Trunc <- CreateZExtOrBitCast LoadInst (inst_ty CI) ;;
    ret Trunc
  else
    localId <- getImplicitArg this F argType ;;
    ret localId.

Definition getGroupId (this : WIFuncResolution) (F : Function) (CI : Instruction)
    : M Value :=
  V <- (if hasStackCallAttr F then callGetR0 this
        else getImplicitArg this F R0) ;;
  dim <- getArgOperand CI 0 ;;
  cmpDim <- CmpInst_Create ICMP_EQ dim (VConst (ConstantInt 32 0)) ;;
  offsetR0 <- SelectInst_Create cmpDim (VConst (ConstantInt 32 1)) (VConst (ConstantInt 32 5)) ;;
  index <- BinaryOperator_CreateAdd dim offsetR0 ;;
  groupId <- ExtractElementInst_Create V index ;;
  ret groupId.

Definition getLocalThreadId (this : WIFuncResolution) (F : Function) (CI : Instruction)
    : M Value :=
  V <- (if hasStackCallAttr F then callGetR0 this
        else getImplicitArg this F R0) ;;
  r0second <- ExtractElementInst_Create V (VConst (ConstantInt 32 2)) ;;
  localThreadId <- CastInst_Create Trunc r0second Int8Ty ;;
  ret localThreadId.

(** The loop shared by the handlers that narrow a 3 x i64 vector: extract
    each lane, truncate it, insert it in the new vector. *)
Fixpoint truncLanes (lanes : list Z) (LoadInst : Value) (ElemType : Ty)
    (Undef : Value) : M Value :=
  match lanes with
  | [] => ret Undef
  | i :: rest =>
      Elem <- CreateExtractElement LoadInst (getInt64 i) ;;
      TruncElem <- CreateTrunc Elem ElemType ;;
      Undef' <- CreateInsertElement Undef TruncElem (getInt64 i) ;;
      truncLanes rest LoadInst ElemType Undef'
  end.

Definition getGlobalSize (this : WIFuncResolution) (F : Function) (CI : Instruction)
    : M Value :=
  V <- (if hasStackCallAttr F then
          let ElemTypeQ := Int64Ty in
          let VecTyQ := FixedVectorTy ElemTypeQ 3 in
          let Offset := GLOBAL_STATE_FIELD_OFFSETS.GLOBAL_SIZE_X in
          LoadInst <- BuildLoadInst F Offset VecTyQ ;;
          let ElemType := inst_ty CI in
          let Undef := VConst (UndefValue (FixedVectorTy ElemType 3)) in
          truncLanes [0; 1; 2] LoadInst ElemType Undef
        else getImplicitArg this F GLOBAL_SIZE) ;;
  dim <- getArgOperand CI 0 ;;
  globalSize <- ExtractElementInst_Create V dim ;;
  ret globalSize.

Definition getLocalSize (this : WIFuncResolution) (F : Function) (CI : Instruction)
    : M Value :=
  V <- (if hasStackCallAttr F then
          let ElemTypeD := Int32Ty in
          let VecTyD := FixedVectorTy ElemTypeD 3 in
          let Offset := GLOBAL_STATE_FIELD_OFFSETS.LOCAL_SIZE_X in
          LoadInst <- BuildLoadInst F Offset VecTyD ;;
          ret LoadInst
        else getImplicitArg this F LOCAL_SIZE) ;;
  dim <- getArgOperand CI 0 ;;
  localSize <- ExtractElementInst_Create V dim ;;
  ret localSize.

Definition getEnqueuedLocalSize (this : WIFuncResolution) (F : Function)
    (CI : Instruction) : M Value :=
  V <- (if hasStackCallAttr F then
          (* Assume that enqueued local size is same as local size *)
          let ElemTypeD := Int32Ty in
          let VecTyD := FixedVectorTy ElemTypeD 3 in
          let Offset := GLOBAL_STATE_FIELD_OFFSETS.LOCAL_SIZE_X in
          LoadInst <- BuildLoadInst F Offset VecTyD ;;
          ret LoadInst
        else getImplicitArg this F ENQUEUED_LOCAL_WORK_SIZE) ;;
  dim <- getArgOperand CI 0 ;;
  enqueuedLocalSize <- ExtractElementInst_Create V dim ;;
  ret enqueuedLocalSize.

Definition getGlobalOffset (this : WIFuncResolution) (F : Function) (CI : Instruction)
    : M Value :=
  V <- (if hasStackCallAttr F then
          let ElemTypeQ := Int64Ty in
          let VecTyQ := FixedVectorTy ElemTypeQ 3 in
          let Offset := GLOBAL_STATE_FIELD_OFFSETS.GLOBAL_OFFSET_X in
          LoadInst <- BuildLoadInst F Offset VecTyQ ;;
          let ElemType := inst_ty CI in
          let Undef := VConst (UndefValue (FixedVectorTy ElemType 3)) in
          truncLanes [0; 1; 2] LoadInst ElemType Undef
        else getImplicitArg this F PAYLOAD_HEADER) ;;
  dim <- getArgOperand CI 0 ;;
  globalOffset <- ExtractElementInst_Create V dim ;;
  ret globalOffset.

Definition getWorkDim (this : WIFuncResolution) (F : Function) (CI : Instruction)
    : M Value :=
  if hasStackCallAttr F then
    let Size := 4 in
    let Offset := GLOBAL_STATE_FIELD_OFFSETS.NUM_WORK_DIM / Size in
    let TypeUD := Int32Ty in
    LoadInst <- BuildLoadInst F Offset TypeUD ;;
    LShr <- CreateLShr LoadInst 24 ;;
    ret LShr
  else
    workDim <- getImplicitArg this F WORK_DIM ;;
    ret workDim.

Definition getNumGroups (this : WIFuncResolution) (F : Function) (CI : Instruction)
    : M Value :=
  V <- (if hasStackCallAttr F then
          let ElemTypeUD := Int32Ty in
          let VecTyUD := FixedVectorTy ElemTypeUD 3 in
          let Offset := GLOBAL_STATE_FIELD_OFFSETS.GROUP_COUNT_X in
          LoadInst <- BuildLoadInst F Offset VecTyUD ;;
          ret LoadInst
        else getImplicitArg this F NUM_GROUPS) ;;
  dim <- getArgOperand CI 0 ;;
  numGroups <- ExtractElementInst_Create V dim ;;
  ret numGroups.

Definition getStageInGridOrigin (this : WIFuncResolution) (F : Function)
    (CI : Instruction) : M Value :=
  arg <- getImplicitArg this F STAGE_IN_GRID_ORIGIN ;;
  dim <- getArgOperand CI 0 ;;
  globalSize <- ExtractElementInst_Create arg dim ;;
  ret globalSize.

Definition getStageInGridSize (this : WIFuncResolution) (F : Function)
    (CI : Instruction) : M Value :=
  V <- (if hasStackCallAttr F then
          let ElemTypeQ := Int64Ty in
          let VecTyQ := FixedVectorTy ElemTypeQ 3 in
          let Offset := GLOBAL_STATE_FIELD_OFFSETS.GLOBAL_SIZE_X in
          LoadInst <- BuildLoadInst F Offset VecTyQ ;;
          let ElemType := Int32Ty in
          let Undef := VConst (UndefValue (FixedVectorTy ElemType 3)) in
          truncLanes [0; 1; 2] LoadInst ElemType Undef
        else getImplicitArg this F STAGE_IN_GRID_SIZE) ;;
  dim <- getArgOperand CI 0 ;;
  globalSize <- ExtractElementInst_Create V dim ;;
  ret globalSize.

Definition getSyncBufferPtr (this : WIFuncResolution) (F : Function)
    (CI : Instruction) : M Value :=
  syncBuffer <- getImplicitArg this F SYNC_BUFFER ;;
  ret syncBuffer.

(* ------------------------------------------------------------------ *)
(** * Uses and their replacement *)

Definition CastOp_eqb (a b : CastOp) : bool :=
  match a, b with
  | IntToPtr, IntToPtr | BitCast, BitCast | ZExt, ZExt | Trunc, Trunc => true
  | _, _ => false
  end.

Fixpoint list_Z_eqb (a b : list Z) : bool :=
  match a, b with
  | [], [] => true
  | x :: a', y :: b' => (x =? y) && list_Z_eqb a' b'
  | _, _ => false
  end.

Fixpoint Constant_eqb (a b : Constant) : bool :=
  match a, b with
  | ConstantInt w x, ConstantInt w' y => (w =? w') && (x =? y)
  | ConstantDataVector w l, ConstantDataVector w' l' => (w =? w') && list_Z_eqb l l'
  | UndefValue t, UndefValue t' => Ty_eqb t t'
  | ConstantExprCast o c t, ConstantExprCast o' c' t' =>
      CastOp_eqb o o' && Constant_eqb c c' && Ty_eqb t t'
  | _, _ => false
  end.

Definition Value_eqb (a b : Value) : bool :=
  match a, b with
  | VInst i t, VInst j t' => Nat.eqb i j && Ty_eqb t t'
  | VArg i t, VArg j t' => Nat.eqb i j && Ty_eqb t t'
  | VConst c, VConst c' => Constant_eqb c c'
  | _, _ => false
  end.

Definition operands (op : Opcode) : list Value :=
  match op with
  | Call _ args => args
  | Load p _ => [p]
  | Cast _ v => [v]
  | ExtractElement v i => [v; i]
  | InsertElement v e i => [v; e; i]
  | BinOp _ a b => [a; b]
  | ICmp _ a b => [a; b]
  | Select c a b => [c; a; b]
  | OtherInst ops => ops
  end.

(** Does instruction [I] use value [v]? *)
Definition uses (v : Value) (I : Instruction) : bool :=
  existsb (fun x => Value_eqb x v) (operands (inst_op I)).

Definition substValue (old new v : Value) : Value :=
  if Value_eqb v old then new else v.

Definition substOpcode (old new : Value) (op : Opcode) : Opcode :=
  let s := substValue old new in
  match op with
  | Call c args => Call c (map s args)
  | Load p a => Load (s p) a
  | Cast o v => Cast o (s v)
  | ExtractElement v i => ExtractElement (s v) (s i)
  | InsertElement v e i => InsertElement (s v) (s e) (s i)
  | BinOp o a b => BinOp o (s a) (s b)
  | ICmp p a b => ICmp p (s a) (s b)
  | Select c a b => Select (s c) (s a) (s b)
  | OtherInst ops => OtherInst (map s ops)
  end.

(** Every use of [old] in the instructions [body] renamed to [new]. *)
Definition substUses (old new : Value) (body : list Instruction)
    : list Instruction :=
  map (fun I => mkInst (inst_id I) (substOpcode old new (inst_op I)) (inst_ty I)) body.

(** [old->replaceAllUsesWith(new)] over the instructions of a function.
    LLVM requires the new value to have the type of the old one (it
    asserts so); with another type there is no defined behaviour. *)
Definition replaceAllUsesWith (old new : Value) (body : list Instruction)
    : Res (list Instruction) :=
  if Ty_eqb (getType new) (getType old) then Ok (substUses old new body)
  else Undefined.

Definition set_body (F : Function) (body : list Instruction) : Function :=
  mkFunction (fn_parent F) (fn_args F) (fn_attrs F) body.

Definition set_attrs (F : Function) (attrs : list string) : Function :=
  mkFunction (fn_parent F) (fn_args F) attrs (fn_body F).

Definition set_changed (this : WIFuncResolution) (b : bool) : WIFuncResolution :=
  mkPass (m_implicitArgs this) b (m_ctx this).

(** Put the instructions [new] in front of [CI]. *)
Definition insertBefore (CI : Instruction) (new : list Instruction)
    (body : list Instruction) : list Instruction :=
  flat_map (fun I => if Nat.eqb (inst_id I) (inst_id CI) then new ++ [I] else [I]) body.

Definition eraseFromParent (CI : Instruction) (body : list Instruction)
    : list Instruction :=
  filter (fun I => negb (Nat.eqb (inst_id I) (inst_id CI))) body.

(** A number no instruction of [F] bears: a new instruction is a new
    object. *)
Definition freshId (F : Function) : nat :=
  S (fold_right Nat.max O (map inst_id (fn_body F))).

(* ------------------------------------------------------------------ *)
(** * The pass driver *)

(** The name-comparison chain of [visitCallInst]: the handler for a
    recognised name, nothing for any other name. *)
Definition resolveCall (this : WIFuncResolution) (F : Function) (CI : Instruction)
    (funcName : string) : option (M Value) :=
  if String.eqb funcName WIFuncsAnalysis.GET_LOCAL_ID_X then
    Some (getLocalId this F CI LOCAL_ID_X)
  else if String.eqb funcName WIFuncsAnalysis.GET_LOCAL_ID_Y then
    Some (getLocalId this F CI LOCAL_ID_Y)
  else if String.eqb funcName WIFuncsAnalysis.GET_LOCAL_ID_Z then
    Some (getLocalId this F CI LOCAL_ID_Z)
  else if String.eqb funcName WIFuncsAnalysis.GET_GROUP_ID then
    Some (getGroupId this F CI)
  else if String.eqb funcName WIFuncsAnalysis.GET_LOCAL_THREAD_ID then
    Some (getLocalThreadId this F CI)
  else if String.eqb funcName WIFuncsAnalysis.GET_GLOBAL_SIZE then
    Some (getGlobalSize this F CI)
  else if String.eqb funcName WIFuncsAnalysis.GET_LOCAL_SIZE then
    Some (getLocalSize this F CI)
  else if String.eqb funcName WIFuncsAnalysis.GET_ENQUEUED_LOCAL_SIZE then
    Some (getEnqueuedLocalSize this F CI)
  else if String.eqb funcName WIFuncsAnalysis.GET_GLOBAL_OFFSET then
    Some (getGlobalOffset this F CI)
  else if String.eqb funcName WIFuncsAnalysis.GET_WORK_DIM then
    Some (getWorkDim this F CI)
  else if String.eqb funcName WIFuncsAnalysis.GET_NUM_GROUPS then
    Some (getNumGroups this F CI)
  else if String.eqb funcName WIFuncsAnalysis.GET_STAGE_IN_GRID_ORIGIN then
    Some (getStageInGridOrigin this F CI)
  else if String.eqb funcName WIFuncsAnalysis.GET_STAGE_IN_GRID_SIZE then
    Some (getStageInGridSize this F CI)
  else if String.eqb funcName WIFuncsAnalysis.GET_SYNC_BUFFER then
    Some (getSyncBufferPtr this F CI)
  else
    None.

(** "Handle size_t return type for 64 bits": the width step of
    [visitCallInst]. *)
Definition adaptWidth (CI : Instruction) (wiRes : Value) : M Value :=
  if getScalarSizeInBits (getType wiRes) <? getScalarSizeInBits (inst_ty CI) then
    pCast <- CastInst_Create ZExt wiRes (IntegerTy (getScalarSizeInBits (inst_ty CI))) ;;
    ret pCast
  else
    ret wiRes.

(** Replace the call by the result of the sequence and erase it:
    [CI.replaceAllUsesWith(wiRes); CI.eraseFromParent()]. *)
Definition rewire (F : Function) (CI : Instruction) (wiRes : Value)
    (new : list Instruction) : Res Function :=
  let body := insertBefore CI new (fn_body F) in
  match replaceAllUsesWith (valueOf CI) wiRes body with
  | Ok body => Ok (set_body F (eraseFromParent CI body))
  | Fatal msg => Fatal msg
  | Undefined => Undefined
  end.

Definition visitCallInst (this : WIFuncResolution) (F : Function) (CI : Instruction)
    : Res (WIFuncResolution * Function) :=
  match inst_op CI with
  | Call (NamedFunction funcName) _ =>
      match resolveCall this F CI funcName with
      | None => Ok (this, F)             (* Non WI function, do nothing *)
      | Some handler =>
          match (wiRes <- handler ;; adaptWidth CI wiRes) (mkBuilder (freshId F) []) with
          | Ok (wiRes, B) =>
              match rewire F CI wiRes (inserted B) with
              | Ok F' => Ok (set_changed this true, F')
              | Fatal msg => Fatal msg
              | Undefined => Undefined
              end
          | Fatal msg => Fatal msg
          | Undefined => Undefined
          end
      end
  | _ => Ok (this, F)     (* no called function, an intrinsic, or not a call *)
  end.

(** [InstVisitor::visit(F)]: every instruction of the function as it was
    when the visit began, each looked up in the function as it is now. *)
Fixpoint visitAll (ids : list nat) (this : WIFuncResolution) (F : Function)
    : Res (WIFuncResolution * Function) :=
  match ids with
  | [] => Ok (this, F)
  | id :: rest =>
      match find (fun I => Nat.eqb (inst_id I) id) (fn_body F) with
      | Some CI =>
          match visitCallInst this F CI with
          | Ok (this', F') => visitAll rest this' F'
          | Fatal msg => Fatal msg
          | Undefined => Undefined
          end
      | None => visitAll rest this F
      end
  end.

Definition visit (this : WIFuncResolution) (F : Function)
    : Res (WIFuncResolution * Function) :=
  visitAll (map inst_id (fn_body F)) this F.

Definition getKnownWorkGroupSize (MDUtils : MetaDataUtils) (F : Function)
    : option Value :=
  match md_threadGroupDims MDUtils with
  | None => None
  | Some (x, y, z) => Some (VConst (ConstantDataVector 32 [x; y; z]))
  end.

(** Returns [m_changed] and the function as the pass leaves it. *)
Definition runOnFunction (ctx : CodeGenContext) (MDUtils : MetaDataUtils)
    (F : Function) : Res (bool * Function) :=
  let this := mkPass (md_implicitArgs MDUtils) false ctx in
  match visit this F with
  | Ok (this, F) =>
      match getKnownWorkGroupSize MDUtils F with
      | Some KnownWorkGroupSize =>
          match ImplicitArgs_getImplicitArg (m_implicitArgs this) F ENQUEUED_LOCAL_WORK_SIZE with
          | Ok (Some Arg) =>
              match replaceAllUsesWith Arg KnownWorkGroupSize (fn_body F) with
              | Ok body => Ok (m_changed this, set_body F body)
              | Fatal msg => Fatal msg
              | Undefined => Undefined
              end
          | Ok None => Ok (m_changed this, F)
          | Fatal msg => Fatal msg
          | Undefined => Undefined
          end
      | None => Ok (m_changed this, F)
      end
  | Fatal msg => Fatal msg
  | Undefined => Undefined
  end.

(* ------------------------------------------------------------------ *)
(** * The meaning of the IR the pass builds

    Memory is byte addressed, one space per address space, little endian.
    The side buffer is address space [ADDRESS_SPACE_A32] from address 0;
    the local-id table is in the default address space. *)

Definition byte_of_Z (z : Z) : Byte.byte :=
  match Byte.of_N (Z.to_N (z mod 256)) with
  | Some b => b
  | None => Byte.x00
  end.

Definition Z_of_byte (b : Byte.byte) : Z := Z.of_N (Byte.to_N b).

Fixpoint decode_le (bs : list Byte.byte) : Z :=
  match bs with
  | [] => 0
  | b :: rest => Z_of_byte b + 256 * decode_le rest
  end.

Fixpoint encode_le (n : nat) (z : Z) : list Byte.byte :=
  match n with
  | O => []
  | S n' => byte_of_Z z :: encode_le n' (z / 256)
  end.

(** [k] consecutive chunks of [n] bytes. *)
Fixpoint chunks (n k : nat) (bs : list Byte.byte) : list (list Byte.byte) :=
  match k with
  | O => []
  | S k' => firstn n bs :: chunks n k' (skipn n bs)
  end.

Inductive RtVal : Type :=
| RInt (bits v : Z)
| RVec (ebits : Z) (elts : list Z)
| RPtr (pointee : Ty) (addrspace : AddrSpace) (addr : Z).

Definition bytes_of (v : RtVal) : option (list Byte.byte) :=
  match v with
  | RInt b z =>
      if b mod 8 =? 0 then Some (encode_le (Z.to_nat (b / 8)) z) else None
  | RVec b l =>
      if b mod 8 =? 0 then Some (flat_map (encode_le (Z.to_nat (b / 8))) l) else None
  | RPtr _ _ _ => None
  end.

Definition of_bytes (t : Ty) (bs : list Byte.byte) : option RtVal :=
  match t with
  | IntegerTy b =>
      if (b mod 8 =? 0) && (Z.of_nat (List.length bs) =? b / 8)
      then Some (RInt b (decode_le bs)) else None
  | FixedVectorTy (IntegerTy b) n =>
      if (b mod 8 =? 0) && (0 <? b) && (Z.of_nat (List.length bs) =? n * (b / 8))
      then Some (RVec b (map decode_le (chunks (Z.to_nat (b / 8)) (Z.to_nat n) bs)))
      else None
  | _ => None
  end.

(** Size in bytes of a type that can be loaded. *)
Definition storeSize (t : Ty) : Z := getPrimitiveSizeInBits t / 8.

Record Env : Type := mkEnv {
  env_module : Module;
  env_mem : AddrSpace -> Z -> Byte.byte;
  env_simdSize : Z;              (* GenISA_simdSize *)
  env_r0 : list Z;               (* GenISA_getR0: the thread-state vector *)
  env_simdLaneId : Z;            (* GenISA_simdLaneId *)
  env_args : list RtVal          (* the actual parameters *)
}.

Definition load_bytes (mem : Z -> Byte.byte) (addr : Z) (n : nat) : list Byte.byte :=
  map (fun k => mem (addr + Z.of_nat k)) (seq 0 n).

Definition Regs : Type := list (nat * RtVal).

Fixpoint lookup (regs : Regs) (id : nat) : option RtVal :=
  match regs with
  | [] => None
  | (k, v) :: rest => if Nat.eqb k id then Some v else lookup rest id
  end.

Definition eval_cast (Mod : Module) (op : CastOp) (v : RtVal) (t : Ty) : option RtVal :=
  match op, v, t with
  | IntToPtr, RInt _ z, PointerTy p a =>
      Some (RPtr p a (wrap (getPointerSizeInBits Mod a) z))
  | BitCast, RPtr _ a addr, PointerTy p a' =>
      if AddrSpace_eqb a a' then Some (RPtr p a addr) else None
  | BitCast, _, _ =>
      match bytes_of v with
      | Some bs => of_bytes t bs
      | None => None
      end
  | ZExt, RInt b z, IntegerTy b' => if b <? b' then Some (RInt b' z) else None
  | Trunc, RInt b z, IntegerTy b' => if b' <? b then Some (RInt b' (wrap b' z)) else None
  | _, _, _ => None
  end.

(** An undef value may be any bit pattern; all zeroes is the one taken. *)
Fixpoint eval_const (Mod : Module) (c : Constant) : option RtVal :=
  match c with
  | ConstantInt b v => Some (RInt b v)
  | ConstantDataVector b l => Some (RVec b l)
  | UndefValue t => of_bytes t (repeat Byte.x00 (Z.to_nat (storeSize t)))
  | ConstantExprCast op c' t =>
      match eval_const Mod c' with
      | Some v => eval_cast Mod op v t
      | None => None
      end
  end.

Definition eval_value (env : Env) (regs : Regs) (v : Value) : option RtVal :=
  match v with
  | VInst id _ => lookup regs id
  | VArg n _ => nth_error (env_args env) n
  | VConst c => eval_const (env_module env) c
  end.

Definition eval_binop (op : BinaryOp) (a b : RtVal) : option RtVal :=
  match a, b with
  | RInt w x, RInt w' y =>
      if w =? w' then
        match op with
        | Add => Some (RInt w (wrap w (x + y)))
        | Mul => Some (RInt w (wrap w (x * y)))
        | LShr => if y <? w then Some (RInt w (Z.shiftr x y)) else None
        end
      else None
  | _, _ => None
  end.

Definition eval_icmp (p : Predicate) (a b : RtVal) : option RtVal :=
  match a, b with
  | RInt w x, RInt w' y =>
      if w =? w' then
        match p with
        | ICMP_EQ => Some (RInt 1 (if x =? y then 1 else 0))
        | ICMP_SGT => Some (RInt 1 (if signed w x >? signed w y then 1 else 0))
        end
      else None
  | _, _ => None
  end.

Fixpoint set_nth (l : list Z) (k : nat) (x : Z) : list Z :=
  match l, k with
  | [], _ => []
  | _ :: r, O => x :: r
  | y :: r, S k' => y :: set_nth r k' x
  end.

Definition eval_op (env : Env) (regs : Regs) (op : Opcode) (t : Ty) : option RtVal :=
  let ev := eval_value env regs in
  match op with
  | Call (GenISAIntrinsic GenISA_simdSize) [] => Some (RInt 32 (env_simdSize env))
  | Call (GenISAIntrinsic GenISA_getR0) [] => Some (RVec 32 (env_r0 env))
  | Call (GenISAIntrinsic GenISA_simdLaneId) [] => Some (RInt 16 (env_simdLaneId env))
  | Call _ _ => None
  | Load p _ =>
      match ev p with
      | Some (RPtr pointee a addr) =>
          of_bytes pointee (load_bytes (env_mem env a) addr (Z.to_nat (storeSize pointee)))
      | _ => None
      end
  | Cast o v =>
      match ev v with
      | Some x => eval_cast (env_module env) o x t
      | None => None
      end
  | ExtractElement v i =>
      match ev v, ev i with
      | Some (RVec w l), Some (RInt _ k) =>
          match nth_error l (Z.to_nat k) with
          | Some x => Some (RInt w x)
          | None => None
          end
      | _, _ => None
      end
  | InsertElement v e i =>
      match ev v, ev e, ev i with
      | Some (RVec w l), Some (RInt w' x), Some (RInt _ k) =>
          if (w =? w') && (k <? Z.of_nat (List.length l))
          then Some (RVec w (set_nth l (Z.to_nat k) x)) else None
      | _, _, _ => None
      end
  | BinOp o a b =>
      match ev a, ev b with
      | Some x, Some y => eval_binop o x y
      | _, _ => None
      end
  | ICmp p a b =>
      match ev a, ev b with
      | Some x, Some y => eval_icmp p x y
      | _, _ => None
      end
  | Select c a b =>
      match ev c, ev a, ev b with
      | Some (RInt _ k), Some x, Some y => Some (if k =? 0 then y else x)
      | _, _, _ => None
      end
  | OtherInst _ => None
  end.

(** Run a straight-line sequence of instructions; [None] when one of them
    has no defined result. *)
Fixpoint exec (env : Env) (regs : Regs) (l : list Instruction) : option Regs :=
  match l with
  | [] => Some regs
  | i :: rest =>
      match eval_op env regs (inst_op i) (inst_ty i) with
      | Some v => exec env ((inst_id i, v) :: regs) rest
      | None => None
      end
  end.

(** The value a builder computation yields at run time: run what it
    inserted, then read its result. *)
Definition run_result (env : Env) (regs : Regs) (r : Res (Value * IRBuilder))
    : option RtVal :=
  match r with
  | Ok (v, B) =>
      match exec env regs (inserted B) with
      | Some regs' => eval_value env regs' v
      | None => None
      end
  | _ => None
  end.

(* ------------------------------------------------------------------ *)
(** * Vocabulary of the statements *)

(** The constant pointer [BuildLoadInst] builds for a side-buffer field:
    the offset as an integer of pointer width, cast to a pointer to i32 in
    [ADDRESS_SPACE_A32], cast again to a pointer to the type loaded. *)
Definition sideBufferPtr (F : Function) (offset : Z) (LoadType : Ty) : Value :=
  VConst (ConstantExprCast BitCast
            (ConstantExprCast IntToPtr
               (ConstantInt (getPointerSizeInBits (fn_parent F) ADDRESS_SPACE_A32)
                  (wrap (getPointerSizeInBits (fn_parent F) ADDRESS_SPACE_A32) offset))
               (PointerTy Int32Ty ADDRESS_SPACE_A32))
            (PointerTy LoadType ADDRESS_SPACE_A32)).

(** The address a constant pointer into the side buffer denotes. *)
Fixpoint constAddress (c : Constant) : option Z :=
  match c with
  | ConstantExprCast BitCast c' _ => constAddress c'
  | ConstantExprCast IntToPtr (ConstantInt _ v) (PointerTy _ ADDRESS_SPACE_A32) => Some v
  | _ => None
  end.

(** The side-buffer byte offsets a sequence of instructions loads from. *)
Definition sideBufferLoads (l : list Instruction) : list Z :=
  flat_map (fun i =>
              match inst_op i with
              | Load (VConst c) _ =>
                  match constAddress c with
                  | Some a => [a]
                  | None => []
                  end
              | _ => []
              end) l.

(** The [n] bytes of the side buffer from offset [O]. *)
Definition sbBytes (env : Env) (O : Z) (n : Z) : list Byte.byte :=
  load_bytes (env_mem env ADDRESS_SPACE_A32) O (Z.to_nat n).

(** The side buffer can be addressed at [O]: the constant pointer built
    for offset [O] denotes address [O] of [ADDRESS_SPACE_A32]. *)
Definition addressable (env : Env) (F : Function) (O : Z) : Prop :=
  forall regs LT,
    eval_value env regs (sideBufferPtr F O LT) = Some (RPtr LT ADDRESS_SPACE_A32 O).

(** What a lowering loads from the side buffer. *)
Definition lowering_loads (r : Res (Value * IRBuilder)) : list Z :=
  match r with
  | Ok (_, B) => sideBufferLoads (inserted B)
  | _ => []
  end.

(** The byte width of the elements of [T], the byte width of [T] and the
    nearest lower element-aligned offset, as [BuildLoadInst] computes
    them. *)
Definition elemByteSize (T : Ty) : Z := getScalarSizeInBits T / 8.
Definition totalByteSize (T : Ty) : Z :=
  match T with
  | FixedVectorTy _ n => u32 (elemByteSize T * u32 n)
  | _ => elemByteSize T
  end.
Definition alignedOffset (O : Z) (T : Ty) : Z := u32 (O / elemByteSize T * elemByteSize T).

(** [v] is not the result of an instruction numbered [k] or later. *)
Definition older (k : nat) (v : Value) : Prop :=
  match v with
  | VInst id _ => (id < k)%nat
  | _ => True
  end.

(** The four instructions both branches of [getGroupId] end with, numbered
    from [k]: compare dim with 0, select 1 or 5, add dim, extract the lane
    of [V]. *)
Definition groupIdSequence (k : nat) (dim V : Value) : list Instruction :=
  [ mkInst k (ICmp ICMP_EQ dim (VConst (ConstantInt 32 0))) (IntegerTy 1);
    mkInst (S k) (Select (VInst k (IntegerTy 1)) (VConst (ConstantInt 32 1))
                         (VConst (ConstantInt 32 5))) Int32Ty;
    mkInst (S (S k)) (BinOp Add dim (VInst (S k) Int32Ty)) Int32Ty;
    mkInst (S (S (S k))) (ExtractElement V (VInst (S (S k)) Int32Ty)) Int32Ty ].

(** The lane of the thread-state vector they select, in 32-bit
    arithmetic. *)
Definition groupIdLane (d : Z) : Z := wrap 32 (d + (if d =? 0 then 1 else 5)).

(** The factor [getLocalId] takes for each dimension. *)
Definition localIdFactor (argType : ArgType) : Z :=
  match argType with
  | LOCAL_ID_Y => 2
  | LOCAL_ID_Z => 4
  | _ => 0
  end.

(** The result of the instruction inserted [k] places after number [n]. *)
Definition reg (n k : nat) (t : Ty) : Value := VInst (k + n) t.

(** The instructions of the stack-call branch of [getLocalId], numbered
    from [n]; [g] is the lane count of the thread-state vector, [f] the
    factor of the dimension and [c] the bit width of the call. *)
Definition localIdSequence (F : Function) (g f c : Z) (n : nat) : list Instruction :=
  let I1 := IntegerTy 1 in
  let I16 := IntegerTy 16 in
  let I32 := IntegerTy 32 in
  let I64 := IntegerTy 64 in
  let V1 := FixedVectorTy I64 1 in
  let R0Ty := FixedVectorTy I32 g in
  let P16 := PointerTy I16 ADDRESS_SPACE_0 in
  [ mkInst (0 + n) (Load (sideBufferPtr F GLOBAL_STATE_FIELD_OFFSETS.LOCAL_IDS V1) 8) V1;
    mkInst (1 + n) (Cast BitCast (reg n 0 V1)) I64;
    mkInst (2 + n) (Call (GenISAIntrinsic GenISA_simdSize) []) I32;
    mkInst (3 + n) (ICmp ICMP_SGT (reg n 2 I32) (VConst (ConstantInt 32 16))) I1;
    mkInst (4 + n) (Select (reg n 3 I1) (reg n 2 I32) (VConst (ConstantInt 32 16))) I32;
    mkInst (5 + n) (Call (GenISAIntrinsic GenISA_getR0) []) R0Ty;
    mkInst (6 + n) (ExtractElement (reg n 5 R0Ty) (VConst (ConstantInt 32 2))) I32;
    mkInst (7 + n) (Call (GenISAIntrinsic GenISA_simdLaneId) []) I16;
    mkInst (8 + n) (BinOp Mul (reg n 4 I32) (VConst (ConstantInt 32 6))) I32;
    mkInst (9 + n) (BinOp Mul (reg n 8 I32) (reg n 6 I32)) I32;
    mkInst (10 + n) (Cast ZExt (reg n 9 I32)) I64;
    mkInst (11 + n) (BinOp Add (reg n 10 I64) (reg n 1 I64)) I64;
    mkInst (12 + n) (BinOp Mul (reg n 4 I32) (VConst (ConstantInt 32 f))) I32;
    mkInst (13 + n) (BinOp Mul (reg n 7 I16) (VConst (ConstantInt 16 2))) I16;
    mkInst (14 + n) (Cast ZExt (reg n 12 I32)) I64;
    mkInst (15 + n) (Cast ZExt (reg n 13 I16)) I64;
    mkInst (16 + n) (BinOp Add (reg n 14 I64) (reg n 15 I64)) I64;
    mkInst (17 + n) (BinOp Add (reg n 16 I64) (reg n 11 I64)) I64;
    mkInst (18 + n) (Cast IntToPtr (reg n 17 I64)) P16;
    mkInst (19 + n) (Load (reg n 18 P16) 0) I16;
    mkInst (20 + n) (Cast ZExt (reg n 19 I16)) (IntegerTy c) ].



(** The function after the call [CI] was replaced by [wiRes], computed by
    the instructions [new] put in its place. *)
Definition rewired (F : Function) (CI : Instruction) (wiRes : Value)
    (new : list Instruction) : Function :=
  set_body F
    (eraseFromParent CI
       (substUses (valueOf CI) wiRes (insertBefore CI new (fn_body F)))).

(* ------------------------------------------------------------------ *)
(** * Sample functions *)

Definition sampleModule : Module :=
  mkModule (fun a => match a with
                     | ADDRESS_SPACE_0 => 64
                     | ADDRESS_SPACE_A32 => 32
                     end).

Definition samplePass (ia : ImplicitArgs.t) : WIFuncResolution :=
  mkPass ia false (mkCtx 32).

Definition samplePass_changed (ia : ImplicitArgs.t) : WIFuncResolution :=
  mkPass ia true (mkCtx 32).

(** A stack-call function with one formal parameter and no hidden one. *)
Definition stackFn (body : list Instruction) : Function :=
  mkFunction sampleModule [Int32Ty] ["visaStackCall"%string] body.

(** A kernel with two formal parameters of its own followed by the hidden
    ones given. *)
Definition kernelFn (hidden : list Ty) (body : list Instruction) : Function :=
  mkFunction sampleModule ([Int32Ty; Int32Ty] ++ hidden) [] body.

Definition call (id : nat) (name : string) (args : list Value) (t : Ty) : Instruction :=
  mkInst id (Call (NamedFunction name) args) t.

(** A side buffer whose first word is 0x05000000 (byte 3 is 5, all others
    are 0), with simd width 16 and an empty thread-state vector. *)
Definition sampleEnv : Env :=
  mkEnv sampleModule
        (fun _ addr => if addr =? 3 then Byte.x05 else Byte.x00)
        16 [0; 0; 0; 0; 0; 0; 0; 0] 0 [].

(** The side buffer of a three-dimensional dispatch at simd width 16: the
    byte at the NUM_WORK_DIM offset holds 3 and the byte at the SIMDSIZE
    offset holds 16. *)
Definition workDimEnv : Env :=
  mkEnv sampleModule
        (fun _ addr =>
           if addr =? GLOBAL_STATE_FIELD_OFFSETS.NUM_WORK_DIM then Byte.x03
           else if addr =? GLOBAL_STATE_FIELD_OFFSETS.SIMDSIZE then Byte.x10
           else Byte.x00)
        16 [0; 0; 0; 0; 0; 0; 0; 0] 0 [].


(** A thread-state vector with lane k holding 100 + k. *)
Definition sampleR0Env : Env :=
  mkEnv sampleModule (fun _ _ => Byte.x00) 16
        [100; 101; 102; 103; 104; 105; 106; 107] 0 [].

(* ------------------------------------------------------------------ *)
(** * Vocabulary of the statements about the driver *)

(** The names [visitCallInst] compares the callee with, in the order of
    its chain. *)
Definition WINames : list string :=
  [ WIFuncsAnalysis.GET_LOCAL_ID_X; WIFuncsAnalysis.GET_LOCAL_ID_Y;
    WIFuncsAnalysis.GET_LOCAL_ID_Z; WIFuncsAnalysis.GET_GROUP_ID;
    WIFuncsAnalysis.GET_LOCAL_THREAD_ID; WIFuncsAnalysis.GET_GLOBAL_SIZE;
    WIFuncsAnalysis.GET_LOCAL_SIZE; WIFuncsAnalysis.GET_ENQUEUED_LOCAL_SIZE;
    WIFuncsAnalysis.GET_GLOBAL_OFFSET; WIFuncsAnalysis.GET_WORK_DIM;
    WIFuncsAnalysis.GET_NUM_GROUPS; WIFuncsAnalysis.GET_STAGE_IN_GRID_ORIGIN;
    WIFuncsAnalysis.GET_STAGE_IN_GRID_SIZE; WIFuncsAnalysis.GET_SYNC_BUFFER ].

Definition isWIFunc (name : string) : bool := existsb (String.eqb name) WINames.

(** A call of a work-item query by name. *)
Definition isQueryCall (i : Instruction) : bool :=
  match inst_op i with
  | Call (NamedFunction name) _ => isWIFunc name
  | _ => false
  end.

(** The instructions a builder has inserted since it stood at number [s]
    are numbered [s], [s+1], ... up to its next number, and none of them is
    a query call. *)
Definition fresh_from (s : nat) (st : IRBuilder) : Prop :=
  map inst_id (inserted st) = seq s (next_id st - s) /\
  (s <= next_id st)%nat /\
  forallb (fun i => negb (isQueryCall i)) (inserted st) = true.

(** A builder computation keeps that. *)
Definition keeps_fresh {A : Type} (m : M A) : Prop :=
  forall s st a st', fresh_from s st -> m st = Ok (a, st') -> fresh_from s st'.

(** The instruction numbers of a body, in order. *)
Definition ids (body : list Instruction) : list nat := map inst_id body.

(** Whether the number of an instruction is in a list of numbers. *)
Definition mem_id (l : list nat) (i : Instruction) : bool :=
  existsb (Nat.eqb (inst_id i)) l.

(** [v] is not the result of an instruction numbered below [s]: it is a
    constant, a formal parameter, or the result of an instruction numbered
    [s] or later. *)
Definition newer (s : nat) (v : Value) : Prop :=
  match v with
  | VInst id _ => (s <= id)%nat
  | _ => True
  end.

(** A builder computation that started at number [s] returns such a
    value. *)
Definition yields_new (s : nat) (m : M Value) : Prop :=
  forall st a st', fresh_from s st -> m st = Ok (a, st') -> newer s a.

(** A kernel with the hidden arguments R0 and WORK_DIM, two query calls
    and an instruction that uses both results. *)
Definition sampleKernel : Function :=
  kernelFn [FixedVectorTy Int32Ty 8; Int32Ty]
    [ call 0 WIFuncsAnalysis.GET_WORK_DIM [] Int32Ty;
      call 1 WIFuncsAnalysis.GET_GROUP_ID [VConst (ConstantInt 32 0)] Int32Ty;
      mkInst 2 (OtherInst [VInst 0 Int32Ty; VInst 1 Int32Ty]) Int32Ty ].

Definition sampleMD : MetaDataUtils := mkMD [R0; WORK_DIM] None.

(** What the pass makes of it. *)
Definition sampleKernel_resolved : Function :=
  set_body sampleKernel
    (groupIdSequence 3 (VConst (ConstantInt 32 0)) (VArg 2 (FixedVectorTy Int32Ty 8)) ++
     [mkInst 2 (OtherInst [VArg 3 Int32Ty; VInst 6 Int32Ty]) Int32Ty]).

(** The same kernel without the hidden arguments. *)
Definition bareKernel : Function :=
  mkFunction sampleModule [Int32Ty] [] (fn_body sampleKernel).

(** A kernel that calls no query. *)
Definition plainKernel : Function :=
  kernelFn []
    [ call 0 "user_function" [VArg 0 Int32Ty] Int32Ty;
      mkInst 1 (Call IndirectCallee [VInst 0 Int32Ty]) Int32Ty;
      mkInst 2 (Call (GenISAIntrinsic GenISA_simdSize) []) Int32Ty;
      mkInst 3 (BinOp Add (VInst 1 Int32Ty) (VInst 2 Int32Ty)) Int32Ty ].

(** Element [d], [b] bits wide, of the side-buffer array that starts at
    offset [O], read little-endian. *)
Definition sbField (env : Env) (O b d : Z) : Z :=
  decode_le (sbBytes env (O + d * (b / 8)) (b / 8)).

(** The two instructions of a LocalSize, EnqueuedLocalSize or NumGroups
    query in a stack-call function, numbered from [n]: load the three 32-bit
    elements at offset [O], extract lane [dim]. *)
Definition laneSequence (F : Function) (O : Z) (n : nat) (dim : Value) : list Instruction :=
  let V3 := FixedVectorTy Int32Ty 3 in
  [ mkInst n (Load (sideBufferPtr F O V3) 4) V3;
    mkInst (S n) (ExtractElement (VInst n V3) dim) Int32Ty ].

(** The instructions of a GlobalSize, GlobalOffset or StageInGridSize query
    in a stack-call function, numbered from [n]: load the three 64-bit
    elements at offset [O]; extract each, truncate it to [c] bits and insert
    it in a new vector; extract lane [dim] of that vector. *)
Definition wideLaneSequence (F : Function) (O c : Z) (n : nat) (dim : Value)
    : list Instruction :=
  let I64 := IntegerTy 64 in
  let Ic := IntegerTy c in
  let V3Q := FixedVectorTy I64 3 in
  let V3c := FixedVectorTy Ic 3 in
  [ mkInst (0 + n) (Load (sideBufferPtr F O V3Q) 8) V3Q;
    mkInst (1 + n) (ExtractElement (reg n 0 V3Q) (getInt64 0)) I64;
    mkInst (2 + n) (Cast Trunc (reg n 1 I64)) Ic;
    mkInst (3 + n) (InsertElement (VConst (UndefValue V3c)) (reg n 2 Ic) (getInt64 0)) V3c;
    mkInst (4 + n) (ExtractElement (reg n 0 V3Q) (getInt64 1)) I64;
    mkInst (5 + n) (Cast Trunc (reg n 4 I64)) Ic;
    mkInst (6 + n) (InsertElement (reg n 3 V3c) (reg n 5 Ic) (getInt64 1)) V3c;
    mkInst (7 + n) (ExtractElement (reg n 0 V3Q) (getInt64 2)) I64;
    mkInst (8 + n) (Cast Trunc (reg n 7 I64)) Ic;
    mkInst (9 + n) (InsertElement (reg n 6 V3c) (reg n 8 Ic) (getInt64 2)) V3c;
    mkInst (10 + n) (ExtractElement (reg n 9 V3c) dim) Ic ].

(** The same for a call of 64 bits, where the builder folds the truncation
    away. *)
Definition wideLaneSequence64 (F : Function) (O : Z) (n : nat) (dim : Value)
    : list Instruction :=
  let I64 := IntegerTy 64 in
  let V3Q := FixedVectorTy I64 3 in
  [ mkInst (0 + n) (Load (sideBufferPtr F O V3Q) 8) V3Q;
    mkInst (1 + n) (ExtractElement (reg n 0 V3Q) (getInt64 0)) I64;
    mkInst (2 + n) (InsertElement (VConst (UndefValue V3Q)) (reg n 1 I64) (getInt64 0)) V3Q;
    mkInst (3 + n) (ExtractElement (reg n 0 V3Q) (getInt64 1)) I64;
    mkInst (4 + n) (InsertElement (reg n 2 V3Q) (reg n 3 I64) (getInt64 1)) V3Q;
    mkInst (5 + n) (ExtractElement (reg n 0 V3Q) (getInt64 2)) I64;
    mkInst (6 + n) (InsertElement (reg n 4 V3Q) (reg n 5 I64) (getInt64 2)) V3Q;
    mkInst (7 + n) (ExtractElement (reg n 6 V3Q) dim) I64 ].

(** The handlers that extract a lane of a hidden vector argument when the
    function is not a stack call, each with the kind of argument it asks
    for. *)
Definition implicitVectorQueries
    : list ((WIFuncResolution -> Function -> Instruction -> M Value) * ArgType) :=
  [ (getGlobalSize, GLOBAL_SIZE);
    (getLocalSize, LOCAL_SIZE);
    (getEnqueuedLocalSize, ENQUEUED_LOCAL_WORK_SIZE);
    (getGlobalOffset, PAYLOAD_HEADER);
    (getNumGroups, NUM_GROUPS);
    (getStageInGridSize, STAGE_IN_GRID_SIZE) ].

(** The queries whose result, when the function is not a stack call, is a
    hidden argument itself, each with the kind of argument. *)
Definition implicitScalarQueries : list (string * ArgType) :=
  [ (WIFuncsAnalysis.GET_LOCAL_ID_X, LOCAL_ID_X);
    (WIFuncsAnalysis.GET_LOCAL_ID_Y, LOCAL_ID_Y);
    (WIFuncsAnalysis.GET_LOCAL_ID_Z, LOCAL_ID_Z);
    (WIFuncsAnalysis.GET_WORK_DIM, WORK_DIM);
    (WIFuncsAnalysis.GET_SYNC_BUFFER, SYNC_BUFFER) ].

(** A builder computation that never aborts: it returns or has no defined
    behaviour, but no assertion of it fails. *)
Definition never_fatal {A : Type} (m : M A) : Prop :=
  forall st msg, m st <> Fatal msg.

(** The two queries that read a hidden argument whatever the function is. *)
Definition alwaysImplicit (name : string) : bool :=
  String.eqb name WIFuncsAnalysis.GET_STAGE_IN_GRID_ORIGIN ||
  String.eqb name WIFuncsAnalysis.GET_SYNC_BUFFER.

(** [v], if it is the result of an instruction, is the result of an
    instruction of [body]: same number, same type. *)
Definition defined_in (body : list Instruction) (v : Value) : Prop :=
  match v with
  | VInst _ _ => exists j, In j body /\ valueOf j = v
  | _ => True
  end.

(** No instruction of [body] has a dangling operand. *)
Definition closed (body : list Instruction) : Prop :=
  forall i v, In i body -> In v (operands (inst_op i)) -> defined_in body v.

(** The same as a check that can be run. *)
Definition closedb (body : list Instruction) : bool :=
  forallb (fun i =>
             forallb (fun v =>
                        match v with
                        | VInst _ _ => existsb (fun j => Value_eqb (valueOf j) v) body
                        | _ => true
                        end) (operands (inst_op i))) body.

(** What a lowering of the call [CI] may use as an operand: a constant, a
    formal parameter, the result of an instruction it has inserted, or an
    operand of the call. *)
Definition usable (CI : Instruction) (l : list Instruction) (v : Value) : Prop :=
  defined_in l v \/ In v (operands (inst_op CI)).

(** Every operand of the inserted instructions [l] is such a value. *)
Definition tidy (CI : Instruction) (l : list Instruction) : Prop :=
  forall i v, In i l -> In v (operands (inst_op i)) -> usable CI l v.

(** Every result of [l] is still a result of [l']. *)
Definition grows (l l' : list Instruction) : Prop :=
  forall j, In j l -> exists j', In j' l' /\ valueOf j' = valueOf j.

(** A builder computation, run after the instructions [lp] were inserted,
    keeps the inserted instructions tidy and returns a usable value. *)
Definition builds (CI : Instruction) (lp : list Instruction) (m : M Value) : Prop :=
  forall st a st',
    grows lp (inserted st) -> tidy CI (inserted st) -> m st = Ok (a, st') ->
    tidy CI (inserted st') /\ grows (inserted st) (inserted st') /\
    usable CI (inserted st') a.

Definition builds_unit (CI : Instruction) (lp : list Instruction) (m : M unit) : Prop :=
  forall st a st',
    grows lp (inserted st) -> tidy CI (inserted st) -> m st = Ok (a, st') ->
    tidy CI (inserted st') /\ grows (inserted st) (inserted st').

(** The queries that take the dimension as their first operand. *)
Definition takesDim (name : string) : bool :=
  existsb (String.eqb name)
    [ WIFuncsAnalysis.GET_GROUP_ID; WIFuncsAnalysis.GET_GLOBAL_SIZE;
      WIFuncsAnalysis.GET_LOCAL_SIZE; WIFuncsAnalysis.GET_ENQUEUED_LOCAL_SIZE;
      WIFuncsAnalysis.GET_GLOBAL_OFFSET; WIFuncsAnalysis.GET_NUM_GROUPS;
      WIFuncsAnalysis.GET_STAGE_IN_GRID_ORIGIN; WIFuncsAnalysis.GET_STAGE_IN_GRID_SIZE ].

(* ================================================================== *)
(** * Properties *)

(* ------------------------------------------------------------------ *)
(** ** Bytes and little-endian words *)

Lemma Z_of_byte_range (b : Byte.byte) : 0 <= Z_of_byte b < 256.
Proof.
  unfold Z_of_byte. pose proof (Byte.to_N_bounded b). lia.
Qed.

Lemma byte_of_Z_of_byte (b : Byte.byte) (z : Z) :
  byte_of_Z (Z_of_byte b + 256 * z) = b.
Proof.
  unfold byte_of_Z.
  replace ((Z_of_byte b + 256 * z) mod 256) with (Z_of_byte b).
  - unfold Z_of_byte. rewrite N2Z.id, Byte.of_to_N. reflexivity.
  - pose proof (Z_of_byte_range b).
    replace (256 * z) with (z * 256) by lia.
    rewrite Z.mod_add by lia.
    symmetry. apply Z.mod_small. lia.
Qed.

Lemma div_256_of_byte (b : Byte.byte) (z : Z) :
  (Z_of_byte b + 256 * z) / 256 = z.
Proof.
  pose proof (Z_of_byte_range b).
  replace (256 * z) with (z * 256) by lia.
  rewrite Z.div_add by lia.
  rewrite Z.div_small by lia. lia.
Qed.

Lemma encode_decode (bs : list Byte.byte) :
  encode_le (List.length bs) (decode_le bs) = bs.
Proof.
  induction bs as [| b bs IH]; cbn [encode_le decode_le List.length].
  - reflexivity.
  - rewrite byte_of_Z_of_byte, div_256_of_byte, IH. reflexivity.
Qed.


Lemma load_bytes_length (mem : Z -> Byte.byte) (addr : Z) (n : nat) :
  List.length (load_bytes mem addr n) = n.
Proof.
  unfold load_bytes. rewrite length_map, length_seq. reflexivity.
Qed.

(* ------------------------------------------------------------------ *)
(** ** Equality tests *)

Lemma AddrSpace_eqb_refl (a : AddrSpace) : AddrSpace_eqb a a = true.
Proof. destruct a; reflexivity. Qed.

Lemma Ty_eqb_refl (t : Ty) : Ty_eqb t t = true.
Proof.
  induction t as [b | p IH a | e IH n]; simpl.
  - apply Z.eqb_refl.
  - rewrite IH, AddrSpace_eqb_refl. reflexivity.
  - rewrite IH, Z.eqb_refl. reflexivity.
Qed.

Lemma Ty_eqb_eq (a b : Ty) : Ty_eqb a b = true -> a = b.
Proof.
  revert b. induction a as [x | p IH s | e IH n]; intros [y | q t | f m]; simpl;
    try discriminate.
  - intros H. apply Z.eqb_eq in H. congruence.
  - intros H. apply andb_true_iff in H. destruct H as [H1 H2].
    apply IH in H1. destruct s, t; simpl in H2; try discriminate; congruence.
  - intros H. apply andb_true_iff in H. destruct H as [H1 H2].
    apply IH in H1. apply Z.eqb_eq in H2. congruence.
Qed.

(* ------------------------------------------------------------------ *)
(** ** The hidden-argument resolver *)

Lemma getArgIndex_nonneg (ia : ImplicitArgs.t) (k : ArgType) :
  0 <= ImplicitArgs.getArgIndex ia k.
Proof.
  induction ia as [| a ia IH]; cbn [ImplicitArgs.getArgIndex]; [lia |].
  destruct (ArgType_eqb a k); lia.
Qed.

Lemma u32_small (z : Z) : 0 <= z < 2 ^ 32 -> u32 z = z.
Proof. intros H. unfold u32. apply Z.mod_small. exact H. Qed.

Lemma arg_size_nonneg (F : Function) : 0 <= arg_size F.
Proof. unfold arg_size. lia. Qed.

Lemma size_nonneg (ia : ImplicitArgs.t) : 0 <= ImplicitArgs.size ia.
Proof. unfold ImplicitArgs.size. lia. Qed.

(** The resolver in its two cases, for any builder state. *)
Lemma getImplicitArg_ok (this : WIFuncResolution) (F : Function) (k : ArgType)
    (st : IRBuilder) :
  arg_size F < 2 ^ 32 ->
  ImplicitArgs.size (m_implicitArgs this) <= arg_size F ->
  ImplicitArgs.getArgIndex (m_implicitArgs this) k < ImplicitArgs.size (m_implicitArgs this) ->
  exists t,
    nth_error (fn_args F)
      (Z.to_nat (arg_size F - ImplicitArgs.size (m_implicitArgs this)
                 + ImplicitArgs.getArgIndex (m_implicitArgs this) k)) = Some t /\
    getImplicitArg this F k st =
      Ok (VArg (Z.to_nat (arg_size F - ImplicitArgs.size (m_implicitArgs this)
                          + ImplicitArgs.getArgIndex (m_implicitArgs this) k)) t, st).
Proof.
  intros HP HN Hi.
  pose proof (getArgIndex_nonneg (m_implicitArgs this) k) as Hi0.
  pose proof (size_nonneg (m_implicitArgs this)) as HN0.
  set (P := arg_size F) in *.
  set (N := ImplicitArgs.size (m_implicitArgs this)) in *.
  set (i := ImplicitArgs.getArgIndex (m_implicitArgs this) k) in *.
  assert (Hlt : (Z.to_nat (P - N + i) < List.length (fn_args F))%nat).
  { unfold P, arg_size in *. lia. }
  destruct (nth_error (fn_args F) (Z.to_nat (P - N + i))) as [t |] eqn:Hnth.
  - exists t. split; [reflexivity |].
    unfold getImplicitArg, bind, IGC_ASSERT_MESSAGE, lift, arg_at.
    fold P N i.
    rewrite (u32_small N) by lia. rewrite (u32_small i) by lia.
    rewrite (u32_small (P - N + i)) by lia.
    replace (P >=? N) with true by (symmetry; apply Z.geb_le; lia).
    simpl. rewrite Hnth. reflexivity.
  - apply nth_error_None in Hnth. lia.
Qed.

Lemma getImplicitArg_fatal (this : WIFuncResolution) (F : Function) (k : ArgType)
    (st : IRBuilder) :
  ImplicitArgs.size (m_implicitArgs this) < 2 ^ 32 ->
  arg_size F < ImplicitArgs.size (m_implicitArgs this) ->
  getImplicitArg this F k st =
    Fatal "Function arg size does not match meta data args.".
Proof.
  intros HN HP.
  pose proof (arg_size_nonneg F).
  unfold getImplicitArg, bind, IGC_ASSERT_MESSAGE.
  rewrite (u32_small (ImplicitArgs.size (m_implicitArgs this))) by lia.
  destruct (arg_size F >=? ImplicitArgs.size (m_implicitArgs this)) eqn:E.
  - apply Z.geb_le in E. lia.
  - reflexivity.
Qed.

(** C4.  With P formal parameters, N hidden arguments and the queried kind
    at logical index i, the resolver returns formal parameter number
    P - N + i when P >= N, and aborts on the fatal assertion when P < N. *)
Theorem getImplicitArg_resolves (this : WIFuncResolution) (F : Function)
    (k : ArgType) (st : IRBuilder) :
  let P := arg_size F in
  let N := ImplicitArgs.size (m_implicitArgs this) in
  let i := ImplicitArgs.getArgIndex (m_implicitArgs this) k in
  P < 2 ^ 32 -> N < 2 ^ 32 ->
  (N <= P -> i < N ->
     exists t, nth_error (fn_args F) (Z.to_nat (P - N + i)) = Some t /\
               getImplicitArg this F k st = Ok (VArg (Z.to_nat (P - N + i)) t, st)) /\
  (P < N ->
     getImplicitArg this F k st =
       Fatal "Function arg size does not match meta data args.").
Proof.
  intros P N i HP HN. split.
  - intros HNP Hi. apply getImplicitArg_ok; assumption.
  - intros HPN. apply getImplicitArg_fatal; assumption.
Qed.

(** Five formal parameters, three of them hidden, WORK_DIM at index 1:
    parameter 3; and a function with fewer parameters than hidden
    arguments. *)
Lemma getImplicitArg_resolves_witness :
  getImplicitArg (samplePass [R0; WORK_DIM; LOCAL_SIZE])
    (kernelFn [FixedVectorTy Int32Ty 8; Int32Ty; FixedVectorTy Int32Ty 3] [])
    WORK_DIM (mkBuilder 0 []) = Ok (VArg 3 Int32Ty, mkBuilder 0 []) /\
  getImplicitArg (samplePass [R0; WORK_DIM; LOCAL_SIZE])
    (mkFunction sampleModule [Int32Ty; Int32Ty] [] [])
    WORK_DIM (mkBuilder 0 []) =
    Fatal "Function arg size does not match meta data args.".
Proof.
  split.
  - destruct (getImplicitArg_resolves (samplePass [R0; WORK_DIM; LOCAL_SIZE])
                (kernelFn [FixedVectorTy Int32Ty 8; Int32Ty; FixedVectorTy Int32Ty 3] [])
                WORK_DIM (mkBuilder 0 [])) as [H _];
      [vm_compute; reflexivity | vm_compute; reflexivity |].
    destruct H as [t [Hn He]]; [vm_compute; discriminate | vm_compute; reflexivity |].
    vm_compute in Hn. injection Hn as <-. exact He.
  - destruct (getImplicitArg_resolves (samplePass [R0; WORK_DIM; LOCAL_SIZE])
                (mkFunction sampleModule [Int32Ty; Int32Ty] [] [])
                WORK_DIM (mkBuilder 0 [])) as [_ H];
      [vm_compute; reflexivity | vm_compute; reflexivity |].
    apply H. vm_compute. reflexivity.
Defined.

(* ------------------------------------------------------------------ *)
(** ** The field loader on an aligned offset *)

Lemma aligned_offset (O E : Z) :
  0 < E -> 0 <= O < 2 ^ 32 -> O mod E = 0 -> u32 (O / E * E) = O.
Proof.
  intros HE HO Hm.
  replace (O / E * E) with O.
  - apply u32_small. exact HO.
  - pose proof (Z.div_mod O E). lia.
Qed.

Ltac unfold_builder :=
  unfold bind, CreateIntToPtr, CreateBitCast, CreateCast, CreateLoad, setAlignment, getIntN,
    Insert, ret, valueOf, getCorrectAlign, sideBufferPtr;
  cbn [getType constType Ty_eqb castIsValid Int32Ty next_id inserted app map inst_id inst_op
       inst_ty andb AddrSpace_eqb getPrimitiveSizeInBits].

(** A scalar field at an aligned offset: one load of a one-element vector
    and a bitcast to the scalar type. *)
Lemma BuildLoadInst_aligned_scalar (F : Function) (O b : Z) (n : nat) :
  0 < b / 8 -> 0 <= O < 2 ^ 32 -> O mod (b / 8) = 0 ->
  BuildLoadInst F O (IntegerTy b) (mkBuilder n []) =
    Ok (VInst (S n) (IntegerTy b),
        mkBuilder (S (S n))
          [ mkInst n (Load (sideBufferPtr F O (FixedVectorTy (IntegerTy b) 1)) (b / 8))
                   (FixedVectorTy (IntegerTy b) 1);
            mkInst (S n) (Cast BitCast (VInst n (FixedVectorTy (IntegerTy b) 1)))
                   (IntegerTy b) ]).
Proof.
  intros HE HO Hm.
  unfold BuildLoadInst.
  cbn [getScalarSizeInBits getScalarType getPrimitiveSizeInBits].
  rewrite (aligned_offset O (b / 8)) by assumption.
  replace (b / 8 =? 0) with false by (symmetry; apply Z.eqb_neq; lia).
  rewrite Z.eqb_refl. cbn [negb].
  rewrite Z.div_same by lia.
  remember (b / 8) as E eqn:HeqE.
  unfold_builder.
  rewrite Nat.eqb_refl, Z.mul_1_l, Z.eqb_refl.
  reflexivity.
Qed.

(** A vector field at an aligned offset: one load of the vector type. *)
Lemma BuildLoadInst_aligned_vector (F : Function) (O b k : Z) (n : nat) :
  0 < b / 8 -> 0 <= k -> b / 8 * k < 2 ^ 32 -> 0 <= O < 2 ^ 32 -> O mod (b / 8) = 0 ->
  BuildLoadInst F O (FixedVectorTy (IntegerTy b) k) (mkBuilder n []) =
    Ok (VInst n (FixedVectorTy (IntegerTy b) k),
        mkBuilder (S n)
          [ mkInst n (Load (sideBufferPtr F O (FixedVectorTy (IntegerTy b) k)) (b / 8))
                   (FixedVectorTy (IntegerTy b) k) ]).
Proof.
  intros HE Hk Hs HO Hm.
  unfold BuildLoadInst.
  cbn [getScalarSizeInBits getScalarType getPrimitiveSizeInBits].
  rewrite (aligned_offset O (b / 8)) by assumption.
  replace (b / 8 =? 0) with false by (symmetry; apply Z.eqb_neq; lia).
  rewrite Z.eqb_refl. cbn [negb].
  assert (Hk32 : u32 k = k) by (apply u32_small; nia).
  rewrite Hk32. rewrite (u32_small (b / 8 * k)) by nia.
  replace (b / 8 * k / (b / 8)) with k by (rewrite Z.mul_comm, Z.div_mul; lia).
  remember (b / 8) as E eqn:HeqE.
  unfold_builder.
  rewrite Nat.eqb_refl, !Z.eqb_refl.
  reflexivity.
Qed.

(* ------------------------------------------------------------------ *)
(** ** What an aligned field load yields *)

Lemma wrap_small (p z : Z) : 0 <= z < 2 ^ p -> wrap p z = z.
Proof. intros H. unfold wrap. apply Z.mod_small. exact H. Qed.

Lemma eval_sideBufferPtr (env : Env) (regs : Regs) (F : Function) (O : Z) (LT : Ty) :
  env_module env = fn_parent F ->
  0 <= O < 2 ^ getPointerSizeInBits (fn_parent F) ADDRESS_SPACE_A32 ->
  eval_value env regs (sideBufferPtr F O LT) = Some (RPtr LT ADDRESS_SPACE_A32 O).
Proof.
  intros Hm HO. unfold sideBufferPtr.
  cbn [eval_value eval_const eval_cast AddrSpace_eqb].
  rewrite Hm. rewrite !(wrap_small _ O) by assumption. reflexivity.
Qed.

Lemma chunks_flat (E k : nat) (bs : list Byte.byte) :
  List.length bs = (E * k)%nat ->
  flat_map (encode_le E) (map decode_le (chunks E k bs)) = bs.
Proof.
  revert bs. induction k as [| k IH]; intros bs Hlen.
  - rewrite Nat.mul_0_r in Hlen. destruct bs; [reflexivity | discriminate].
  - cbn [chunks map flat_map].
    assert (Hf : List.length (firstn E bs) = E) by (rewrite length_firstn; lia).
    rewrite <- Hf at 1. rewrite encode_decode.
    rewrite IH by (rewrite length_skipn; lia).
    apply firstn_skipn.
Qed.

(** The value a type denotes when its bytes are [bs]. *)
Lemma of_bytes_bytes_of (t : Ty) (bs : list Byte.byte) (v : RtVal) :
  of_bytes t bs = Some v -> bytes_of v = Some bs.
Proof.
  destruct t as [b | p a | e k]; cbn [of_bytes]; try discriminate.
  - destruct (b mod 8 =? 0) eqn:Hb; [| discriminate].
    destruct (Z.of_nat (List.length bs) =? b / 8) eqn:Hl; [| discriminate].
    cbn [andb]. intros H. injection H as <-. cbn [bytes_of]. rewrite Hb.
    apply Z.eqb_eq in Hl. rewrite <- Hl, Nat2Z.id, encode_decode. reflexivity.
  - destruct e as [b | |]; try discriminate.
    destruct (b mod 8 =? 0) eqn:Hb; [| discriminate].
    destruct (0 <? b) eqn:Hpos; [| discriminate].
    destruct (Z.of_nat (List.length bs) =? k * (b / 8)) eqn:Hl; [| discriminate].
    cbn [andb]. intros H. injection H as <-. cbn [bytes_of]. rewrite Hb.
    apply Z.eqb_eq in Hl. apply Z.ltb_lt in Hpos. apply Z.eqb_eq in Hb.
    assert (0 < b / 8) by (pose proof (Z.div_mod b 8); lia).
    assert (0 <= k) by nia.
    rewrite chunks_flat; [reflexivity |].
    apply Nat2Z.inj. rewrite Hl, Nat2Z.inj_mul, !Z2Nat.id by lia. lia.
Qed.

Lemma of_bytes_int (b : Z) (bs : list Byte.byte) :
  b mod 8 = 0 -> Z.of_nat (List.length bs) = b / 8 ->
  of_bytes (IntegerTy b) bs = Some (RInt b (decode_le bs)).
Proof.
  intros Hb Hl. cbn [of_bytes].
  rewrite Hl, Z.eqb_refl. rewrite (proj2 (Z.eqb_eq _ _) Hb). reflexivity.
Qed.

Lemma of_bytes_vec (b k : Z) (bs : list Byte.byte) :
  b mod 8 = 0 -> 0 < b -> Z.of_nat (List.length bs) = k * (b / 8) ->
  of_bytes (FixedVectorTy (IntegerTy b) k) bs =
    Some (RVec b (map decode_le (chunks (Z.to_nat (b / 8)) (Z.to_nat k) bs))).
Proof.
  intros Hb Hp Hl. cbn [of_bytes].
  rewrite Hl, Z.eqb_refl. rewrite (proj2 (Z.eqb_eq _ _) Hb).
  rewrite (proj2 (Z.ltb_lt _ _) Hp). reflexivity.
Qed.

Lemma storeSize_vec (b k : Z) :
  b mod 8 = 0 -> storeSize (FixedVectorTy (IntegerTy b) k) = k * (b / 8).
Proof.
  intros Hb. unfold storeSize. cbn [getPrimitiveSizeInBits].
  pose proof (Z.div_mod b 8).
  replace (k * b) with (k * (b / 8) * 8) by lia.
  apply Z.div_mul. lia.
Qed.

Lemma addressable_small (env : Env) (F : Function) (O : Z) :
  env_module env = fn_parent F ->
  0 <= O < 2 ^ getPointerSizeInBits (fn_parent F) ADDRESS_SPACE_A32 ->
  addressable env F O.
Proof.
  intros Hm HO regs LT. apply eval_sideBufferPtr; assumption.
Qed.

Lemma exec_aligned_scalar (env : Env) (regs : Regs) (F : Function) (O b : Z) (n : nat) :
  b mod 8 = 0 -> 0 < b ->
  addressable env F O ->
  let bs := sbBytes env O (b / 8) in
  exec env regs
    [ mkInst n (Load (sideBufferPtr F O (FixedVectorTy (IntegerTy b) 1)) (b / 8))
            (FixedVectorTy (IntegerTy b) 1);
      mkInst (S n) (Cast BitCast (VInst n (FixedVectorTy (IntegerTy b) 1))) (IntegerTy b) ] =
  Some ((S n, RInt b (decode_le bs)) :: (n, RVec b [decode_le bs]) :: regs).
Proof.
  intros Hb Hp HA bs.
  assert (HE : 0 < b / 8) by (pose proof (Z.div_mod b 8); lia).
  assert (Hlen : Z.of_nat (List.length bs) = b / 8).
  { unfold bs, sbBytes. rewrite load_bytes_length. lia. }
  cbn [exec eval_op inst_op inst_ty inst_id].
  rewrite HA.
  rewrite storeSize_vec by assumption. rewrite Z.mul_1_l. fold (sbBytes env O (b / 8)). fold bs.
  rewrite of_bytes_vec by (try assumption; lia).
  change (Z.to_nat 1) with 1%nat. cbn [chunks map].
  replace (firstn (Z.to_nat (b / 8)) bs) with bs
    by (symmetry; apply firstn_all2; lia).
  cbn [eval_value lookup]. rewrite Nat.eqb_refl.
  cbn [eval_cast bytes_of flat_map]. rewrite (proj2 (Z.eqb_eq _ _) Hb).
  rewrite app_nil_r.
  replace (Z.to_nat (b / 8)) with (List.length bs) by lia.
  rewrite encode_decode. rewrite of_bytes_int by assumption.
  reflexivity.
Qed.

Lemma exec_aligned_vector (env : Env) (regs : Regs) (F : Function) (O b k : Z) (n : nat) :
  b mod 8 = 0 -> 0 < b -> 0 <= k ->
  addressable env F O ->
  let bs := sbBytes env O (k * (b / 8)) in
  exec env regs
    [ mkInst n (Load (sideBufferPtr F O (FixedVectorTy (IntegerTy b) k)) (b / 8))
            (FixedVectorTy (IntegerTy b) k) ] =
  Some ((n, RVec b (map decode_le (chunks (Z.to_nat (b / 8)) (Z.to_nat k) bs))) :: regs).
Proof.
  intros Hb Hp Hk HA bs.
  assert (HE : 0 < b / 8) by (pose proof (Z.div_mod b 8); lia).
  assert (Hlen : Z.of_nat (List.length bs) = k * (b / 8)).
  { unfold bs, sbBytes. rewrite load_bytes_length. nia. }
  cbn [exec eval_op inst_op inst_ty inst_id].
  rewrite HA.
  rewrite storeSize_vec by assumption. fold (sbBytes env O (k * (b / 8))). fold bs.
  rewrite of_bytes_vec by assumption.
  reflexivity.
Qed.

Lemma addressable_0 (env : Env) (F : Function) : addressable env F 0.
Proof.
  intros regs LT. unfold sideBufferPtr.
  cbn [eval_value eval_const eval_cast AddrSpace_eqb].
  unfold wrap. rewrite !Zmod_0_l. reflexivity.
Qed.

Lemma exec_app (env : Env) (l1 l2 : list Instruction) (regs : Regs) :
  exec env regs (l1 ++ l2) =
    match exec env regs l1 with
    | Some regs' => exec env regs' l2
    | None => None
    end.
Proof.
  revert regs. induction l1 as [| i l1 IH]; intros regs; cbn [exec app].
  - reflexivity.
  - destruct (eval_op env regs (inst_op i) (inst_ty i)); [apply IH | reflexivity].
Qed.

(* ------------------------------------------------------------------ *)
(** ** The field loader on a misaligned offset *)

Lemma u32_double_even (z : Z) : exists q, u32 (z * 2) = 2 * q.
Proof.
  unfold u32. exists ((z * 2) mod 2 ^ 32 / 2).
  assert (H : ((z * 2) mod 2 ^ 32) mod 2 = 0).
  { change (2 ^ 32) with (2 * 2 ^ 31).
    rewrite Z.rem_mul_r by lia.
    replace (2 * ((z * 2 / 2) mod 2 ^ 31)) with ((z * 2 / 2) mod 2 ^ 31 * 2) by lia.
    rewrite Z.mod_add by lia. rewrite Z.mod_mod by lia.
    apply Z.mod_mul. lia. }
  pose proof (Z.div_mod ((z * 2) mod 2 ^ 32) 2). lia.
Qed.

(** On an offset that is not element-aligned the field loader builds no
    value: the loaded vector of twice the size is bitcast to the scalar
    type i8, which is no valid cast. *)
Lemma BuildLoadInst_misaligned (F : Function) (O : Z) (T : Ty) (st : IRBuilder) :
  0 < getScalarSizeInBits T ->
  O <> alignedOffset O T ->
  BuildLoadInst F O T st = Undefined.
Proof.
  intros Hpos Hmis. unfold BuildLoadInst.
  fold (elemByteSize T). fold (totalByteSize T). fold (alignedOffset O T).
  destruct (elemByteSize T =? 0) eqn:HE; [reflexivity |].
  apply Z.eqb_neq in HE.
  replace (O =? alignedOffset O T) with false by (symmetry; apply Z.eqb_neq; exact Hmis).
  cbn [negb].
  unfold bind, CreateIntToPtr, CreateBitCast, CreateCast, CreateLoad, setAlignment, getIntN,
    Insert, ret, valueOf, Int8Ty, Int32Ty.
  cbn [getType constType Ty_eqb castIsValid next_id inserted inst_id inst_ty andb
       AddrSpace_eqb].
  replace (Ty_eqb (IntegerTy 32)
             (FixedVectorTy (getScalarType T) (u32 (totalByteSize T * 2) / elemByteSize T)))
    with false by (destruct (getScalarType T); reflexivity).
  cbn [andb getPrimitiveSizeInBits].
  fold (getScalarSizeInBits T).
  replace (u32 (totalByteSize T * 2) / elemByteSize T * getScalarSizeInBits T =? 8)
    with false; [reflexivity |].
  symmetry. apply Z.eqb_neq. intros Heq.
  destruct (u32_double_even (totalByteSize T)) as [q Hq]. rewrite Hq in Heq.
  unfold elemByteSize in *.
  set (sb := getScalarSizeInBits T) in *.
  assert (Hsb : 8 <= sb).
  { destruct (Z_lt_le_dec sb 8) as [Hlt | Hge]; [| exact Hge].
    exfalso. apply HE. apply Z.div_small. lia. }
  assert (Hm : 0 <= 2 * q / (sb / 8)).
  { apply Z.div_pos.
    - rewrite <- Hq. unfold u32. apply Z.mod_pos_bound. lia.
    - apply Z.div_str_pos. lia. }
  set (m := 2 * q / (sb / 8)) in *.
  assert (Hm1 : m = 1).
  { assert (1 <= m) by nia. assert (m <= 1) by nia. lia. }
  assert (Hsb8 : sb = 8) by nia.
  unfold m in Hm1. rewrite Hsb8 in Hm1.
  change (8 / 8) with 1 in Hm1. rewrite Z.div_1_r in Hm1. lia.
Qed.

(** C2 fails at byte offset 2 with a 32-bit target: the offset is not
    4-aligned, and the field loader yields no value at all, so no bytes of
    the buffer are reconstructed. *)
Theorem BuildLoadInst_offset_2_i32 :
  alignedOffset 2 Int32Ty = 0 /\
  forall F st, BuildLoadInst F 2 Int32Ty st = Undefined.
Proof.
  split; [reflexivity |].
  intros F st. apply BuildLoadInst_misaligned.
  - reflexivity.
  - discriminate.
Qed.

(** X19.  On an element-aligned offset the field loader is one load of the
    S bytes at O, and the value it yields has exactly the bytes of the
    buffer at [O, O+S). *)
Lemma BuildLoadInst_aligned_roundtrip (env : Env) (regs : Regs) (F : Function)
    (O b k : Z) (T : Ty) (n : nat) :
  (T = IntegerTy b /\ k = 1) \/ (T = FixedVectorTy (IntegerTy b) k /\ 0 <= k) ->
  b mod 8 = 0 -> 0 < b -> b / 8 * k < 2 ^ 32 ->
  0 <= O < 2 ^ 32 -> O mod (b / 8) = 0 ->
  addressable env F O ->
  lowering_loads (BuildLoadInst F O T (mkBuilder n [])) =
    [wrap (getPointerSizeInBits (fn_parent F) ADDRESS_SPACE_A32) O] /\
  exists v,
    run_result env regs (BuildLoadInst F O T (mkBuilder n [])) = Some v /\
    bytes_of v = Some (sbBytes env O (b / 8 * k)).
Proof.
  intros HT Hb Hp Hs HO Hm HA.
  assert (HE : 0 < b / 8) by (pose proof (Z.div_mod b 8); lia).
  destruct HT as [[-> ->] | [-> Hk]].
  - rewrite BuildLoadInst_aligned_scalar by assumption.
    split; [reflexivity |].
    unfold run_result. cbn [inserted].
    rewrite exec_aligned_scalar by assumption.
    cbn [eval_value lookup]. rewrite Nat.eqb_refl.
    eexists. split; [reflexivity |].
    rewrite Z.mul_1_r.
    apply (of_bytes_bytes_of (IntegerTy b)).
    apply of_bytes_int; [assumption |].
    unfold sbBytes. rewrite load_bytes_length. lia.
  - rewrite BuildLoadInst_aligned_vector by assumption.
    split; [reflexivity |].
    unfold run_result. cbn [inserted].
    rewrite exec_aligned_vector by assumption.
    cbn [eval_value lookup]. rewrite Nat.eqb_refl.
    eexists. split; [reflexivity |].
    replace (b / 8 * k) with (k * (b / 8)) by lia.
    apply (of_bytes_bytes_of (FixedVectorTy (IntegerTy b) k)).
    apply of_bytes_vec; try assumption.
    unfold sbBytes. rewrite load_bytes_length. nia.
Qed.

(* ------------------------------------------------------------------ *)
(** ** WorkDim in a stack-call function *)

(** The instructions the stack-call branch of [getWorkDim] inserts. *)
Lemma getWorkDim_stack_built (this : WIFuncResolution) (F : Function)
    (CI : Instruction) (n : nat) :
  hasStackCallAttr F = true ->
  let LoadTy := FixedVectorTy Int32Ty 1 in
  getWorkDim this F CI (mkBuilder n []) =
    Ok (VInst (S (S n)) Int32Ty,
        mkBuilder (S (S (S n)))
          ([ mkInst n (Load (sideBufferPtr F 0 LoadTy) (32 / 8)) LoadTy;
             mkInst (S n) (Cast BitCast (VInst n LoadTy)) Int32Ty ] ++
           [ mkInst (S (S n)) (BinOp LShr (VInst (S n) Int32Ty) (VConst (ConstantInt 32 24)))
                    Int32Ty ])).
Proof.
  intros HS LoadTy. unfold getWorkDim. rewrite HS.
  change (GLOBAL_STATE_FIELD_OFFSETS.NUM_WORK_DIM / 4) with 0.
  unfold bind at 1. unfold Int32Ty.
  rewrite (BuildLoadInst_aligned_scalar F 0 32 n) by (vm_compute; intuition congruence).
  reflexivity.
Qed.

(** Their value: the first word of the side buffer shifted right by 24. *)
Lemma getWorkDim_stack_run (this : WIFuncResolution) (F : Function)
    (CI : Instruction) (n : nat) (env : Env) (regs : Regs) :
  hasStackCallAttr F = true ->
  run_result env regs (getWorkDim this F CI (mkBuilder n [])) =
    Some (RInt 32 (Z.shiftr (decode_le (sbBytes env 0 4)) 24)).
Proof.
  intros HS. rewrite (getWorkDim_stack_built this F CI n HS).
  unfold run_result. cbn [inserted].
  rewrite exec_app. unfold Int32Ty.
  rewrite (exec_aligned_scalar env regs F 0 32 n) by (try apply addressable_0; reflexivity).
  cbn [exec eval_op inst_op inst_ty inst_id eval_value lookup eval_const].
  rewrite !Nat.eqb_refl.
  change (eval_binop LShr (RInt 32 (decode_le (sbBytes env 0 (32 / 8)))) (RInt 32 24))
    with (Some (RInt 32 (Z.shiftr (decode_le (sbBytes env 0 4)) 24))).
  cbn [lookup]. rewrite Nat.eqb_refl. reflexivity.
Qed.

(** X21.  What that value is: the byte of the side buffer at the SIMDSIZE
    offset (3), the top byte of its first word. *)
Lemma getWorkDim_stack_value (this : WIFuncResolution) (F : Function) (CI : Instruction)
    (n : nat) (env : Env) (regs : Regs) :
  hasStackCallAttr F = true ->
  run_result env regs (getWorkDim this F CI (mkBuilder n [])) =
    Some (RInt 32 (Z_of_byte (env_mem env ADDRESS_SPACE_A32
                                      GLOBAL_STATE_FIELD_OFFSETS.SIMDSIZE))).
Proof.
  intros HS. rewrite (getWorkDim_stack_run this F CI n env regs HS).
  do 2 f_equal.
  change GLOBAL_STATE_FIELD_OFFSETS.SIMDSIZE with 3.
  unfold sbBytes, load_bytes. change (Z.to_nat 4) with 4%nat.
  cbn [seq map decode_le Z.of_nat Pos.of_succ_nat Pos.succ Z.add].
  set (m := env_mem env ADDRESS_SPACE_A32).
  pose proof (Z_of_byte_range (m 0)). pose proof (Z_of_byte_range (m 1)).
  pose proof (Z_of_byte_range (m 2)). pose proof (Z_of_byte_range (m 3)).
  rewrite Z.shiftr_div_pow2 by lia.
  symmetry.
  apply Z.div_unique
    with (r := Z_of_byte (m 0) + 256 * Z_of_byte (m 1) + 65536 * Z_of_byte (m 2)).
  - left. lia.
  - lia.
Qed.

(** C1.  In a function with the stack-call attribute the WorkDim query
    does not read the NUM_WORK_DIM field.  Its one load of the side buffer
    is at byte offset NUM_WORK_DIM / 4 = 0, not at the NUM_WORK_DIM offset
    (2), and the shift right by 24 bits keeps byte 3 of the buffer, the
    SIMDSIZE field.  On the side buffer of a three-dimensional dispatch at
    simd width 16 the lowering yields 16, not 3.  The arithmetic of the
    claim holds: for the raw word 0x05000000 the value is 5. *)
Theorem getWorkDim_stack_reads_SIMDSIZE :
  let CI := call 0 WIFuncsAnalysis.GET_WORK_DIM [] Int32Ty in
  let W := getWorkDim (samplePass []) (stackFn [CI]) CI (mkBuilder 1 []) in
  let field env O := Z_of_byte (env_mem env ADDRESS_SPACE_A32 O) in
  GLOBAL_STATE_FIELD_OFFSETS.NUM_WORK_DIM = 2 /\
  GLOBAL_STATE_FIELD_OFFSETS.SIMDSIZE = 3 /\
  lowering_loads W = [GLOBAL_STATE_FIELD_OFFSETS.NUM_WORK_DIM / 4] /\
  lowering_loads W = [0] /\
  field workDimEnv GLOBAL_STATE_FIELD_OFFSETS.NUM_WORK_DIM = 3 /\
  field workDimEnv GLOBAL_STATE_FIELD_OFFSETS.SIMDSIZE = 16 /\
  run_result workDimEnv [] W = Some (RInt 32 16) /\
  decode_le (sbBytes sampleEnv 0 4) = 0x05000000 /\
  run_result sampleEnv [] W = Some (RInt 32 5).
Proof.
  intros CI W field.
  assert (HB : W = Ok (VInst 3 Int32Ty,
                       mkBuilder 4
                         ([ mkInst 1 (Load (sideBufferPtr (stackFn [CI]) 0
                                              (FixedVectorTy Int32Ty 1)) (32 / 8))
                                   (FixedVectorTy Int32Ty 1);
                            mkInst 2 (Cast BitCast (VInst 1 (FixedVectorTy Int32Ty 1)))
                                   Int32Ty ] ++
                          [ mkInst 3 (BinOp LShr (VInst 2 Int32Ty) (VConst (ConstantInt 32 24)))
                                   Int32Ty ])))
    by exact (getWorkDim_stack_built (samplePass []) (stackFn [CI]) CI 1 eq_refl).
  assert (HR : forall env, run_result env [] W =
                           Some (RInt 32 (Z.shiftr (decode_le (sbBytes env 0 4)) 24)))
    by (intros env; exact (getWorkDim_stack_run (samplePass []) (stackFn [CI]) CI 1 env []
                             eq_refl)).
  split; [reflexivity |]. split; [reflexivity |].
  split; [rewrite HB; reflexivity |]. split; [rewrite HB; reflexivity |].
  split; [reflexivity |]. split; [reflexivity |].
  split; [rewrite HR; reflexivity |].
  split; [reflexivity |].
  rewrite HR. reflexivity.
Qed.

(* ------------------------------------------------------------------ *)
(** ** EnqueuedLocalSize and LocalSize in a stack-call function *)

(** C9.  In a function with the stack-call attribute the lowering of
    EnqueuedLocalSize(dim) is the lowering of LocalSize(dim): both load the
    same 3 x i32 vector at the LOCAL_SIZE offset of the side buffer and
    extract lane dim; the two handlers are equal in that mode. *)
Theorem getEnqueuedLocalSize_as_getLocalSize (this : WIFuncResolution)
    (F : Function) (CI : Instruction) (n : nat) (callee : Callee) (dim : Value)
    (args : list Value) :
  hasStackCallAttr F = true ->
  inst_op CI = Call callee (dim :: args) ->
  let LoadTy := FixedVectorTy Int32Ty 3 in
  let lowering :=
    Ok (VInst (S n) Int32Ty,
        mkBuilder (S (S n))
          [ mkInst n (Load (sideBufferPtr F GLOBAL_STATE_FIELD_OFFSETS.LOCAL_SIZE_X LoadTy) 4)
                   LoadTy;
            mkInst (S n) (ExtractElement (VInst n LoadTy) dim) Int32Ty ]) in
  getEnqueuedLocalSize this F CI (mkBuilder n []) = lowering /\
  getLocalSize this F CI (mkBuilder n []) = lowering /\
  (forall st, getEnqueuedLocalSize this F CI st = getLocalSize this F CI st).
Proof.
  intros HS HCI LoadTy lowering.
  assert (HL : getLocalSize this F CI (mkBuilder n []) = lowering).
  { unfold getLocalSize, lowering, LoadTy. rewrite HS.
    unfold bind at 1. unfold bind at 1. unfold Int32Ty.
    rewrite (BuildLoadInst_aligned_vector F GLOBAL_STATE_FIELD_OFFSETS.LOCAL_SIZE_X 32 3 n)
      by (vm_compute; intuition congruence).
    unfold ret at 1. unfold bind, getArgOperand. rewrite HCI.
    reflexivity. }
  assert (HE : forall st, getEnqueuedLocalSize this F CI st = getLocalSize this F CI st).
  { intros st. unfold getEnqueuedLocalSize, getLocalSize. rewrite HS. reflexivity. }
  split; [rewrite HE; exact HL |].
  split; [exact HL | exact HE].
Qed.

Lemma getEnqueuedLocalSize_as_getLocalSize_witness :
  getEnqueuedLocalSize (samplePass []) (stackFn [])
    (call 0 WIFuncsAnalysis.GET_ENQUEUED_LOCAL_SIZE [VArg 0 Int32Ty] Int32Ty)
    (mkBuilder 1 []) =
  getLocalSize (samplePass []) (stackFn [])
    (call 0 WIFuncsAnalysis.GET_ENQUEUED_LOCAL_SIZE [VArg 0 Int32Ty] Int32Ty)
    (mkBuilder 1 []).
Proof.
  destruct (getEnqueuedLocalSize_as_getLocalSize (samplePass []) (stackFn [])
              (call 0 WIFuncsAnalysis.GET_ENQUEUED_LOCAL_SIZE [VArg 0 Int32Ty] Int32Ty)
              1 _ _ _ eq_refl eq_refl) as [_ [_ H]].
  apply H.
Defined.

(* ------------------------------------------------------------------ *)
(** ** Queries that only know the hidden argument *)

(** C10.  StageInGridOrigin(dim) and SyncBufferPointer resolve through
    their hidden arguments whatever the function's attributes are: in a
    function with the stack-call attribute the handlers still return the
    hidden parameter (its lane dim for the grid origin), load nothing from
    the side buffer and raise no error; changing the attributes never
    changes their result. *)
Theorem stageInGridOrigin_syncBuffer_ignore_mode (this : WIFuncResolution)
    (F : Function) (CI : Instruction) (n : nat) (callee : Callee) (dim : Value)
    (args : list Value) (e : Ty) (w : Z) :
  let P := arg_size F in
  let N := ImplicitArgs.size (m_implicitArgs this) in
  let i := ImplicitArgs.getArgIndex (m_implicitArgs this) STAGE_IN_GRID_ORIGIN in
  let j := ImplicitArgs.getArgIndex (m_implicitArgs this) SYNC_BUFFER in
  hasStackCallAttr F = true ->
  inst_op CI = Call callee (dim :: args) ->
  P < 2 ^ 32 -> N <= P -> i < N -> j < N ->
  nth_error (fn_args F) (Z.to_nat (P - N + i)) = Some (FixedVectorTy e w) ->
  let origin := VArg (Z.to_nat (P - N + i)) (FixedVectorTy e w) in
  getStageInGridOrigin this F CI (mkBuilder n []) =
    Ok (VInst n e, mkBuilder (S n) [mkInst n (ExtractElement origin dim) e]) /\
  (exists t, nth_error (fn_args F) (Z.to_nat (P - N + j)) = Some t /\
             getSyncBufferPtr this F CI (mkBuilder n []) =
               Ok (VArg (Z.to_nat (P - N + j)) t, mkBuilder n [])) /\
  lowering_loads (getStageInGridOrigin this F CI (mkBuilder n [])) = [] /\
  lowering_loads (getSyncBufferPtr this F CI (mkBuilder n [])) = [] /\
  (forall attrs st,
     getStageInGridOrigin this (set_attrs F attrs) CI st = getStageInGridOrigin this F CI st /\
     getSyncBufferPtr this (set_attrs F attrs) CI st = getSyncBufferPtr this F CI st).
Proof.
  intros P N i j HS HCI HP HNP Hi Hj Hnth origin.
  destruct (getImplicitArg_ok this F STAGE_IN_GRID_ORIGIN (mkBuilder n []) HP HNP Hi)
    as [t1 [Hn1 He1]].
  fold P N i in Hn1, He1. rewrite Hnth in Hn1. injection Hn1 as <-.
  destruct (getImplicitArg_ok this F SYNC_BUFFER (mkBuilder n []) HP HNP Hj)
    as [t2 [Hn2 He2]].
  fold P N j in Hn2, He2.
  assert (HO : getStageInGridOrigin this F CI (mkBuilder n []) =
               Ok (VInst n e, mkBuilder (S n) [mkInst n (ExtractElement origin dim) e])).
  { unfold getStageInGridOrigin. unfold bind at 1. rewrite He1.
    unfold bind, getArgOperand. rewrite HCI. reflexivity. }
  assert (HB : getSyncBufferPtr this F CI (mkBuilder n []) =
               Ok (VArg (Z.to_nat (P - N + j)) t2, mkBuilder n [])).
  { unfold getSyncBufferPtr. unfold bind at 1. rewrite He2. reflexivity. }
  split; [exact HO |].
  split; [exists t2; split; assumption |].
  split; [rewrite HO; reflexivity |].
  split; [rewrite HB; reflexivity |].
  intros attrs st. split; reflexivity.
Qed.

Lemma stageInGridOrigin_syncBuffer_ignore_mode_witness :
  getStageInGridOrigin (samplePass [STAGE_IN_GRID_ORIGIN; SYNC_BUFFER])
    (set_attrs (kernelFn [FixedVectorTy Int32Ty 3; PointerTy Int8Ty ADDRESS_SPACE_0] [])
               ["visaStackCall"%string])
    (call 0 WIFuncsAnalysis.GET_STAGE_IN_GRID_ORIGIN [VConst (ConstantInt 32 1)] Int32Ty)
    (mkBuilder 1 []) =
  Ok (VInst 1 Int32Ty,
      mkBuilder 2 [mkInst 1 (ExtractElement (VArg 2 (FixedVectorTy Int32Ty 3))
                                            (VConst (ConstantInt 32 1))) Int32Ty]).
Proof.
  destruct (stageInGridOrigin_syncBuffer_ignore_mode
              (samplePass [STAGE_IN_GRID_ORIGIN; SYNC_BUFFER])
              (set_attrs (kernelFn [FixedVectorTy Int32Ty 3; PointerTy Int8Ty ADDRESS_SPACE_0] [])
                         ["visaStackCall"%string])
              (call 0 WIFuncsAnalysis.GET_STAGE_IN_GRID_ORIGIN [VConst (ConstantInt 32 1)] Int32Ty)
              1 _ _ _ Int32Ty 3 eq_refl eq_refl) as [H _];
    [ vm_compute; reflexivity | vm_compute; discriminate | vm_compute; reflexivity
    | vm_compute; reflexivity | vm_compute; reflexivity | ].
  exact H.
Defined.

(* ------------------------------------------------------------------ *)
(** ** Replacing the uses of a value *)

Lemma replaceAllUsesWith_typed (old new : Value) (body : list Instruction) :
  getType new = getType old ->
  replaceAllUsesWith old new body = Ok (substUses old new body).
Proof. intros H. unfold replaceAllUsesWith. rewrite H, Ty_eqb_refl. reflexivity. Qed.

Lemma replaceAllUsesWith_mistyped (old new : Value) (body : list Instruction) :
  getType new <> getType old -> replaceAllUsesWith old new body = Undefined.
Proof.
  intros H. unfold replaceAllUsesWith.
  destruct (Ty_eqb (getType new) (getType old)) eqn:E; [| reflexivity].
  exfalso. apply H. apply Ty_eqb_eq. exact E.
Qed.

Lemma replaceAllUsesWith_ok (old new : Value) (body body' : list Instruction) :
  replaceAllUsesWith old new body = Ok body' ->
  getType new = getType old /\ body' = substUses old new body.
Proof.
  unfold replaceAllUsesWith.
  destruct (Ty_eqb (getType new) (getType old)) eqn:E; [| discriminate].
  intros H. injection H as <-. split; [apply Ty_eqb_eq; exact E | reflexivity].
Qed.

Lemma rewire_typed (F : Function) (CI : Instruction) (w : Value) (new : list Instruction) :
  getType w = inst_ty CI -> rewire F CI w new = Ok (rewired F CI w new).
Proof.
  intros H. unfold rewire. cbv zeta.
  rewrite replaceAllUsesWith_typed by exact H. reflexivity.
Qed.

Lemma rewire_mistyped (F : Function) (CI : Instruction) (w : Value)
    (new : list Instruction) :
  getType w <> inst_ty CI -> rewire F CI w new = Undefined.
Proof.
  intros H. unfold rewire. cbv zeta.
  rewrite replaceAllUsesWith_mistyped by exact H. reflexivity.
Qed.

Lemma rewire_ok (F F' : Function) (CI : Instruction) (w : Value) (new : list Instruction) :
  rewire F CI w new = Ok F' -> getType w = inst_ty CI /\ F' = rewired F CI w new.
Proof.
  unfold rewire. cbv zeta.
  destruct (replaceAllUsesWith (valueOf CI) w (insertBefore CI new (fn_body F)))
    as [body | |] eqn:E; try discriminate.
  apply replaceAllUsesWith_ok in E. destruct E as [Ht ->].
  intros H. injection H as <-. split; [exact Ht | reflexivity].
Qed.

Lemma rewire_never_fatal (F : Function) (CI : Instruction) (w : Value)
    (new : list Instruction) (msg : string) :
  rewire F CI w new <> Fatal msg.
Proof.
  unfold rewire, replaceAllUsesWith. cbv zeta.
  destruct (Ty_eqb (getType w) (getType (valueOf CI))); discriminate.
Qed.

(* ------------------------------------------------------------------ *)
(** ** The driver: width adaptation *)

Lemma visitCallInst_recognised (this : WIFuncResolution) (F : Function)
    (CI : Instruction) (funcName : string) (args : list Value) (handler : M Value) :
  inst_op CI = Call (NamedFunction funcName) args ->
  resolveCall this F CI funcName = Some handler ->
  visitCallInst this F CI =
    match (wiRes <- handler ;; adaptWidth CI wiRes) (mkBuilder (freshId F) []) with
    | Ok (wiRes, B) =>
        match rewire F CI wiRes (inserted B) with
        | Ok F' => Ok (set_changed this true, F')
        | Fatal msg => Fatal msg
        | Undefined => Undefined
        end
    | Fatal msg => Fatal msg
    | Undefined => Undefined
    end.
Proof.
  intros HCI HR. unfold visitCallInst. rewrite HCI, HR. reflexivity.
Qed.

Lemma adaptWidth_narrow (CI : Instruction) (V : Value) (a : Z) (B : IRBuilder) :
  getType V = IntegerTy a ->
  a < getScalarSizeInBits (inst_ty CI) ->
  adaptWidth CI V B =
    Ok (VInst (next_id B) (IntegerTy (getScalarSizeInBits (inst_ty CI))),
        mkBuilder (S (next_id B))
          (inserted B ++
           [mkInst (next_id B) (Cast ZExt V) (IntegerTy (getScalarSizeInBits (inst_ty CI)))])).
Proof.
  intros HT Hlt. unfold adaptWidth. rewrite HT.
  cbn [getScalarSizeInBits getScalarType getPrimitiveSizeInBits].
  rewrite (proj2 (Z.ltb_lt _ _) Hlt).
  unfold bind, CastInst_Create. rewrite HT. cbn [castIsValid].
  rewrite (proj2 (Z.ltb_lt _ _) Hlt). reflexivity.
Qed.

Lemma adaptWidth_wide (CI : Instruction) (V : Value) (B : IRBuilder) :
  getScalarSizeInBits (inst_ty CI) <= getScalarSizeInBits (getType V) ->
  adaptWidth CI V B = Ok (V, B).
Proof.
  intros Hge. unfold adaptWidth.
  replace (getScalarSizeInBits (getType V) <? getScalarSizeInBits (inst_ty CI)) with false
    by (symmetry; apply Z.ltb_ge; exact Hge).
  reflexivity.
Qed.

(** C5.  For a recognised query call whose handler yields V: when V's
    scalar width is smaller than the call's, the lowering inserts exactly
    one zero-extension of V to the call's width, the extended value has the
    same unsigned value as V (upper bits zero), and the driver rewires the
    uses of the call (an integer of that width) to it; when V's width is at
    least the call's, no cast is inserted and the lowering yields V itself,
    never a truncation or a sign extension: V is rewired when it has the
    type of the call, and a V of another type (a strictly wider one) cannot
    replace the call, the rewriting is then not defined. *)
Theorem visitCallInst_width_adaptation (this : WIFuncResolution) (F : Function)
    (CI : Instruction) (funcName : string) (args : list Value) (handler : M Value)
    (V : Value) (B : IRBuilder) :
  inst_op CI = Call (NamedFunction funcName) args ->
  resolveCall this F CI funcName = Some handler ->
  handler (mkBuilder (freshId F) []) = Ok (V, B) ->
  let c := getScalarSizeInBits (inst_ty CI) in
  let zext := mkInst (next_id B) (Cast ZExt V) (IntegerTy c) in
  let lowering := (wiRes <- handler ;; adaptWidth CI wiRes) (mkBuilder (freshId F) []) in
  (forall a, getType V = IntegerTy a -> a < c ->
     lowering = Ok (valueOf zext, mkBuilder (S (next_id B)) (inserted B ++ [zext])) /\
     (inst_ty CI = IntegerTy c ->
      visitCallInst this F CI =
        Ok (set_changed this true, rewired F CI (valueOf zext) (inserted B ++ [zext]))) /\
     forall env regs v,
       eval_value env regs V = Some (RInt a v) ->
       eval_op env regs (inst_op zext) (inst_ty zext) = Some (RInt c v)) /\
  (c <= getScalarSizeInBits (getType V) ->
     lowering = Ok (V, B) /\
     (getType V = inst_ty CI ->
      visitCallInst this F CI = Ok (set_changed this true, rewired F CI V (inserted B))) /\
     (getType V <> inst_ty CI -> visitCallInst this F CI = Undefined)).
Proof.
  intros HCI HR HH c zext lowering. split.
  - intros a HT Hlt.
    assert (HL : lowering =
                 Ok (valueOf zext, mkBuilder (S (next_id B)) (inserted B ++ [zext]))).
    { unfold lowering. unfold bind at 1. rewrite HH.
      rewrite (adaptWidth_narrow CI V a B HT Hlt). reflexivity. }
    split; [exact HL |]. split.
    + intros HTy.
      rewrite (visitCallInst_recognised this F CI funcName args handler HCI HR).
      fold lowering. rewrite HL. cbn [inserted].
      rewrite rewire_typed by (symmetry; exact HTy). reflexivity.
    + intros env regs v Hv. unfold zext. cbn [eval_op inst_op inst_ty].
      rewrite Hv. cbn [eval_cast]. fold c.
      rewrite (proj2 (Z.ltb_lt _ _) Hlt). reflexivity.
  - intros Hge.
    assert (HL : lowering = Ok (V, B)).
    { unfold lowering. unfold bind at 1. rewrite HH.
      rewrite (adaptWidth_wide CI V B Hge). reflexivity. }
    split; [exact HL |]. split.
    + intros HTy.
      rewrite (visitCallInst_recognised this F CI funcName args handler HCI HR).
      fold lowering. rewrite HL.
      rewrite rewire_typed by exact HTy. reflexivity.
    + intros HTy.
      rewrite (visitCallInst_recognised this F CI funcName args handler HCI HR).
      fold lowering. rewrite HL.
      rewrite rewire_mistyped by exact HTy. reflexivity.
Qed.

(** A 16-bit local id 0x8001 feeding a call declared to return 64 bits. *)
Lemma visitCallInst_width_adaptation_witness :
  let F := kernelFn [Int16Ty]
             [call 0 WIFuncsAnalysis.GET_LOCAL_ID_X [] Int64Ty;
              mkInst 1 (OtherInst [VInst 0 Int64Ty]) Int64Ty] in
  let zext := mkInst 2 (Cast ZExt (VArg 2 Int16Ty)) Int64Ty in
  visitCallInst (samplePass [LOCAL_ID_X]) F
    (call 0 WIFuncsAnalysis.GET_LOCAL_ID_X [] Int64Ty) =
    Ok (samplePass_changed [LOCAL_ID_X],
        set_body F [zext; mkInst 1 (OtherInst [VInst 2 Int64Ty]) Int64Ty]) /\
  eval_op (mkEnv sampleModule (fun _ _ => Byte.x00) 16 [] 0
                 [RInt 32 0; RInt 32 0; RInt 16 0x8001]) []
          (inst_op zext) (inst_ty zext) = Some (RInt 64 0x8001).
Proof.
  intros F zext.
  destruct (visitCallInst_width_adaptation (samplePass [LOCAL_ID_X]) F
              (call 0 WIFuncsAnalysis.GET_LOCAL_ID_X [] Int64Ty)
              WIFuncsAnalysis.GET_LOCAL_ID_X [] _ (VArg 2 Int16Ty) (mkBuilder 2 [])
              eq_refl eq_refl eq_refl) as [H _].
  destruct (H 16 eq_refl eq_refl) as [_ [H1 H2]].
  split.
  - exact (H1 eq_refl).
  - apply H2. reflexivity.
Defined.

(* ------------------------------------------------------------------ *)
(** ** The driver: known work-group size *)

Lemma visitCallInst_implicitArgs (this this' : WIFuncResolution) (F F' : Function)
    (CI : Instruction) :
  visitCallInst this F CI = Ok (this', F') ->
  m_implicitArgs this' = m_implicitArgs this.
Proof.
  unfold visitCallInst.
  destruct (inst_op CI) as [[| funcName |] args | | | | | | | |];
    try (intros H; injection H as <- <-; reflexivity).
  destruct (resolveCall this F CI funcName) as [handler |];
    [| intros H; injection H as <- <-; reflexivity].
  destruct ((wiRes <- handler;; adaptWidth CI wiRes) (mkBuilder (freshId F) []))
    as [[wiRes B] | |]; try discriminate.
  destruct (rewire F CI wiRes (inserted B)) as [F1 | |]; try discriminate.
  intros H. injection H as <- <-. reflexivity.
Qed.

Lemma visitAll_implicitArgs (ids : list nat) (this this' : WIFuncResolution)
    (F F' : Function) :
  visitAll ids this F = Ok (this', F') ->
  m_implicitArgs this' = m_implicitArgs this.
Proof.
  revert this F. induction ids as [| id ids IH]; intros this F; cbn [visitAll].
  - intros H. injection H as <- <-. reflexivity.
  - destruct (find (fun I => Nat.eqb (inst_id I) id) (fn_body F)) as [CI |].
    + destruct (visitCallInst this F CI) as [[this1 F1] | |] eqn:HV; try discriminate.
      intros H. apply IH in H. rewrite H.
      apply (visitCallInst_implicitArgs _ _ _ _ _ HV).
    + apply IH.
Qed.

(** The hidden argument the metadata lookup returns is a formal
    parameter. *)
Lemma ImplicitArgs_getImplicitArg_is_arg (ia : ImplicitArgs.t) (F : Function)
    (k : ArgType) (a : Value) :
  ImplicitArgs_getImplicitArg ia F k = Ok (Some a) -> exists m t, a = VArg m t.
Proof.
  unfold ImplicitArgs_getImplicitArg, arg_at.
  destruct (negb (ImplicitArgs.isImplicitArgExist ia k)); [discriminate |].
  match goal with |- context [nth_error ?l ?m] => destruct (nth_error l m) as [t |] eqn:E end;
    [| discriminate].
  intros H. injection H as <-. eauto.
Qed.

(** After [substUses] of a parameter by a constant no instruction
    uses the parameter. *)
Lemma substValue_arg_gone (m : nat) (t : Ty) (c : Constant) (x : Value) :
  Value_eqb (substValue (VArg m t) (VConst c) x) (VArg m t) = false.
Proof.
  unfold substValue. destruct (Value_eqb x (VArg m t)) eqn:E.
  - reflexivity.
  - exact E.
Qed.

Lemma existsb_map_false {A B : Type} (f : A -> B) (p : B -> bool) (l : list A) :
  (forall x, p (f x) = false) -> existsb p (map f l) = false.
Proof.
  intros H. induction l as [| x l IH]; cbn [map existsb].
  - reflexivity.
  - rewrite H, IH. reflexivity.
Qed.

Lemma substUses_no_use (m : nat) (t : Ty) (c : Constant)
    (body : list Instruction) (i : Instruction) :
  In i (substUses (VArg m t) (VConst c) body) ->
  uses (VArg m t) i = false.
Proof.
  unfold substUses. intros Hin. apply in_map_iff in Hin.
  destruct Hin as [i0 [<- _]].
  unfold uses. cbn [inst_op].
  pose proof (substValue_arg_gone m t c) as Hs.
  destruct (inst_op i0); cbn [substOpcode operands existsb];
    rewrite ?Hs; try reflexivity.
  - apply existsb_map_false. exact Hs.
  - apply existsb_map_false. exact Hs.
Qed.

(** C7.  After all call sites are visited: when the function has
    compile-time group dimensions and its ENQUEUED_LOCAL_WORK_SIZE hidden
    argument is present, every use of that argument, a vector of three
    32-bit integers, is replaced by the constant vector of those dimensions
    and none is left (a parameter of another type cannot be replaced by
    that constant: the pass has then no defined result); when there are no
    such dimensions, or the argument is absent, the function is as the
    visit left it. *)
Theorem known_work_group_size_substitution (ctx : CodeGenContext)
    (MD : MetaDataUtils) (F F1 : Function) (this1 : WIFuncResolution) :
  visit (mkPass (md_implicitArgs MD) false ctx) F = Ok (this1, F1) ->
  (forall x y z Arg,
     md_threadGroupDims MD = Some (x, y, z) ->
     ImplicitArgs_getImplicitArg (md_implicitArgs MD) F1 ENQUEUED_LOCAL_WORK_SIZE
       = Ok (Some Arg) ->
     let K := VConst (ConstantDataVector 32 [x; y; z]) in
     (getType Arg = FixedVectorTy Int32Ty 3 ->
      runOnFunction ctx MD F =
        Ok (m_changed this1, set_body F1 (substUses Arg K (fn_body F1)))) /\
     (getType Arg <> FixedVectorTy Int32Ty 3 -> runOnFunction ctx MD F = Undefined) /\
     (forall i, In i (substUses Arg K (fn_body F1)) -> uses Arg i = false)) /\
  (md_threadGroupDims MD = None \/
   ImplicitArgs_getImplicitArg (md_implicitArgs MD) F1 ENQUEUED_LOCAL_WORK_SIZE = Ok None ->
   runOnFunction ctx MD F = Ok (m_changed this1, F1)).
Proof.
  intros HV.
  assert (HIA : m_implicitArgs this1 = md_implicitArgs MD).
  { unfold visit in HV. apply visitAll_implicitArgs in HV. exact HV. }
  split.
  - intros x y z Arg HD HA K. split; [| split].
    + intros HT. unfold runOnFunction. rewrite HV. unfold getKnownWorkGroupSize.
      rewrite HD, HIA, HA.
      rewrite replaceAllUsesWith_typed by (symmetry; exact HT). reflexivity.
    + intros HT. unfold runOnFunction. rewrite HV. unfold getKnownWorkGroupSize.
      rewrite HD, HIA, HA.
      rewrite replaceAllUsesWith_mistyped by (intros E; apply HT; symmetry; exact E).
      reflexivity.
    + destruct (ImplicitArgs_getImplicitArg_is_arg _ _ _ _ HA) as [m [t ->]].
      intros i. apply substUses_no_use.
  - intros [HD | HA]; unfold runOnFunction; rewrite HV; unfold getKnownWorkGroupSize.
    + rewrite HD. reflexivity.
    + destruct (md_threadGroupDims MD) as [[[x y] z] |]; [| reflexivity].
      rewrite HIA, HA. reflexivity.
Qed.

(** A kernel of fixed group dimensions (8,1,1) that asks for the enqueued
    local size of dimension 0. *)
Lemma known_work_group_size_substitution_witness :
  let V3 := FixedVectorTy Int32Ty 3 in
  let zero := VConst (ConstantInt 32 0) in
  let F := kernelFn [V3]
             [call 0 WIFuncsAnalysis.GET_ENQUEUED_LOCAL_SIZE [zero] Int32Ty;
              mkInst 1 (OtherInst [VInst 0 Int32Ty]) Int32Ty] in
  runOnFunction (mkCtx 32) (mkMD [ENQUEUED_LOCAL_WORK_SIZE] (Some (8, 1, 1))) F =
    Ok (true,
        set_body F
          [mkInst 2 (ExtractElement (VConst (ConstantDataVector 32 [8; 1; 1])) zero) Int32Ty;
           mkInst 1 (OtherInst [VInst 2 Int32Ty]) Int32Ty]) /\
  runOnFunction (mkCtx 32) (mkMD [ENQUEUED_LOCAL_WORK_SIZE] None) F =
    Ok (true,
        set_body F
          [mkInst 2 (ExtractElement (VArg 2 V3) zero) Int32Ty;
           mkInst 1 (OtherInst [VInst 2 Int32Ty]) Int32Ty]).
Proof.
  intros V3 zero F. split.
  - destruct (known_work_group_size_substitution (mkCtx 32)
                (mkMD [ENQUEUED_LOCAL_WORK_SIZE] (Some (8, 1, 1))) F
                (set_body F
                   [mkInst 2 (ExtractElement (VArg 2 V3) zero) Int32Ty;
                    mkInst 1 (OtherInst [VInst 2 Int32Ty]) Int32Ty])
                (samplePass_changed [ENQUEUED_LOCAL_WORK_SIZE]) eq_refl) as [H _].
    destruct (H 8 1 1 (VArg 2 V3) eq_refl eq_refl) as [H1 _].
    exact (H1 eq_refl).
  - destruct (known_work_group_size_substitution (mkCtx 32)
                (mkMD [ENQUEUED_LOCAL_WORK_SIZE] None) F
                (set_body F
                   [mkInst 2 (ExtractElement (VArg 2 V3) zero) Int32Ty;
                    mkInst 1 (OtherInst [VInst 2 Int32Ty]) Int32Ty])
                (samplePass_changed [ENQUEUED_LOCAL_WORK_SIZE]) eq_refl) as [_ H].
    apply H. left. reflexivity.
Defined.

(* ------------------------------------------------------------------ *)
(** ** The driver: the value returned *)

(** C8 fails on this function: it has fixed group dimensions (8,1,1), its
    only instruction uses the ENQUEUED_LOCAL_WORK_SIZE hidden argument and it
    calls no query.  The pass replaces the use by the constant vector, so
    the function is modified, and returns false. *)
Theorem runOnFunction_unreported_change :
  let V3 := FixedVectorTy Int32Ty 3 in
  let zero := VConst (ConstantInt 32 0) in
  let F := kernelFn [V3] [mkInst 0 (ExtractElement (VArg 2 V3) zero) Int32Ty] in
  let F' := set_body F
              [mkInst 0 (ExtractElement (VConst (ConstantDataVector 32 [8; 1; 1])) zero)
                      Int32Ty] in
  runOnFunction (mkCtx 32) (mkMD [ENQUEUED_LOCAL_WORK_SIZE] (Some (8, 1, 1))) F
    = Ok (false, F') /\
  fn_body F' <> fn_body F.
Proof.
  intros V3 zero F F'. split.
  - reflexivity.
  - cbn. discriminate.
Qed.

(* ------------------------------------------------------------------ *)
(** ** Stepping through what the builder inserts and what it means *)

Section BuilderSteps.

(** The builder is at instruction number [k] and has inserted [l]. *)
Variables (k : nat) (l : list Instruction).

Lemma Insert_eq (op : Opcode) (t : Ty) :
  Insert op t (mkBuilder k l) =
    Ok (VInst k t, mkBuilder (S k) (l ++ [mkInst k op t])).
Proof. reflexivity. Qed.

Lemma CreateCall_eq (id : GenISA_ID) (t : Ty) :
  CreateCall id t (mkBuilder k l) =
    Ok (VInst k t, mkBuilder (S k) (l ++ [mkInst k (Call (GenISAIntrinsic id) []) t])).
Proof. reflexivity. Qed.

Lemma CreateBinOp_eq (op : BinaryOp) (a b : Value) :
  Ty_eqb (getType a) (getType b) = true ->
  CreateBinOp op a b (mkBuilder k l) =
    Ok (VInst k (getType a), mkBuilder (S k) (l ++ [mkInst k (BinOp op a b) (getType a)])).
Proof. intros H. unfold CreateBinOp. rewrite H. reflexivity. Qed.

Lemma CreateICmp_eq (p : Predicate) (a b : Value) :
  Ty_eqb (getType a) (getType b) = true ->
  CreateICmp p a b (mkBuilder k l) =
    Ok (VInst k (IntegerTy 1), mkBuilder (S k) (l ++ [mkInst k (ICmp p a b) (IntegerTy 1)])).
Proof. intros H. unfold CreateICmp. rewrite H. reflexivity. Qed.

Lemma CreateSelect_eq (c a b : Value) :
  Ty_eqb (getType a) (getType b) = true ->
  CreateSelect c a b (mkBuilder k l) =
    Ok (VInst k (getType a), mkBuilder (S k) (l ++ [mkInst k (Select c a b) (getType a)])).
Proof. intros H. unfold CreateSelect. rewrite H. reflexivity. Qed.

Lemma CreateExtractElement_eq (vec idx : Value) (e : Ty) (w : Z) :
  getType vec = FixedVectorTy e w ->
  CreateExtractElement vec idx (mkBuilder k l) =
    Ok (VInst k e, mkBuilder (S k) (l ++ [mkInst k (ExtractElement vec idx) e])).
Proof. intros H. unfold CreateExtractElement. rewrite H. reflexivity. Qed.

Lemma CreateCast_same (op : CastOp) (v : Value) (t : Ty) :
  Ty_eqb (getType v) t = true ->
  CreateCast op v t (mkBuilder k l) = Ok (v, mkBuilder k l).
Proof. intros H. unfold CreateCast. rewrite H. reflexivity. Qed.

Lemma CreateCast_inst (op : CastOp) (id : nat) (s t : Ty) :
  Ty_eqb s t = false -> castIsValid op s t = true ->
  CreateCast op (VInst id s) t (mkBuilder k l) =
    Ok (VInst k t, mkBuilder (S k) (l ++ [mkInst k (Cast op (VInst id s)) t])).
Proof.
  intros H1 H2. unfold CreateCast. cbn [getType]. rewrite H1, H2. reflexivity.
Qed.

Lemma CreateLoad_eq (ptr : Value) (p : Ty) (a : AddrSpace) :
  getType ptr = PointerTy p a ->
  CreateLoad ptr (mkBuilder k l) =
    Ok (VInst k p, mkBuilder (S k) (l ++ [mkInst k (Load ptr 0) p])).
Proof. intros H. unfold CreateLoad. rewrite H. reflexivity. Qed.

End BuilderSteps.

Ltac bstep :=
  unfold bind at 1;
  first [ rewrite CreateCall_eq
        | rewrite CreateBinOp_eq by reflexivity
        | rewrite CreateICmp_eq by reflexivity
        | rewrite CreateSelect_eq by reflexivity
        | erewrite CreateExtractElement_eq by reflexivity
        | rewrite CreateCast_same by reflexivity
        | rewrite CreateCast_inst by reflexivity
        | erewrite CreateLoad_eq by reflexivity ];
  cbv beta iota; cbn [getType app].

Lemma exec_cons (env : Env) (regs : Regs) (i : Instruction) (rest : list Instruction)
    (v : RtVal) :
  eval_op env regs (inst_op i) (inst_ty i) = Some v ->
  exec env regs (i :: rest) = exec env ((inst_id i, v) :: regs) rest.
Proof. intros H. cbn [exec]. rewrite H. reflexivity. Qed.

Lemma eval_add (w x y : Z) :
  eval_binop Add (RInt w x) (RInt w y) = Some (RInt w (wrap w (x + y))).
Proof. cbn [eval_binop]. rewrite Z.eqb_refl. reflexivity. Qed.

Lemma eval_mul (w x y : Z) :
  eval_binop Mul (RInt w x) (RInt w y) = Some (RInt w (wrap w (x * y))).
Proof. cbn [eval_binop]. rewrite Z.eqb_refl. reflexivity. Qed.

Ltac eqb_solve :=
  repeat match goal with
         | |- context [Nat.eqb ?a ?b] =>
             first [ replace (Nat.eqb a b) with true by (symmetry; apply Nat.eqb_eq; lia)
                   | replace (Nat.eqb a b) with false by (symmetry; apply Nat.eqb_neq; lia) ]
         end.

Lemma eval_icmp_sgt (w x y : Z) :
  eval_icmp ICMP_SGT (RInt w x) (RInt w y) =
    Some (RInt 1 (if signed w x >? signed w y then 1 else 0)).
Proof. cbn [eval_icmp]. rewrite Z.eqb_refl. reflexivity. Qed.

Lemma eval_zext (Mod : Module) (b b' z : Z) :
  b < b' -> eval_cast Mod ZExt (RInt b z) (IntegerTy b') = Some (RInt b' z).
Proof. intros H. cbn [eval_cast]. rewrite (proj2 (Z.ltb_lt _ _) H). reflexivity. Qed.

(** Reduce the register lookups of the goal. *)
Ltac look := unfold reg; cbn [eval_value eval_const lookup]; eqb_solve; cbv iota.

Ltac xstep :=
  erewrite exec_cons;
  [| cbn [inst_op inst_ty inst_id eval_op]; look;
     rewrite ?eval_add, ?eval_mul, ?eval_icmp_sgt;
     rewrite ?eval_zext by lia;
     reflexivity ];
  cbn [inst_id].


(* ------------------------------------------------------------------ *)
(** ** GroupId *)

Lemma eval_value_push (env : Env) (regs : Regs) (j : nat) (x : RtVal) (v : Value) (k : nat) :
  older k v -> (k <= j)%nat ->
  eval_value env ((j, x) :: regs) v = eval_value env regs v.
Proof.
  intros Ho Hle. destruct v as [id t | m t | c]; cbn [eval_value lookup]; try reflexivity.
  cbn [older] in Ho.
  replace (Nat.eqb j id) with false by (symmetry; apply Nat.eqb_neq; lia).
  reflexivity.
Qed.

Lemma exec_groupIdSequence (env : Env) (regs : Regs) (k : nat) (dim V : Value)
    (d x : Z) (vec : list Z) :
  older k dim -> older k V ->
  eval_value env regs dim = Some (RInt 32 d) ->
  eval_value env regs V = Some (RVec 32 vec) ->
  nth_error vec (Z.to_nat (groupIdLane d)) = Some x ->
  exists regs',
    exec env regs (groupIdSequence k dim V) = Some regs' /\
    lookup regs' (S (S (S k))) = Some (RInt 32 x).
Proof.
  intros Hod HoV Hd HV Hx. unfold groupIdSequence.
  cbn [exec eval_op inst_op inst_ty inst_id].
  rewrite Hd. cbn [eval_value eval_const eval_icmp lookup].
  change (32 =? 32) with true. cbv iota.
  eqb_solve.
  rewrite !(eval_value_push env _ _ _ dim k) by (assumption || lia).
  rewrite Hd.
  unfold groupIdLane in Hx.
  destruct (d =? 0);
    [change (1 =? 0) with false | change (0 =? 0) with true]; cbv iota;
    rewrite eval_add; cbv iota;
    rewrite !(eval_value_push env _ _ _ V k) by (assumption || lia);
    rewrite HV, Hx;
    eexists; (split; [reflexivity |]); cbn [lookup]; eqb_solve; reflexivity.
Qed.

Lemma older_S (k : nat) (v : Value) : older k v -> older (S k) v.
Proof. destruct v; cbn [older]; lia. Qed.

Lemma groupIdSequence_built (dim V : Value) (w : Z) (k : nat) (l : list Instruction) :
  getType dim = Int32Ty ->
  getType V = FixedVectorTy Int32Ty w ->
  (cmpDim <- CmpInst_Create ICMP_EQ dim (VConst (ConstantInt 32 0)) ;;
   offsetR0 <- SelectInst_Create cmpDim (VConst (ConstantInt 32 1)) (VConst (ConstantInt 32 5)) ;;
   index <- BinaryOperator_CreateAdd dim offsetR0 ;;
   groupId <- ExtractElementInst_Create V index ;;
   ret groupId) (mkBuilder k l) =
  Ok (VInst (S (S (S k))) Int32Ty,
      mkBuilder (S (S (S (S k)))) (l ++ groupIdSequence k dim V)).
Proof.
  intros Hd HV.
  unfold bind, CmpInst_Create, SelectInst_Create, BinaryOperator_CreateAdd,
    ExtractElementInst_Create, CreateICmp, CreateSelect, CreateAdd, CreateBinOp,
    CreateExtractElement, Insert, ret, valueOf.
  rewrite Hd, HV. cbn.
  unfold groupIdSequence. rewrite <- !app_assoc. reflexivity.
Qed.

(** C6.  For a GroupId query with runtime dimension dim the lowering
    extracts lane dim + (dim == 0 ? 1 : 5) of the thread-state vector (in
    32-bit arithmetic), that is lanes 1, 6, 7 for dims 0, 1, 2.  Both modes
    insert the same four instructions for it; they differ only in the vector
    read: the result of the platform query in a stack-call function, the
    hidden R0 parameter otherwise. *)
Theorem getGroupId_lane (this : WIFuncResolution) (F : Function) (CI : Instruction)
    (n : nat) (callee : Callee) (dim : Value) (args : list Value) :
  inst_op CI = Call callee (dim :: args) ->
  getType dim = Int32Ty ->
  older n dim ->
  let R0Ty := FixedVectorTy Int32Ty (getGRFSize (m_ctx this) / SIZE_DWORD) in
  let G := getGroupId this F CI (mkBuilder n []) in
  (hasStackCallAttr F = true ->
     G = Ok (VInst (4 + n) Int32Ty,
             mkBuilder (5 + n)
               (mkInst n (Call (GenISAIntrinsic GenISA_getR0) []) R0Ty ::
                groupIdSequence (S n) dim (VInst n R0Ty))) /\
     forall env regs d x,
       eval_value env regs dim = Some (RInt 32 d) ->
       nth_error (env_r0 env) (Z.to_nat (groupIdLane d)) = Some x ->
       run_result env regs G = Some (RInt 32 x)) /\
  (hasStackCallAttr F = false ->
   forall m w,
     getImplicitArg this F R0 (mkBuilder n []) =
       Ok (VArg m (FixedVectorTy Int32Ty w), mkBuilder n []) ->
     G = Ok (VInst (3 + n) Int32Ty,
             mkBuilder (4 + n) (groupIdSequence n dim (VArg m (FixedVectorTy Int32Ty w)))) /\
     forall env regs d x vec,
       eval_value env regs dim = Some (RInt 32 d) ->
       nth_error (env_args env) m = Some (RVec 32 vec) ->
       nth_error vec (Z.to_nat (groupIdLane d)) = Some x ->
       run_result env regs G = Some (RInt 32 x)) /\
  groupIdLane 0 = 1 /\ groupIdLane 1 = 6 /\ groupIdLane 2 = 7 /\
  (forall d, 0 <= d -> d + 5 < 2 ^ 32 ->
             groupIdLane d = d + (if d =? 0 then 1 else 5)).
Proof.
  intros HCI Hdim Hold R0Ty G.
  split; [| split].
  - intros HS.
    assert (HG : G = Ok (VInst (4 + n) Int32Ty,
             mkBuilder (5 + n)
               (mkInst n (Call (GenISAIntrinsic GenISA_getR0) []) R0Ty ::
                groupIdSequence (S n) dim (VInst n R0Ty)))).
    { unfold G, getGroupId. rewrite HS.
      unfold bind at 1. unfold callGetR0, CreateCall, Insert at 1.
      cbn [next_id inserted app valueOf inst_id inst_ty].
      unfold bind at 1. unfold getArgOperand. rewrite HCI. cbn [nth_error]. unfold ret at 1.
      fold R0Ty.
      rewrite (groupIdSequence_built dim (VInst n R0Ty) _ (S n) _ Hdim eq_refl).
      reflexivity. }
    split; [exact HG |].
    intros env regs d x Hd Hx. rewrite HG. unfold run_result. cbn [inserted].
    cbn [exec eval_op inst_op inst_ty inst_id].
    destruct (exec_groupIdSequence env ((n, RVec 32 (env_r0 env)) :: regs) (S n) dim
                (VInst n R0Ty) d x (env_r0 env)) as [regs' [He Hl]].
    + apply older_S. exact Hold.
    + cbn [older]. lia.
    + rewrite (eval_value_push env regs n _ dim n) by (assumption || lia). exact Hd.
    + cbn [eval_value lookup]. rewrite Nat.eqb_refl. reflexivity.
    + exact Hx.
    + rewrite He. cbn [eval_value plus]. exact Hl.
  - intros HS m w HA.
    assert (HG : G = Ok (VInst (3 + n) Int32Ty,
             mkBuilder (4 + n) (groupIdSequence n dim (VArg m (FixedVectorTy Int32Ty w))))).
    { unfold G, getGroupId. rewrite HS.
      unfold bind at 1. rewrite HA.
      unfold bind at 1. unfold getArgOperand. rewrite HCI. cbn [nth_error]. unfold ret at 1.
      rewrite (groupIdSequence_built dim (VArg m (FixedVectorTy Int32Ty w)) w n [] Hdim eq_refl).
      reflexivity. }
    split; [exact HG |].
    intros env regs d x vec Hd Hv Hx. rewrite HG. unfold run_result. cbn [inserted].
    destruct (exec_groupIdSequence env regs n dim (VArg m (FixedVectorTy Int32Ty w))
                d x vec) as [regs' [He Hl]]; try assumption.
    + cbn [older]. exact I.
    + rewrite He. cbn [eval_value plus]. exact Hl.
  - repeat split; try reflexivity.
    intros d Hd0 Hd5. unfold groupIdLane, wrap.
    apply Z.mod_small. destruct (d =? 0); lia.
Qed.

(** Dimension 1 on a thread-state vector whose lane k holds 100 + k. *)
Lemma getGroupId_lane_witness :
  run_result sampleR0Env []
    (getGroupId (samplePass []) (stackFn [])
       (call 0 WIFuncsAnalysis.GET_GROUP_ID [VConst (ConstantInt 32 1)] Int32Ty)
       (mkBuilder 1 [])) =
  Some (RInt 32 106).
Proof.
  destruct (getGroupId_lane (samplePass []) (stackFn [])
              (call 0 WIFuncsAnalysis.GET_GROUP_ID [VConst (ConstantInt 32 1)] Int32Ty)
              1 _ _ _ eq_refl eq_refl I) as [Hs _].
  destruct (Hs eq_refl) as [_ Hrun].
  apply (Hrun sampleR0Env [] 1 106); reflexivity.
Defined.

(* ------------------------------------------------------------------ *)
(** ** LocalId in a stack-call function *)

Lemma getLocalId_stack_built (this : WIFuncResolution) (F : Function) (CI : Instruction)
    (argType : ArgType) (n : nat) (c : Z) :
  hasStackCallAttr F = true ->
  inst_ty CI = IntegerTy c -> 16 < c ->
  getLocalId this F CI argType (mkBuilder n []) =
    Ok (VInst (20 + n) (IntegerTy c),
        mkBuilder (21 + n)
          (localIdSequence F (getGRFSize (m_ctx this) / SIZE_DWORD)
                           (localIdFactor argType) c n)).
Proof.
  intros HS HT Hc. unfold getLocalId. rewrite HS.
  change GLOBAL_STATE_FIELD_OFFSETS.LOCAL_IDS with 72.
  unfold bind at 1. unfold Int64Ty.
  rewrite (BuildLoadInst_aligned_scalar F 72 64 n) by (vm_compute; intuition congruence).
  cbv beta iota.
  fold (localIdFactor argType).
  unfold CreateZExtOrBitCast. rewrite HT.
  unfold callGetR0, CreateMul, CreateAdd, CreateZExt, CreateIntToPtr, Int32Ty, Int16Ty.
  remember (getGRFSize (m_ctx this) / SIZE_DWORD) as g.
  remember (localIdFactor argType) as f.
  repeat bstep.
  cbn [getScalarSizeInBits getScalarType getPrimitiveSizeInBits].
  replace (16 =? c) with false by (symmetry; apply Z.eqb_neq; lia).
  unfold bind at 1. rewrite CreateCast_inst.
  - reflexivity.
  - cbn [Ty_eqb]. apply Z.eqb_neq. lia.
  - cbn [castIsValid]. apply Z.ltb_lt. exact Hc.
Qed.








(* ================================================================== *)
(** * Further properties of the pass *)

(* ------------------------------------------------------------------ *)
(** ** What the builder inserts: fresh numbers, never a query call *)

Lemma resolveCall_isWIFunc (this : WIFuncResolution) (F : Function) (CI : Instruction)
    (name : string) :
  isWIFunc name = match resolveCall this F CI name with Some _ => true | None => false end.
Proof.
  unfold isWIFunc, WINames, resolveCall. cbn [existsb].
  repeat match goal with
         | |- context [String.eqb name ?c] => destruct (String.eqb name c); cbn [orb]
         end; reflexivity.
Qed.

Lemma keeps_ret {A : Type} (a : A) : keeps_fresh (ret a).
Proof. intros s st a' st' H E. unfold ret in E. injection E as <- <-. exact H. Qed.

Lemma keeps_bind {A B : Type} (m : M A) (k : A -> M B) :
  keeps_fresh m -> (forall a, keeps_fresh (k a)) -> keeps_fresh (bind m k).
Proof.
  intros Hm Hk s st b st' H E. unfold bind in E.
  destruct (m st) as [[a st1] | |] eqn:Em; try discriminate.
  apply (Hk a s st1 b st'); [| exact E].
  apply (Hm s st a st1); assumption.
Qed.

Lemma keeps_undefined {A : Type} : keeps_fresh (@undefined A).
Proof. intros s st a st' H E. discriminate. Qed.

Lemma keeps_fatal {A : Type} (msg : string) : keeps_fresh (@fatal A msg).
Proof. intros s st a st' H E. discriminate. Qed.

Lemma keeps_lift {A : Type} (r : Res A) : keeps_fresh (lift r).
Proof.
  intros s st a st' H E. unfold lift in E. destruct r; try discriminate.
  injection E as <- <-. exact H.
Qed.

Lemma keeps_Insert (op : Opcode) (t : Ty) :
  (forall k, isQueryCall (mkInst k op t) = false) -> keeps_fresh (Insert op t).
Proof.
  intros Hq s st a st' [Hids [Hle Hnq]] E. unfold Insert in E. injection E as <- <-.
  unfold fresh_from. cbn [inserted next_id]. repeat split.
  - rewrite map_app, Hids. cbn [map inst_id].
    replace (S (next_id st) - s)%nat with (S (next_id st - s)) by lia.
    rewrite seq_S. do 2 f_equal. lia.
  - lia.
  - rewrite forallb_app, Hnq. cbn [forallb]. rewrite Hq. reflexivity.
Qed.

Lemma keeps_setAlignment (ld : Value) (a : Z) : keeps_fresh (setAlignment ld a).
Proof.
  intros s st u st' [Hids [Hle Hnq]] E. unfold setAlignment in E. cbv zeta in E.
  injection E as <- <-.
  unfold fresh_from. cbn [inserted next_id]. repeat split.
  - rewrite map_map. rewrite <- Hids. apply map_ext. intros i.
    destruct ld; try reflexivity. destruct (inst_op i); try reflexivity.
    destruct (Nat.eqb id (inst_id i)); reflexivity.
  - exact Hle.
  - rewrite forallb_forall in *. intros i Hin. apply in_map_iff in Hin.
    destruct Hin as [i0 [<- Hin0]]. specialize (Hnq i0 Hin0).
    destruct ld; try exact Hnq. unfold isQueryCall in *.
    destruct (inst_op i0) eqn:Eop; try exact Hnq; cbn [inst_op]; try (rewrite Eop; exact Hnq).
    destruct (Nat.eqb id (inst_id i0)); cbn [inst_op]; [reflexivity | rewrite Eop; reflexivity].
Qed.

Ltac keeps_insert := apply keeps_Insert; intros; reflexivity.

Lemma keeps_CastInst_Create (op : CastOp) (v : Value) (t : Ty) :
  keeps_fresh (CastInst_Create op v t).
Proof.
  unfold CastInst_Create. destruct (castIsValid op (getType v) t);
    [keeps_insert | apply keeps_undefined].
Qed.

Lemma keeps_CreateCast (op : CastOp) (v : Value) (t : Ty) : keeps_fresh (CreateCast op v t).
Proof.
  unfold CreateCast. destruct (Ty_eqb (getType v) t); [apply keeps_ret |].
  destruct (castIsValid op (getType v) t); [| apply keeps_undefined].
  destruct v; [keeps_insert | keeps_insert | apply keeps_ret].
Qed.

Lemma keeps_CreateZExtOrBitCast (v : Value) (t : Ty) : keeps_fresh (CreateZExtOrBitCast v t).
Proof.
  unfold CreateZExtOrBitCast.
  destruct (getScalarSizeInBits (getType v) =? getScalarSizeInBits t); apply keeps_CreateCast.
Qed.

Lemma keeps_CreateLoad (p : Value) : keeps_fresh (CreateLoad p).
Proof.
  unfold CreateLoad. destruct (getType p); try apply keeps_undefined. keeps_insert.
Qed.

Lemma keeps_CreateExtractElement (v i : Value) : keeps_fresh (CreateExtractElement v i).
Proof.
  unfold CreateExtractElement. destruct (getType v); try apply keeps_undefined. keeps_insert.
Qed.

Lemma keeps_CreateInsertElement (v e i : Value) : keeps_fresh (CreateInsertElement v e i).
Proof.
  unfold CreateInsertElement. destruct (getType v); try apply keeps_undefined. keeps_insert.
Qed.

Lemma keeps_CreateBinOp (op : BinaryOp) (a b : Value) : keeps_fresh (CreateBinOp op a b).
Proof.
  unfold CreateBinOp. destruct (Ty_eqb (getType a) (getType b));
    [keeps_insert | apply keeps_undefined].
Qed.

Lemma keeps_CreateICmp (p : Predicate) (a b : Value) : keeps_fresh (CreateICmp p a b).
Proof.
  unfold CreateICmp. destruct (Ty_eqb (getType a) (getType b));
    [keeps_insert | apply keeps_undefined].
Qed.

Lemma keeps_CreateSelect (c a b : Value) : keeps_fresh (CreateSelect c a b).
Proof.
  unfold CreateSelect. destruct (Ty_eqb (getType a) (getType b));
    [keeps_insert | apply keeps_undefined].
Qed.

Lemma keeps_CreateCall (id : GenISA_ID) (t : Ty) : keeps_fresh (CreateCall id t).
Proof. unfold CreateCall. keeps_insert. Qed.

Lemma keeps_IGC_ASSERT_MESSAGE (c : bool) (msg : string) :
  keeps_fresh (IGC_ASSERT_MESSAGE c msg).
Proof. unfold IGC_ASSERT_MESSAGE. destruct c; [apply keeps_ret | apply keeps_fatal]. Qed.

Lemma keeps_getImplicitArg (this : WIFuncResolution) (F : Function) (k : ArgType) :
  keeps_fresh (getImplicitArg this F k).
Proof.
  unfold getImplicitArg. cbv zeta. apply keeps_bind.
  - apply keeps_IGC_ASSERT_MESSAGE.
  - intros _. apply keeps_lift.
Qed.

Lemma keeps_getArgOperand (CI : Instruction) (k : nat) : keeps_fresh (getArgOperand CI k).
Proof.
  unfold getArgOperand. destruct (inst_op CI); try apply keeps_undefined.
  destruct (nth_error args k); [apply keeps_ret | apply keeps_undefined].
Qed.

Ltac keeps1 :=
  lazymatch goal with
  | |- keeps_fresh (ret _) => apply keeps_ret
  | |- keeps_fresh undefined => apply keeps_undefined
  | |- keeps_fresh (bind _ _) => apply keeps_bind; [| intros ?]
  | |- keeps_fresh (setAlignment _ _) => apply keeps_setAlignment
  | |- keeps_fresh (CastInst_Create _ _ _) => apply keeps_CastInst_Create
  | |- keeps_fresh (CreateCast _ _ _) => apply keeps_CreateCast
  | |- keeps_fresh (CreateTrunc _ _) => apply keeps_CreateCast
  | |- keeps_fresh (CreateZExt _ _) => apply keeps_CreateCast
  | |- keeps_fresh (CreateBitCast _ _) => apply keeps_CreateCast
  | |- keeps_fresh (CreateIntToPtr _ _) => apply keeps_CreateCast
  | |- keeps_fresh (CreateZExtOrBitCast _ _) => apply keeps_CreateZExtOrBitCast
  | |- keeps_fresh (CreateLoad _) => apply keeps_CreateLoad
  | |- keeps_fresh (CreateExtractElement _ _) => apply keeps_CreateExtractElement
  | |- keeps_fresh (CreateInsertElement _ _ _) => apply keeps_CreateInsertElement
  | |- keeps_fresh (CreateBinOp _ _ _) => apply keeps_CreateBinOp
  | |- keeps_fresh (CreateAdd _ _) => apply keeps_CreateBinOp
  | |- keeps_fresh (CreateMul _ _) => apply keeps_CreateBinOp
  | |- keeps_fresh (CreateLShr _ _) => apply keeps_CreateBinOp
  | |- keeps_fresh (CreateICmp _ _ _) => apply keeps_CreateICmp
  | |- keeps_fresh (CreateSelect _ _ _) => apply keeps_CreateSelect
  | |- keeps_fresh (CreateCall _ _) => apply keeps_CreateCall
  | |- keeps_fresh (getImplicitArg _ _ _) => apply keeps_getImplicitArg
  | |- keeps_fresh (getArgOperand _ _) => apply keeps_getArgOperand
  | |- keeps_fresh (if ?c then _ else _) => destruct c
  end.

Ltac keeps := repeat keeps1.

Lemma keeps_copyBytes (n : nat) (I O A : Z) (b v : Value) :
  keeps_fresh (copyBytes n I O A b v).
Proof.
  revert I v. induction n as [| n IH]; intros I v; cbn [copyBytes].
  - apply keeps_ret.
  - keeps. apply IH.
Qed.

Lemma keeps_truncLanes (lanes : list Z) (ld : Value) (t : Ty) (u : Value) :
  keeps_fresh (truncLanes lanes ld t u).
Proof.
  revert u. induction lanes as [| i lanes IH]; intros u; cbn [truncLanes].
  - apply keeps_ret.
  - keeps. apply IH.
Qed.

Lemma keeps_BuildLoadInst (F : Function) (O : Z) (T : Ty) : keeps_fresh (BuildLoadInst F O T).
Proof.
  unfold BuildLoadInst, CreateIntToPtr, CreateBitCast. cbv zeta.
  keeps; apply keeps_copyBytes.
Qed.

Ltac keeps_handler :=
  cbv zeta;
  unfold callGetR0, CreateMul, CreateAdd, CreateLShr, CreateZExt, CreateTrunc, CreateIntToPtr,
    CmpInst_Create, SelectInst_Create, BinaryOperator_CreateAdd, ExtractElementInst_Create;
  repeat lazymatch goal with
         | |- keeps_fresh (BuildLoadInst _ _ _) => apply keeps_BuildLoadInst
         | |- keeps_fresh (truncLanes _ _ _ _) => apply keeps_truncLanes
         | |- _ => keeps1
         end.

Lemma keeps_resolveCall (this : WIFuncResolution) (F : Function) (CI : Instruction)
    (name : string) (handler : M Value) :
  resolveCall this F CI name = Some handler -> keeps_fresh handler.
Proof.
  unfold resolveCall.
  repeat match goal with
         | |- context [String.eqb name ?c] => destruct (String.eqb name c)
         end;
    intros H; try discriminate; injection H as <-.
  - unfold getLocalId. keeps_handler.
  - unfold getLocalId. keeps_handler.
  - unfold getLocalId. keeps_handler.
  - unfold getGroupId. keeps_handler.
  - unfold getLocalThreadId. keeps_handler.
  - unfold getGlobalSize. keeps_handler.
  - unfold getLocalSize. keeps_handler.
  - unfold getEnqueuedLocalSize. keeps_handler.
  - unfold getGlobalOffset. keeps_handler.
  - unfold getWorkDim. keeps_handler.
  - unfold getNumGroups. keeps_handler.
  - unfold getStageInGridOrigin. keeps_handler.
  - unfold getStageInGridSize. keeps_handler.
  - unfold getSyncBufferPtr. keeps_handler.
Qed.

Lemma keeps_adaptWidth (CI : Instruction) (v : Value) : keeps_fresh (adaptWidth CI v).
Proof.
  unfold adaptWidth.
  destruct (getScalarSizeInBits (getType v) <? getScalarSizeInBits (inst_ty CI)); keeps.
Qed.

Lemma fresh_from_start (s : nat) : fresh_from s (mkBuilder s []).
Proof.
  unfold fresh_from. cbn [inserted next_id map forallb].
  rewrite Nat.sub_diag. repeat split. lia.
Qed.

(** ** What the builder returns: never an instruction that was there *)

Section YieldsNew.
Variable s : nat.

Lemma yields_ret (a : Value) : newer s a -> yields_new s (ret a).
Proof. intros Ha st a' st' _ E. unfold ret in E. injection E as <- <-. exact Ha. Qed.

Lemma yields_undefined : yields_new s undefined.
Proof. intros st a st' _ E. discriminate. Qed.

Lemma yields_bind {A : Type} (m : M A) (k : A -> M Value) :
  keeps_fresh m -> (forall a, yields_new s (k a)) -> yields_new s (bind m k).
Proof.
  intros Hm Hk st b st' H E. unfold bind in E.
  destruct (m st) as [[a st1] | |] eqn:Em; try discriminate.
  apply (Hk a st1 b st'); [| exact E].
  apply (Hm s st a st1); assumption.
Qed.

Lemma yields_bind_new (m : M Value) (k : Value -> M Value) :
  keeps_fresh m -> yields_new s m -> (forall a, newer s a -> yields_new s (k a)) ->
  yields_new s (bind m k).
Proof.
  intros Hm Hy Hk st b st' H E. unfold bind in E.
  destruct (m st) as [[a st1] | |] eqn:Em; try discriminate.
  apply (Hk a (Hy st a st1 H Em) st1 b st'); [| exact E].
  apply (Hm s st a st1); assumption.
Qed.

Lemma yields_Insert (op : Opcode) (t : Ty) : yields_new s (Insert op t).
Proof.
  intros st a st' [_ [Hle _]] E. unfold Insert in E. injection E as <- _.
  exact Hle.
Qed.

Lemma yields_CastInst_Create (op : CastOp) (v : Value) (t : Ty) :
  yields_new s (CastInst_Create op v t).
Proof.
  unfold CastInst_Create. destruct (castIsValid op (getType v) t);
    [apply yields_Insert | apply yields_undefined].
Qed.

Lemma yields_CreateCast (op : CastOp) (v : Value) (t : Ty) :
  newer s v -> yields_new s (CreateCast op v t).
Proof.
  intros Hv. unfold CreateCast. destruct (Ty_eqb (getType v) t); [apply yields_ret; exact Hv |].
  destruct (castIsValid op (getType v) t); [| apply yields_undefined].
  destruct v; [apply yields_Insert | apply yields_Insert | apply yields_ret; exact I].
Qed.

Lemma yields_CreateZExtOrBitCast (v : Value) (t : Ty) :
  newer s v -> yields_new s (CreateZExtOrBitCast v t).
Proof.
  intros Hv. unfold CreateZExtOrBitCast.
  destruct (getScalarSizeInBits (getType v) =? getScalarSizeInBits t);
    apply yields_CreateCast; exact Hv.
Qed.

Lemma yields_CreateLoad (p : Value) : yields_new s (CreateLoad p).
Proof.
  unfold CreateLoad. destruct (getType p); try apply yields_undefined. apply yields_Insert.
Qed.

Lemma yields_CreateExtractElement (v i : Value) : yields_new s (CreateExtractElement v i).
Proof.
  unfold CreateExtractElement. destruct (getType v); try apply yields_undefined.
  apply yields_Insert.
Qed.

Lemma yields_CreateInsertElement (v e i : Value) : yields_new s (CreateInsertElement v e i).
Proof.
  unfold CreateInsertElement. destruct (getType v); try apply yields_undefined.
  apply yields_Insert.
Qed.

Lemma yields_CreateBinOp (op : BinaryOp) (a b : Value) : yields_new s (CreateBinOp op a b).
Proof.
  unfold CreateBinOp. destruct (Ty_eqb (getType a) (getType b));
    [apply yields_Insert | apply yields_undefined].
Qed.

Lemma yields_CreateICmp (p : Predicate) (a b : Value) : yields_new s (CreateICmp p a b).
Proof.
  unfold CreateICmp. destruct (Ty_eqb (getType a) (getType b));
    [apply yields_Insert | apply yields_undefined].
Qed.

Lemma yields_CreateSelect (c a b : Value) : yields_new s (CreateSelect c a b).
Proof.
  unfold CreateSelect. destruct (Ty_eqb (getType a) (getType b));
    [apply yields_Insert | apply yields_undefined].
Qed.

Lemma yields_CreateCall (id : GenISA_ID) (t : Ty) : yields_new s (CreateCall id t).
Proof. unfold CreateCall. apply yields_Insert. Qed.

Lemma yields_getImplicitArg (this : WIFuncResolution) (F : Function) (k : ArgType) :
  yields_new s (getImplicitArg this F k).
Proof.
  unfold getImplicitArg. cbv zeta. apply yields_bind.
  - apply keeps_IGC_ASSERT_MESSAGE.
  - intros _ st a st' _ E. unfold lift, arg_at in E.
    destruct (nth_error _ _); try discriminate. injection E as <- _. exact I.
Qed.

End YieldsNew.

Ltac newer_arg := first [assumption | exact I].

Ltac yields_prep :=
  cbv zeta;
  unfold callGetR0, CreateMul, CreateAdd, CreateLShr, CreateZExt, CreateTrunc, CreateIntToPtr,
    CreateBitCast, CmpInst_Create, SelectInst_Create, BinaryOperator_CreateAdd,
    ExtractElementInst_Create.

Ltac keeps_all :=
  yields_prep;
  repeat lazymatch goal with
         | |- keeps_fresh (BuildLoadInst _ _ _) => apply keeps_BuildLoadInst
         | |- keeps_fresh (truncLanes _ _ _ _) => apply keeps_truncLanes
         | |- keeps_fresh (copyBytes _ _ _ _ _ _) => apply keeps_copyBytes
         | |- _ => keeps1
         end.

Ltac yields1 :=
  lazymatch goal with
  | |- yields_new _ (ret _) => apply yields_ret; newer_arg
  | |- yields_new _ undefined => apply yields_undefined
  | |- yields_new _ (bind (setAlignment _ _) _) =>
      apply yields_bind; [apply keeps_setAlignment | intros ?]
  | |- yields_new _ (bind (getArgOperand _ _) _) =>
      apply yields_bind; [apply keeps_getArgOperand | intros ?]
  | |- yields_new _ (bind _ _) =>
      apply yields_bind_new; [solve [keeps_all] | | intros ? ?]
  | |- yields_new _ (CastInst_Create _ _ _) => apply yields_CastInst_Create
  | |- yields_new _ (CreateCast _ _ _) => apply yields_CreateCast; newer_arg
  | |- yields_new _ (CreateTrunc _ _) => apply yields_CreateCast; newer_arg
  | |- yields_new _ (CreateZExt _ _) => apply yields_CreateCast; newer_arg
  | |- yields_new _ (CreateBitCast _ _) => apply yields_CreateCast; newer_arg
  | |- yields_new _ (CreateIntToPtr _ _) => apply yields_CreateCast; newer_arg
  | |- yields_new _ (CreateZExtOrBitCast _ _) => apply yields_CreateZExtOrBitCast; newer_arg
  | |- yields_new _ (CreateLoad _) => apply yields_CreateLoad
  | |- yields_new _ (CreateExtractElement _ _) => apply yields_CreateExtractElement
  | |- yields_new _ (CreateInsertElement _ _ _) => apply yields_CreateInsertElement
  | |- yields_new _ (CreateBinOp _ _ _) => apply yields_CreateBinOp
  | |- yields_new _ (CreateAdd _ _) => apply yields_CreateBinOp
  | |- yields_new _ (CreateMul _ _) => apply yields_CreateBinOp
  | |- yields_new _ (CreateLShr _ _) => apply yields_CreateBinOp
  | |- yields_new _ (CreateICmp _ _ _) => apply yields_CreateICmp
  | |- yields_new _ (CreateSelect _ _ _) => apply yields_CreateSelect
  | |- yields_new _ (CreateCall _ _) => apply yields_CreateCall
  | |- yields_new _ (getImplicitArg _ _ _) => apply yields_getImplicitArg
  | |- yields_new _ (if ?c then _ else _) => destruct c
  end.

Lemma yields_copyBytes (s n : nat) (I O A : Z) (b v : Value) :
  newer s v -> yields_new s (copyBytes n I O A b v).
Proof.
  revert I v. induction n as [| n IH]; intros I v Hv; cbn [copyBytes].
  - apply yields_ret. exact Hv.
  - repeat yields1. apply IH. assumption.
Qed.

Lemma yields_truncLanes (s : nat) (lanes : list Z) (ld : Value) (t : Ty) (u : Value) :
  newer s u -> yields_new s (truncLanes lanes ld t u).
Proof.
  revert u. induction lanes as [| i lanes IH]; intros u Hu; cbn [truncLanes].
  - apply yields_ret. exact Hu.
  - yields_prep. repeat yields1. apply IH. assumption.
Qed.

Lemma yields_BuildLoadInst (s : nat) (F : Function) (O : Z) (T : Ty) :
  yields_new s (BuildLoadInst F O T).
Proof.
  unfold BuildLoadInst. yields_prep.
  repeat lazymatch goal with
         | |- yields_new _ (copyBytes _ _ _ _ _ _) => apply yields_copyBytes; exact I
         | |- _ => yields1
         end.
Qed.

Ltac yields_handler :=
  yields_prep;
  repeat lazymatch goal with
         | |- yields_new _ (BuildLoadInst _ _ _) => apply yields_BuildLoadInst
         | |- yields_new _ (truncLanes _ _ _ _) => apply yields_truncLanes; exact I
         | |- _ => yields1
         end.

Lemma yields_resolveCall (s : nat) (this : WIFuncResolution) (F : Function)
    (CI : Instruction) (name : string) (handler : M Value) :
  resolveCall this F CI name = Some handler -> yields_new s handler.
Proof.
  unfold resolveCall.
  repeat match goal with
         | |- context [String.eqb name ?c] => destruct (String.eqb name c)
         end;
    intros H; try discriminate; injection H as <-.
  - unfold getLocalId. yields_handler.
  - unfold getLocalId. yields_handler.
  - unfold getLocalId. yields_handler.
  - unfold getGroupId. yields_handler.
  - unfold getLocalThreadId. yields_handler.
  - unfold getGlobalSize. yields_handler.
  - unfold getLocalSize. yields_handler.
  - unfold getEnqueuedLocalSize. yields_handler.
  - unfold getGlobalOffset. yields_handler.
  - unfold getWorkDim. yields_handler.
  - unfold getNumGroups. yields_handler.
  - unfold getStageInGridOrigin. yields_handler.
  - unfold getStageInGridSize. yields_handler.
  - unfold getSyncBufferPtr. yields_handler.
Qed.

Lemma yields_adaptWidth (s : nat) (CI : Instruction) (v : Value) :
  newer s v -> yields_new s (adaptWidth CI v).
Proof.
  intros Hv. unfold adaptWidth.
  destruct (getScalarSizeInBits (getType v) <? getScalarSizeInBits (inst_ty CI));
    repeat yields1.
Qed.

(** What a whole lowering leaves in the builder and returns. *)
Lemma lowering_fresh (s : nat) (this : WIFuncResolution) (F : Function) (CI : Instruction)
    (name : string) (handler : M Value) (w : Value) (B : IRBuilder) :
  resolveCall this F CI name = Some handler ->
  (wiRes <- handler ;; adaptWidth CI wiRes) (mkBuilder s []) = Ok (w, B) ->
  fresh_from s B /\ newer s w.
Proof.
  intros ER E. split.
  - refine (keeps_bind handler (adaptWidth CI) _ _ s _ w B (fresh_from_start s) E).
    + exact (keeps_resolveCall this F CI name handler ER).
    + intros a. apply keeps_adaptWidth.
  - refine (yields_bind_new s handler (adaptWidth CI) _ _ _ _ w B (fresh_from_start s) E).
    + exact (keeps_resolveCall this F CI name handler ER).
    + exact (yields_resolveCall s this F CI name handler ER).
    + intros a Ha. apply yields_adaptWidth. exact Ha.
Qed.

(** ** What the builder uses: never a dangling operand *)

Lemma grows_refl (l : list Instruction) : grows l l.
Proof. intros j Hj. exists j. auto. Qed.

Lemma grows_trans (a b c : list Instruction) : grows a b -> grows b c -> grows a c.
Proof.
  intros Hab Hbc j Hj. destruct (Hab j Hj) as [j1 [H1 E1]].
  destruct (Hbc j1 H1) as [j2 [H2 E2]]. exists j2. split; [exact H2 | congruence].
Qed.

Lemma grows_app (l : list Instruction) (i : Instruction) : grows l (l ++ [i]).
Proof. intros j Hj. exists j. split; [apply in_or_app; left; exact Hj | reflexivity]. Qed.

Lemma defined_in_grows (l l' : list Instruction) (v : Value) :
  grows l l' -> defined_in l v -> defined_in l' v.
Proof.
  intros Hg. destruct v as [id t | |]; cbn [defined_in]; try trivial.
  intros [j [Hj E]]. destruct (Hg j Hj) as [j' [Hj' E']]. exists j'. split; congruence.
Qed.

Lemma usable_grows (CI : Instruction) (l l' : list Instruction) (v : Value) :
  grows l l' -> usable CI l v -> usable CI l' v.
Proof.
  intros Hg [H | H]; [left; apply (defined_in_grows l); assumption | right; exact H].
Qed.

Section Builds.
Variable CI : Instruction.

Lemma builds_ret (lp : list Instruction) (a : Value) :
  usable CI lp a -> builds CI lp (ret a).
Proof.
  intros Ha st a' st' Hg Ht E. unfold ret in E. injection E as <- <-.
  split; [exact Ht |]. split; [apply grows_refl |].
  apply (usable_grows CI lp); assumption.
Qed.

Lemma builds_undefined (lp : list Instruction) : builds CI lp undefined.
Proof. intros st a st' _ _ E. discriminate. Qed.

Lemma builds_bind (lp : list Instruction) (m : M Value) (k : Value -> M Value) :
  builds CI lp m ->
  (forall a l1, grows lp l1 -> usable CI l1 a -> builds CI l1 (k a)) ->
  builds CI lp (bind m k).
Proof.
  intros Hm Hk st b st' Hg Ht E. unfold bind in E.
  destruct (m st) as [[a st1] | |] eqn:Em; try discriminate.
  destruct (Hm st a st1 Hg Ht Em) as [Ht1 [Hg1 Ha]].
  destruct (Hk a (inserted st1) (grows_trans _ _ _ Hg Hg1) Ha st1 b st'
              (grows_refl _) Ht1 E) as [Ht' [Hg' Hb]].
  split; [exact Ht' |]. split; [| exact Hb].
  apply (grows_trans _ (inserted st1)); assumption.
Qed.

Lemma builds_bind_unit (lp : list Instruction) (m : M unit) (k : unit -> M Value) :
  builds_unit CI lp m ->
  (forall a l1, grows lp l1 -> builds CI l1 (k a)) ->
  builds CI lp (bind m k).
Proof.
  intros Hm Hk st b st' Hg Ht E. unfold bind in E.
  destruct (m st) as [[a st1] | |] eqn:Em; try discriminate.
  destruct (Hm st a st1 Hg Ht Em) as [Ht1 Hg1].
  destruct (Hk a (inserted st1) (grows_trans _ _ _ Hg Hg1) st1 b st'
              (grows_refl _) Ht1 E) as [Ht' [Hg' Hb]].
  split; [exact Ht' |]. split; [| exact Hb].
  apply (grows_trans _ (inserted st1)); assumption.
Qed.

Lemma builds_Insert (lp : list Instruction) (op : Opcode) (t : Ty) :
  (forall v, In v (operands op) -> usable CI lp v) -> builds CI lp (Insert op t).
Proof.
  intros Hop st a st' Hg Ht E. unfold Insert in E. injection E as <- <-.
  cbn [inserted]. set (I := mkInst (next_id st) op t).
  split; [| split].
  - intros i v Hi Hv. apply in_app_or in Hi. destruct Hi as [Hi | [<- | []]].
    + apply (usable_grows CI (inserted st)); [apply grows_app | exact (Ht i v Hi Hv)].
    + apply (usable_grows CI lp); [| apply Hop; exact Hv].
      apply (grows_trans _ (inserted st)); [exact Hg | apply grows_app].
  - apply grows_app.
  - left. cbn [defined_in valueOf]. exists I. split; [| reflexivity].
    apply in_or_app. right. left. reflexivity.
Qed.

Lemma builds_setAlignment (lp : list Instruction) (ld : Value) (a : Z) :
  builds_unit CI lp (setAlignment ld a).
Proof.
  intros st u st' Hg Ht E. unfold setAlignment in E. cbv zeta in E.
  injection E as <- <-. cbn [inserted].
  set (upd := fun I : Instruction =>
                match ld with
                | VInst id _ =>
                    match inst_op I with
                    | Load p _ =>
                        if Nat.eqb id (inst_id I)
                        then mkInst (inst_id I) (Load p a) (inst_ty I) else I
                    | _ => I
                    end
                | _ => I
                end).
  assert (Hval : forall i, valueOf (upd i) = valueOf i).
  { intros i. unfold upd. destruct ld; try reflexivity.
    destruct (inst_op i); try reflexivity.
    destruct (Nat.eqb id (inst_id i)); reflexivity. }
  assert (Hops : forall i, operands (inst_op (upd i)) = operands (inst_op i)).
  { intros i. unfold upd. destruct ld; try reflexivity.
    destruct (inst_op i) eqn:Eop; try (rewrite Eop; reflexivity).
    destruct (Nat.eqb id (inst_id i)); [reflexivity | rewrite Eop; reflexivity]. }
  assert (Hgr : grows (inserted st) (map upd (inserted st))).
  { intros j Hj. exists (upd j). split; [apply in_map; exact Hj | apply Hval]. }
  split; [| exact Hgr].
  intros i v Hi Hv. apply in_map_iff in Hi. destruct Hi as [i0 [<- Hi0]].
  rewrite Hops in Hv. apply (usable_grows CI (inserted st)); [exact Hgr |].
  exact (Ht i0 v Hi0 Hv).
Qed.

Lemma builds_IGC_ASSERT_MESSAGE (lp : list Instruction) (c : bool) (msg : string) :
  builds_unit CI lp (IGC_ASSERT_MESSAGE c msg).
Proof.
  intros st u st' Hg Ht E. unfold IGC_ASSERT_MESSAGE in E.
  destruct c; [| discriminate]. unfold ret in E. injection E as <- <-.
  split; [exact Ht | apply grows_refl].
Qed.

Lemma builds_CastInst_Create (lp : list Instruction) (op : CastOp) (v : Value) (t : Ty) :
  usable CI lp v -> builds CI lp (CastInst_Create op v t).
Proof.
  intros Hv. unfold CastInst_Create. destruct (castIsValid op (getType v) t);
    [| apply builds_undefined].
  apply builds_Insert. cbn [operands In]. intros x [<- | []]. exact Hv.
Qed.

Lemma builds_CreateCast (lp : list Instruction) (op : CastOp) (v : Value) (t : Ty) :
  usable CI lp v -> builds CI lp (CreateCast op v t).
Proof.
  intros Hv. unfold CreateCast.
  destruct (Ty_eqb (getType v) t); [apply builds_ret; exact Hv |].
  destruct (castIsValid op (getType v) t); [| apply builds_undefined].
  destruct v.
  - apply builds_Insert. cbn [operands In]. intros x [<- | []]. exact Hv.
  - apply builds_Insert. cbn [operands In]. intros x [<- | []]. exact Hv.
  - apply builds_ret. left. exact I.
Qed.

Lemma builds_CreateZExtOrBitCast (lp : list Instruction) (v : Value) (t : Ty) :
  usable CI lp v -> builds CI lp (CreateZExtOrBitCast v t).
Proof.
  intros Hv. unfold CreateZExtOrBitCast.
  destruct (getScalarSizeInBits (getType v) =? getScalarSizeInBits t);
    apply builds_CreateCast; exact Hv.
Qed.

Lemma builds_CreateLoad (lp : list Instruction) (p : Value) :
  usable CI lp p -> builds CI lp (CreateLoad p).
Proof.
  intros Hp. unfold CreateLoad. destruct (getType p); try apply builds_undefined.
  apply builds_Insert. cbn [operands In]. intros x [<- | []]. exact Hp.
Qed.

Lemma builds_CreateExtractElement (lp : list Instruction) (v i : Value) :
  usable CI lp v -> usable CI lp i -> builds CI lp (CreateExtractElement v i).
Proof.
  intros Hv Hi. unfold CreateExtractElement. destruct (getType v); try apply builds_undefined.
  apply builds_Insert. cbn [operands In]. intros x [<- | [<- | []]]; assumption.
Qed.

Lemma builds_CreateInsertElement (lp : list Instruction) (v e i : Value) :
  usable CI lp v -> usable CI lp e -> usable CI lp i ->
  builds CI lp (CreateInsertElement v e i).
Proof.
  intros Hv He Hi. unfold CreateInsertElement.
  destruct (getType v); try apply builds_undefined.
  apply builds_Insert. cbn [operands In]. intros x [<- | [<- | [<- | []]]]; assumption.
Qed.

Lemma builds_CreateBinOp (lp : list Instruction) (op : BinaryOp) (a b : Value) :
  usable CI lp a -> usable CI lp b -> builds CI lp (CreateBinOp op a b).
Proof.
  intros Ha Hb. unfold CreateBinOp. destruct (Ty_eqb (getType a) (getType b));
    [| apply builds_undefined].
  apply builds_Insert. cbn [operands In]. intros x [<- | [<- | []]]; assumption.
Qed.

Lemma builds_CreateICmp (lp : list Instruction) (p : Predicate) (a b : Value) :
  usable CI lp a -> usable CI lp b -> builds CI lp (CreateICmp p a b).
Proof.
  intros Ha Hb. unfold CreateICmp. destruct (Ty_eqb (getType a) (getType b));
    [| apply builds_undefined].
  apply builds_Insert. cbn [operands In]. intros x [<- | [<- | []]]; assumption.
Qed.

Lemma builds_CreateSelect (lp : list Instruction) (c a b : Value) :
  usable CI lp c -> usable CI lp a -> usable CI lp b -> builds CI lp (CreateSelect c a b).
Proof.
  intros Hc Ha Hb. unfold CreateSelect. destruct (Ty_eqb (getType a) (getType b));
    [| apply builds_undefined].
  apply builds_Insert. cbn [operands In]. intros x [<- | [<- | [<- | []]]]; assumption.
Qed.

Lemma builds_CreateCall (lp : list Instruction) (id : GenISA_ID) (t : Ty) :
  builds CI lp (CreateCall id t).
Proof. unfold CreateCall. apply builds_Insert. cbn [operands In]. intros x []. Qed.

Lemma builds_getImplicitArg (lp : list Instruction) (this : WIFuncResolution)
    (F : Function) (k : ArgType) :
  builds CI lp (getImplicitArg this F k).
Proof.
  unfold getImplicitArg. cbv zeta. apply builds_bind_unit.
  - apply builds_IGC_ASSERT_MESSAGE.
  - intros _ l1 _ st a st' Hg Ht E. unfold lift, arg_at in E.
    destruct (nth_error _ _); try discriminate. injection E as <- <-.
    split; [exact Ht |]. split; [apply grows_refl | left; exact I].
Qed.

Lemma builds_getArgOperand (lp : list Instruction) (k : nat) :
  builds CI lp (getArgOperand CI k).
Proof.
  unfold getArgOperand. destruct (inst_op CI) eqn:Eop; try apply builds_undefined.
  destruct (nth_error args k) as [v |] eqn:En; [| apply builds_undefined].
  apply builds_ret. right. rewrite Eop. cbn [operands].
  apply (nth_error_In args k). exact En.
Qed.

End Builds.

(** A value known usable at an earlier point is usable now. *)
Ltac grows_chain :=
  first [ apply grows_refl
        | assumption
        | match goal with
          | H : grows ?x ?b |- grows ?a ?b => apply (grows_trans a x b); [grows_chain | exact H]
          end ].

Ltac usable_arg :=
  first [ assumption
        | left; exact I
        | match goal with
          | H : usable ?CI ?l ?v |- usable ?CI _ ?v =>
              apply (usable_grows CI l); [grows_chain | exact H]
          end ].

Ltac builds1 :=
  lazymatch goal with
  | |- builds _ _ (ret _) => apply builds_ret; usable_arg
  | |- builds _ _ undefined => apply builds_undefined
  | |- builds _ _ (bind (setAlignment _ _) _) =>
      apply builds_bind_unit; [apply builds_setAlignment | intros ? ? ?]
  | |- builds _ _ (bind _ _) => apply builds_bind; [| intros ? ? ? ?]
  | |- builds _ _ (CastInst_Create _ _ _) => apply builds_CastInst_Create; usable_arg
  | |- builds _ _ (CreateCast _ _ _) => apply builds_CreateCast; usable_arg
  | |- builds _ _ (CreateZExtOrBitCast _ _) => apply builds_CreateZExtOrBitCast; usable_arg
  | |- builds _ _ (CreateLoad _) => apply builds_CreateLoad; usable_arg
  | |- builds _ _ (CreateExtractElement _ _) => apply builds_CreateExtractElement; usable_arg
  | |- builds _ _ (CreateInsertElement _ _ _) => apply builds_CreateInsertElement; usable_arg
  | |- builds _ _ (CreateBinOp _ _ _) => apply builds_CreateBinOp; usable_arg
  | |- builds _ _ (CreateICmp _ _ _) => apply builds_CreateICmp; usable_arg
  | |- builds _ _ (CreateSelect _ _ _) => apply builds_CreateSelect; usable_arg
  | |- builds _ _ (CreateCall _ _) => apply builds_CreateCall
  | |- builds _ _ (getImplicitArg _ _ _) => apply builds_getImplicitArg
  | |- builds _ _ (getArgOperand _ _) => apply builds_getArgOperand
  | |- builds _ _ (if ?c then _ else _) => destruct c
  end.

Ltac builds_prep :=
  cbv zeta;
  unfold callGetR0, CreateMul, CreateAdd, CreateLShr, CreateZExt, CreateTrunc, CreateIntToPtr,
    CreateBitCast, CmpInst_Create, SelectInst_Create, BinaryOperator_CreateAdd,
    ExtractElementInst_Create;
  unfold CreateAdd, getInt64, getInt32, getIntN.

Lemma builds_copyBytes (CI : Instruction) (n : nat) (I O A : Z) (b v : Value)
    (lp : list Instruction) :
  usable CI lp b -> usable CI lp v -> builds CI lp (copyBytes n I O A b v).
Proof.
  revert I v lp. induction n as [| n IH]; intros I v lp Hb Hv; cbn [copyBytes].
  - apply builds_ret. exact Hv.
  - builds_prep. repeat builds1. apply IH; usable_arg.
Qed.

Lemma builds_truncLanes (CI : Instruction) (lanes : list Z) (ld : Value) (t : Ty)
    (u : Value) (lp : list Instruction) :
  usable CI lp ld -> usable CI lp u -> builds CI lp (truncLanes lanes ld t u).
Proof.
  revert u lp. induction lanes as [| i lanes IH]; intros u lp Hld Hu; cbn [truncLanes].
  - apply builds_ret. exact Hu.
  - builds_prep. repeat builds1. apply IH; usable_arg.
Qed.

Lemma builds_BuildLoadInst (CI : Instruction) (F : Function) (O : Z) (T : Ty)
    (lp : list Instruction) :
  builds CI lp (BuildLoadInst F O T).
Proof.
  unfold BuildLoadInst. builds_prep.
  repeat lazymatch goal with
         | |- builds _ _ (copyBytes _ _ _ _ _ _) => apply builds_copyBytes; usable_arg
         | |- _ => builds1
         end.
Qed.

Ltac builds_handler :=
  builds_prep;
  repeat lazymatch goal with
         | |- builds _ _ (BuildLoadInst _ _ _) => apply builds_BuildLoadInst
         | |- builds _ _ (truncLanes _ _ _ _) => apply builds_truncLanes; usable_arg
         | |- _ => builds1
         end.

Lemma builds_resolveCall (this : WIFuncResolution) (F : Function) (CI : Instruction)
    (name : string) (handler : M Value) (lp : list Instruction) :
  resolveCall this F CI name = Some handler -> builds CI lp handler.
Proof.
  unfold resolveCall.
  repeat match goal with
         | |- context [String.eqb name ?c] => destruct (String.eqb name c)
         end;
    intros H; try discriminate; injection H as <-.
  - unfold getLocalId. builds_handler.
  - unfold getLocalId. builds_handler.
  - unfold getLocalId. builds_handler.
  - unfold getGroupId. builds_handler.
  - unfold getLocalThreadId. builds_handler.
  - unfold getGlobalSize. builds_handler.
  - unfold getLocalSize. builds_handler.
  - unfold getEnqueuedLocalSize. builds_handler.
  - unfold getGlobalOffset. builds_handler.
  - unfold getWorkDim. builds_handler.
  - unfold getNumGroups. builds_handler.
  - unfold getStageInGridOrigin. builds_handler.
  - unfold getStageInGridSize. builds_handler.
  - unfold getSyncBufferPtr. builds_handler.
Qed.

Lemma builds_adaptWidth (CI : Instruction) (v : Value) (lp : list Instruction) :
  usable CI lp v -> builds CI lp (adaptWidth CI v).
Proof.
  intros Hv. unfold adaptWidth.
  destruct (getScalarSizeInBits (getType v) <? getScalarSizeInBits (inst_ty CI));
    repeat builds1.
Qed.

(** The operands of a whole lowering. *)
Lemma lowering_tidy (s : nat) (this : WIFuncResolution) (F : Function) (CI : Instruction)
    (name : string) (handler : M Value) (w : Value) (B : IRBuilder) :
  resolveCall this F CI name = Some handler ->
  (wiRes <- handler ;; adaptWidth CI wiRes) (mkBuilder s []) = Ok (w, B) ->
  tidy CI (inserted B) /\ usable CI (inserted B) w.
Proof.
  intros ER E.
  assert (Hb : builds CI [] (wiRes <- handler ;; adaptWidth CI wiRes)).
  { apply builds_bind.
    - exact (builds_resolveCall this F CI name handler [] ER).
    - intros a l1 _ Ha. apply builds_adaptWidth. exact Ha. }
  destruct (Hb (mkBuilder s []) w B) as [Ht [_ Hw]].
  - apply grows_refl.
  - intros i v [].
  - exact E.
  - split; assumption.
Qed.

(** ** The driver: what a visit does to the body *)

Lemma isQueryCall_subst (a b : Value) (i : Instruction) :
  isQueryCall (mkInst (inst_id i) (substOpcode a b (inst_op i)) (inst_ty i)) = isQueryCall i.
Proof. unfold isQueryCall. cbn [inst_op]. destruct (inst_op i); reflexivity. Qed.

Lemma ids_substUses (a b : Value) (body : list Instruction) :
  ids (substUses a b body) = ids body.
Proof.
  unfold ids, substUses. rewrite map_map. apply map_ext. reflexivity.
Qed.

Lemma in_substUses (a b : Value) (body : list Instruction) (i : Instruction) :
  In i (substUses a b body) ->
  exists i0, In i0 body /\ inst_id i0 = inst_id i /\ inst_ty i0 = inst_ty i /\
             isQueryCall i0 = isQueryCall i.
Proof.
  unfold substUses. intros H. apply in_map_iff in H.
  destruct H as [i0 [<- Hin]]. exists i0. repeat split; try assumption.
  symmetry. apply isQueryCall_subst.
Qed.

Lemma freshId_gt (F : Function) (i : Instruction) :
  In i (fn_body F) -> (inst_id i < freshId F)%nat.
Proof.
  unfold freshId. induction (fn_body F) as [| x l IH]; cbn [map fold_right In].
  - contradiction.
  - intros [-> | H]; [lia | specialize (IH H); lia].
Qed.

Lemma ids_unique (body : list Instruction) (a b : Instruction) :
  NoDup (ids body) -> In a body -> In b body -> inst_id a = inst_id b -> a = b.
Proof.
  unfold ids. induction body as [| x l IH]; cbn [map In]; [contradiction |].
  intros Hnd Ha Hb E. inversion Hnd as [| ? ? Hx Hl]; subst.
  destruct Ha as [-> | Ha], Hb as [-> | Hb].
  - reflexivity.
  - exfalso. apply Hx. rewrite E. apply in_map. exact Hb.
  - exfalso. apply Hx. rewrite <- E. apply in_map. exact Ha.
  - apply IH; assumption.
Qed.

Lemma find_split (body : list Instruction) (id : nat) (CI : Instruction) :
  NoDup (ids body) ->
  find (fun i => Nat.eqb (inst_id i) id) body = Some CI ->
  exists pre post,
    body = pre ++ CI :: post /\ inst_id CI = id /\
    ~ In id (ids pre) /\ ~ In id (ids post).
Proof.
  intros Hnd Hf. apply find_some in Hf. destruct Hf as [Hin Heq].
  apply Nat.eqb_eq in Heq. apply in_split in Hin. destruct Hin as [pre [post ->]].
  exists pre, post. unfold ids in *. rewrite map_app in Hnd. cbn [map] in Hnd.
  apply NoDup_remove_2 in Hnd. rewrite Heq in Hnd.
  repeat split; try assumption; intros H; apply Hnd; apply in_or_app; [left | right]; exact H.
Qed.

Lemma flat_map_other (cid : nat) (new l : list Instruction) (CI : Instruction) :
  inst_id CI = cid -> ~ In cid (ids l) -> insertBefore CI new l = l.
Proof.
  intros <-. unfold insertBefore, ids. induction l as [| x l IH]; cbn [flat_map map In].
  - reflexivity.
  - intros H. destruct (Nat.eqb (inst_id x) (inst_id CI)) eqn:E.
    + apply Nat.eqb_eq in E. exfalso. apply H. left. exact E.
    + cbn [app]. f_equal. apply IH. intros H'. apply H. right. exact H'.
Qed.

Lemma erase_other (cid : nat) (l : list Instruction) (CI : Instruction) :
  inst_id CI = cid -> ~ In cid (ids l) -> eraseFromParent CI l = l.
Proof.
  intros <-. unfold eraseFromParent, ids. induction l as [| x l IH]; cbn [filter map In].
  - reflexivity.
  - intros H. destruct (Nat.eqb (inst_id x) (inst_id CI)) eqn:E.
    + apply Nat.eqb_eq in E. exfalso. apply H. left. exact E.
    + cbn [negb]. f_equal. apply IH. intros H'. apply H. right. exact H'.
Qed.

(** The body after a call is rewired: what stood before the call, the
    new instructions, what stood after it, all with the call's uses
    replaced; the call itself is gone. *)
Lemma rewired_body (F : Function) (CI : Instruction) (w : Value)
    (new pre post : list Instruction) :
  fn_body F = pre ++ CI :: post ->
  ~ In (inst_id CI) (ids pre) -> ~ In (inst_id CI) (ids post) ->
  ~ In (inst_id CI) (ids new) ->
  let R := substUses (valueOf CI) w in
  fn_body (rewired F CI w new) = R pre ++ R new ++ R post.
Proof.
  intros Hb Hpre Hpost Hnew R. unfold rewired. cbn [fn_body set_body]. rewrite Hb.
  assert (Hins : insertBefore CI new (pre ++ CI :: post) = pre ++ new ++ CI :: post).
  { unfold insertBefore at 1. rewrite flat_map_app. cbn [flat_map].
    rewrite Nat.eqb_refl.
    fold (insertBefore CI new pre). fold (insertBefore CI new post).
    rewrite (flat_map_other (inst_id CI)), (flat_map_other (inst_id CI)) by (reflexivity || assumption).
    rewrite <- !app_assoc. reflexivity. }
  rewrite Hins. fold R.
  unfold R at 1, substUses. rewrite !map_app. cbn [map].
  fold (substUses (valueOf CI) w pre). fold (substUses (valueOf CI) w new).
  fold (substUses (valueOf CI) w post). fold R.
  unfold eraseFromParent. rewrite !filter_app. cbn [filter inst_id].
  rewrite Nat.eqb_refl. cbn [negb].
  fold (eraseFromParent CI (R pre)). fold (eraseFromParent CI (R new)).
  fold (eraseFromParent CI (R post)).
  rewrite !(erase_other (inst_id CI)); try reflexivity;
    unfold R; rewrite ids_substUses; assumption.
Qed.

Lemma split_at (body : list Instruction) (CI : Instruction) :
  NoDup (ids body) -> In CI body ->
  exists pre post,
    body = pre ++ CI :: post /\
    ~ In (inst_id CI) (ids pre) /\ ~ In (inst_id CI) (ids post).
Proof.
  intros Hnd Hin. apply in_split in Hin. destruct Hin as [pre [post ->]].
  exists pre, post. unfold ids in *. rewrite map_app in Hnd. cbn [map] in Hnd.
  apply NoDup_remove_2 in Hnd.
  repeat split; intros H; apply Hnd; apply in_or_app; [left | right]; exact H.
Qed.

(** What [visitCallInst] does to a function: nothing unless the
    instruction is a query call; then the call is replaced by the
    instructions its handler inserted. *)
Lemma visitCallInst_cases (this this' : WIFuncResolution) (F F' : Function)
    (CI : Instruction) :
  NoDup (ids (fn_body F)) -> In CI (fn_body F) ->
  visitCallInst this F CI = Ok (this', F') ->
  (isQueryCall CI = false /\ this' = this /\ F' = F) \/
  (isQueryCall CI = true /\ this' = set_changed this true /\
   exists pre post new w,
     fn_body F = pre ++ CI :: post /\
     ~ In (inst_id CI) (ids pre) /\ ~ In (inst_id CI) (ids post) /\
     fn_body F' = substUses (valueOf CI) w pre ++
                  substUses (valueOf CI) w new ++
                  substUses (valueOf CI) w post /\
     ids new = seq (freshId F) (List.length new) /\
     forallb (fun i => negb (isQueryCall i)) new = true /\
     fn_args F' = fn_args F /\ fn_attrs F' = fn_attrs F /\ fn_parent F' = fn_parent F /\
     newer (freshId F) w /\ tidy CI new /\ usable CI new w).
Proof.
  intros Hnd Hin. unfold visitCallInst.
  destruct (inst_op CI) as [[| name |] args | | | | | | | |] eqn:Eop;
    try (intros H; injection H as <- <-; left; unfold isQueryCall; rewrite Eop; auto).
  assert (Hq : isQueryCall CI = isWIFunc name) by (unfold isQueryCall; rewrite Eop; reflexivity).
  rewrite (resolveCall_isWIFunc this F CI name) in Hq.
  destruct (resolveCall this F CI name) as [handler |] eqn:ER.
  2:{ intros H; injection H as <- <-. left. auto. }
  destruct ((wiRes <- handler;; adaptWidth CI wiRes) (mkBuilder (freshId F) []))
    as [[w B] | |] eqn:EH; try discriminate.
  destruct (rewire F CI w (inserted B)) as [F1 | |] eqn:ERW; try discriminate.
  apply rewire_ok in ERW. destruct ERW as [_ ->].
  intros H. injection H as <- <-. right.
  destruct (lowering_fresh (freshId F) this F CI name handler w B ER EH) as [HB Hw].
  destruct HB as [Hids [Hle Hnq]].
  destruct (split_at _ _ Hnd Hin) as [pre [post [Hb [Hpre Hpost]]]].
  assert (Hnew : ~ In (inst_id CI) (ids (inserted B))).
  { unfold ids. rewrite Hids. intros Hs. apply in_seq in Hs.
    pose proof (freshId_gt F CI Hin). lia. }
  split; [exact Hq |]. split; [reflexivity |].
  exists pre, post, (inserted B), w.
  split; [exact Hb |]. split; [exact Hpre |]. split; [exact Hpost |].
  split; [apply rewired_body; assumption |].
  split.
  { unfold ids. rewrite Hids. f_equal.
    rewrite <- (length_map inst_id), Hids, length_seq. reflexivity. }
  split; [exact Hnq |].
  destruct (lowering_tidy (freshId F) this F CI name handler w B ER EH) as [Ht Hu].
  repeat split; assumption.
Qed.


Lemma existsb_ext_in {A : Type} (f g : A -> bool) (l : list A) :
  (forall x, In x l -> f x = g x) -> existsb f l = existsb g l.
Proof.
  induction l as [| x l IH]; cbn [existsb In]; intros H; [reflexivity |].
  rewrite (H x) by (left; reflexivity). rewrite IH; [reflexivity |].
  intros y Hy. apply H. right. exact Hy.
Qed.

(** The visit of the instructions numbered [l]. *)
Lemma visitAll_spec (l : list nat) (this this' : WIFuncResolution) (F F' : Function) :
  NoDup (ids (fn_body F)) ->
  visitAll l this F = Ok (this', F') ->
  NoDup (ids (fn_body F')) /\
  (forall i, In i (fn_body F') -> isQueryCall i = true ->
             exists i0, In i0 (fn_body F) /\ isQueryCall i0 = true /\
                        inst_id i0 = inst_id i /\ ~ In (inst_id i) l) /\
  m_changed this' =
    m_changed this || existsb (fun i => isQueryCall i && mem_id l i) (fn_body F) /\
  fn_args F' = fn_args F /\ fn_attrs F' = fn_attrs F /\ fn_parent F' = fn_parent F.
Proof.
  revert this F. induction l as [| id l IH]; intros this F Hnd; cbn [visitAll].
  - intros H. injection H as <- <-. split; [exact Hnd |]. split.
    + intros i Hi Hq. exists i. auto.
    + split; [| auto].
      replace (existsb (fun i => isQueryCall i && mem_id [] i) (fn_body F)) with false.
      * rewrite orb_false_r. reflexivity.
      * symmetry. clear. induction (fn_body F) as [| x b IHb]; cbn [existsb]; [reflexivity |].
        unfold mem_id at 1. cbn [existsb]. rewrite andb_false_r. cbn [orb].
        exact IHb.
  - destruct (find (fun I => Nat.eqb (inst_id I) id) (fn_body F)) as [CI |] eqn:Ef.
    + pose proof (find_some _ _ Ef) as [HinCI Hid]. apply Nat.eqb_eq in Hid.
      destruct (visitCallInst this F CI) as [[this1 F1] | |] eqn:EV; try discriminate.
      intros HA.
      destruct (visitCallInst_cases this this1 F F1 CI Hnd HinCI EV)
        as [[Hq [-> ->]] | [Hq [-> [pre [post [new [w [Hb [Hpre [Hpost [Hb1 [Hnids [Hnq [Ha0 [Ha1 [Ha2 _]]]]]]]]]]]]]]]];
        [| pose proof (conj Ha0 (conj Ha1 Ha2)) as Hsig].
      * (* not a query call: nothing changed *)
        destruct (IH this F Hnd HA) as [H1 [H2 [H3 H4]]].
        split; [exact H1 |]. split; [| split; [| exact H4]].
        -- intros i Hi Hqi. destruct (H2 i Hi Hqi) as [i0 [Hi0 [Hq0 [He Hn]]]].
           exists i0. repeat split; try assumption.
           cbn [In]. intros [Hh | Ht]; [| contradiction].
           assert (i0 = CI) by (apply (ids_unique (fn_body F)); try assumption; lia).
           subst i0. congruence.
        -- rewrite H3. f_equal. apply existsb_ext_in. intros x Hx.
           destruct (isQueryCall x) eqn:Hqx; [| reflexivity]. cbn [andb].
           unfold mem_id. cbn [existsb].
           destruct (Nat.eqb (inst_id x) id) eqn:Ex; [| reflexivity].
           apply Nat.eqb_eq in Ex.
           assert (x = CI) by (apply (ids_unique (fn_body F)); try assumption; lia).
           subst x. congruence.
      * (* a query call: rewired *)
        assert (Hnd1 : NoDup (ids (fn_body F1))).
        { rewrite Hb1. unfold ids. rewrite !map_app.
          fold (ids (substUses (valueOf CI) w pre)).
          fold (ids (substUses (valueOf CI) w new)).
          fold (ids (substUses (valueOf CI) w post)).
          rewrite !ids_substUses. rewrite Hnids.
          rewrite Hb in Hnd. unfold ids in Hnd. rewrite map_app in Hnd. cbn [map] in Hnd.
          apply NoDup_remove_1 in Hnd.
          assert (Hlt : forall k, In k (ids pre ++ ids post) -> (k < freshId F)%nat).
          { intros k Hk. unfold ids in Hk. rewrite <- map_app in Hk.
            apply in_map_iff in Hk. destruct Hk as [x [<- Hx]].
            apply freshId_gt. rewrite Hb. apply in_app_or in Hx.
            apply in_or_app. destruct Hx; [left | right; right]; assumption. }
          fold (ids pre) in Hnd. fold (ids post) in Hnd.
          clear - Hnd Hlt. revert Hnd Hlt.
          generalize (ids pre) as a, (ids post) as b, (freshId F) as s,
            (List.length new) as n.
          intros a b s n Hnd Hlt.
          induction a as [| x a IHa]; cbn [app] in *.
          - apply NoDup_app; [apply seq_NoDup | exact Hnd |].
            intros k Hk1 Hk2. apply in_seq in Hk1. specialize (Hlt k Hk2). lia.
          - inversion Hnd as [| ? ? Hx Hr]; subst. constructor.
            + intros Hin. apply in_app_or in Hin. destruct Hin as [Hin | Hin].
              * apply Hx. apply in_or_app. left. exact Hin.
              * apply in_app_or in Hin. destruct Hin as [Hin | Hin].
                -- apply in_seq in Hin. specialize (Hlt x (or_introl eq_refl)). lia.
                -- apply Hx. apply in_or_app. right. exact Hin.
            + apply IHa; [exact Hr |]. intros k Hk. apply Hlt. right. exact Hk. }
        destruct (IH (set_changed this true) F1 Hnd1 HA) as [H1 [H2 [H3 H4]]].
        split; [exact H1 |]. split; [| split].
        -- intros i Hi Hqi. destruct (H2 i Hi Hqi) as [i1 [Hi1 [Hq1 [He Hn]]]].
           rewrite Hb1 in Hi1.
           assert (Hcase : exists i0, (In i0 pre \/ In i0 post) /\ inst_id i0 = inst_id i1 /\
                                      isQueryCall i0 = true).
           { apply in_app_or in Hi1. destruct Hi1 as [Hi1 | Hi1].
             - apply in_substUses in Hi1. destruct Hi1 as [i0 [? [? [? Hqq]]]].
               exists i0. repeat split; auto. congruence.
             - apply in_app_or in Hi1. destruct Hi1 as [Hi1 | Hi1].
               + exfalso. apply in_substUses in Hi1.
                 destruct Hi1 as [i0 [Hin0 [_ [_ Hqq]]]].
                 rewrite forallb_forall in Hnq. specialize (Hnq i0 Hin0).
                 rewrite Hqq, Hq1 in Hnq. discriminate.
               + apply in_substUses in Hi1. destruct Hi1 as [i0 [? [? [? Hqq]]]].
                 exists i0. repeat split; auto. congruence. }
           destruct Hcase as [i0 [Hin0 [Hid0 Hq0]]].
           exists i0. split.
           { rewrite Hb. apply in_or_app. destruct Hin0; [left | right; right]; assumption. }
           split; [exact Hq0 |]. split; [congruence |].
           cbn [In]. intros [Hh | Ht]; [| contradiction].
           assert (Hcid : inst_id i0 = inst_id CI) by lia.
           destruct Hin0 as [Hin0 | Hin0].
           ++ apply Hpre. rewrite <- Hcid. apply in_map. exact Hin0.
           ++ apply Hpost. rewrite <- Hcid. apply in_map. exact Hin0.
        -- rewrite H3. cbn [m_changed set_changed orb].
           symmetry. apply orb_true_iff. right. apply existsb_exists.
           exists CI. split; [exact HinCI |]. rewrite Hq. cbn [andb].
           unfold mem_id. cbn [existsb]. rewrite Hid, Nat.eqb_refl. reflexivity.
        -- destruct Hsig as [Ha [Hat Hp]]. destruct H4 as [Ha' [Hat' Hp']].
           repeat split; congruence.
    + (* no instruction bears the number *)
      intros HA. destruct (IH this F Hnd HA) as [H1 [H2 [H3 H4]]].
      split; [exact H1 |]. split; [| split; [| exact H4]].
      * intros i Hi Hqi. destruct (H2 i Hi Hqi) as [i0 [Hi0 [Hq0 [He Hn]]]].
        exists i0. repeat split; try assumption.
        cbn [In]. intros [Hh | Ht]; [| contradiction].
        pose proof (find_none _ _ Ef i0 Hi0) as Hf. cbn beta in Hf.
        apply Nat.eqb_neq in Hf. lia.
      * rewrite H3. f_equal. apply existsb_ext_in. intros x Hx.
        destruct (isQueryCall x); [| reflexivity]. cbn [andb].
        unfold mem_id. cbn [existsb].
        pose proof (find_none _ _ Ef x Hx) as Hf. cbn beta in Hf. rewrite Hf. reflexivity.
Qed.

Lemma visit_spec (ctx : CodeGenContext) (MD : MetaDataUtils) (F F1 : Function)
    (this1 : WIFuncResolution) :
  NoDup (ids (fn_body F)) ->
  visit (mkPass (md_implicitArgs MD) false ctx) F = Ok (this1, F1) ->
  NoDup (ids (fn_body F1)) /\
  (forall i, In i (fn_body F1) -> isQueryCall i = false) /\
  m_changed this1 = existsb isQueryCall (fn_body F) /\
  fn_args F1 = fn_args F /\ fn_attrs F1 = fn_attrs F /\ fn_parent F1 = fn_parent F.
Proof.
  intros Hnd HV. unfold visit in HV.
  destruct (visitAll_spec _ _ _ _ _ Hnd HV) as [H1 [H2 [H3 H4]]].
  split; [exact H1 |]. split; [| split; [| exact H4]].
  - intros i Hi. destruct (isQueryCall i) eqn:Hq; [| reflexivity].
    destruct (H2 i Hi Hq) as [i0 [Hi0 [_ [He Hn]]]].
    exfalso. apply Hn. rewrite <- He. apply in_map. exact Hi0.
  - rewrite H3. cbn [m_changed orb]. apply existsb_ext_in. intros x Hx.
    replace (mem_id (map inst_id (fn_body F)) x) with true; [apply andb_true_r |].
    symmetry. unfold mem_id. apply existsb_exists. exists (inst_id x).
    split; [apply in_map; exact Hx | apply Nat.eqb_refl].
Qed.

(** What [runOnFunction] leaves and returns, for a function whose
    instructions bear different numbers. *)
Lemma runOnFunction_spec (ctx : CodeGenContext) (MD : MetaDataUtils) (F F' : Function)
    (b : bool) :
  NoDup (ids (fn_body F)) ->
  runOnFunction ctx MD F = Ok (b, F') ->
  NoDup (ids (fn_body F')) /\
  (forall i, In i (fn_body F') -> isQueryCall i = false) /\
  b = existsb isQueryCall (fn_body F) /\
  fn_args F' = fn_args F /\ fn_attrs F' = fn_attrs F /\ fn_parent F' = fn_parent F.
Proof.
  intros Hnd. unfold runOnFunction.
  destruct (visit (mkPass (md_implicitArgs MD) false ctx) F) as [[this1 F1] | |] eqn:HV;
    try discriminate.
  destruct (visit_spec ctx MD F F1 this1 Hnd HV) as [H1 [H2 [H3 H4]]].
  assert (Hsame : forall F'', Ok (m_changed this1, F1) = Ok (b, F'') ->
            NoDup (ids (fn_body F'')) /\
            (forall i, In i (fn_body F'') -> isQueryCall i = false) /\
            b = existsb isQueryCall (fn_body F) /\
            fn_args F'' = fn_args F /\ fn_attrs F'' = fn_attrs F /\
            fn_parent F'' = fn_parent F).
  { intros F'' H. injection H as <- <-. auto. }
  destruct (getKnownWorkGroupSize MD F1) as [K |]; [| apply Hsame].
  destruct (ImplicitArgs_getImplicitArg (m_implicitArgs this1) F1 ENQUEUED_LOCAL_WORK_SIZE)
    as [[Arg |] | |]; try discriminate; [| apply Hsame].
  destruct (replaceAllUsesWith Arg K (fn_body F1)) as [body | |] eqn:ER; try discriminate.
  apply replaceAllUsesWith_ok in ER. destruct ER as [_ ->].
  intros H. injection H as <- <-. cbn [fn_body set_body fn_args fn_attrs fn_parent].
  split; [rewrite ids_substUses; exact H1 |].
  split; [| split; [exact H3 | exact H4]].
  intros i Hi. apply in_substUses in Hi.
  destruct Hi as [i0 [Hi0 [_ [_ Hq]]]]. rewrite <- Hq. apply H2. exact Hi0.
Qed.

(** ** Calls the pass does not know *)

Lemma visitCallInst_other (this : WIFuncResolution) (F : Function) (CI : Instruction) :
  isQueryCall CI = false -> visitCallInst this F CI = Ok (this, F).
Proof.
  unfold isQueryCall, visitCallInst.
  destruct (inst_op CI) as [[| name |] args | | | | | | | |]; try reflexivity.
  rewrite (resolveCall_isWIFunc this F CI name).
  destruct (resolveCall this F CI name); [discriminate | reflexivity].
Qed.

Lemma visitAll_other (l : list nat) (this : WIFuncResolution) (F : Function) :
  (forall i, In i (fn_body F) -> isQueryCall i = false) ->
  visitAll l this F = Ok (this, F).
Proof.
  intros H. induction l as [| id l IH]; cbn [visitAll]; [reflexivity |].
  destruct (find (fun I => Nat.eqb (inst_id I) id) (fn_body F)) as [CI |] eqn:Ef.
  - apply find_some in Ef. destruct Ef as [Hin _].
    rewrite (visitCallInst_other this F CI (H CI Hin)). exact IH.
  - exact IH.
Qed.

(** ** The pass as a whole *)

Ltac nodup_ids :=
  unfold ids; simpl; repeat constructor; simpl; intuition lia.

(** X1.  After [runOnFunction] no call of a work-item query is left in the
    function: every instruction of the result is something else than a
    call by name of one of the fourteen queries. *)
Theorem runOnFunction_resolves_every_query (ctx : CodeGenContext) (MD : MetaDataUtils)
    (F F' : Function) (b : bool) :
  NoDup (ids (fn_body F)) ->
  runOnFunction ctx MD F = Ok (b, F') ->
  forall i, In i (fn_body F') -> isQueryCall i = false.
Proof.
  intros Hnd H. apply (runOnFunction_spec ctx MD F F' b Hnd H).
Qed.

Lemma runOnFunction_resolves_every_query_witness :
  isQueryCall (mkInst 2 (OtherInst [VArg 3 Int32Ty; VInst 6 Int32Ty]) Int32Ty) = false.
Proof.
  apply (runOnFunction_resolves_every_query (mkCtx 32) sampleMD sampleKernel
           sampleKernel_resolved true);
    [nodup_ids | vm_compute; reflexivity | simpl; auto 10].
Defined.

(** X2.  The flag [runOnFunction] returns says whether the function had a
    call of a work-item query: the pass reports a change exactly when it
    rewrote a call. *)
Theorem runOnFunction_reports_query_calls (ctx : CodeGenContext) (MD : MetaDataUtils)
    (F F' : Function) (b : bool) :
  NoDup (ids (fn_body F)) ->
  runOnFunction ctx MD F = Ok (b, F') ->
  b = existsb isQueryCall (fn_body F).
Proof.
  intros Hnd H. apply (runOnFunction_spec ctx MD F F' b Hnd H).
Qed.

Lemma runOnFunction_reports_query_calls_witness :
  true = existsb isQueryCall (fn_body sampleKernel).
Proof.
  apply (runOnFunction_reports_query_calls (mkCtx 32) sampleMD sampleKernel
           sampleKernel_resolved true);
    [nodup_ids | vm_compute; reflexivity].
Defined.

(** X3.  [runOnFunction] keeps the function well formed: the instructions
    of the result still bear different numbers, and the formal parameters,
    the attributes and the module are those of the function given. *)
Theorem runOnFunction_keeps_function_shape (ctx : CodeGenContext) (MD : MetaDataUtils)
    (F F' : Function) (b : bool) :
  NoDup (ids (fn_body F)) ->
  runOnFunction ctx MD F = Ok (b, F') ->
  NoDup (ids (fn_body F')) /\
  fn_args F' = fn_args F /\ fn_attrs F' = fn_attrs F /\ fn_parent F' = fn_parent F.
Proof.
  intros Hnd H.
  destruct (runOnFunction_spec ctx MD F F' b Hnd H) as [H1 [_ [_ H4]]].
  split; assumption.
Qed.

Lemma runOnFunction_keeps_function_shape_witness :
  NoDup (ids (fn_body sampleKernel_resolved)) /\
  fn_args sampleKernel_resolved = fn_args sampleKernel /\
  fn_attrs sampleKernel_resolved = fn_attrs sampleKernel /\
  fn_parent sampleKernel_resolved = fn_parent sampleKernel.
Proof.
  apply (runOnFunction_keeps_function_shape (mkCtx 32) sampleMD sampleKernel
           sampleKernel_resolved true);
    [nodup_ids | vm_compute; reflexivity].
Defined.

(** X4.  [visitCallInst] leaves alone whatever is not a call by name of one
    of the fourteen queries: an indirect call, a call of an intrinsic, a
    call of any other function, an instruction that is not a call.  Neither
    the function nor the changed flag is touched. *)
Theorem visitCallInst_leaves_other_instructions (this : WIFuncResolution) (F : Function)
    (CI : Instruction) :
  isQueryCall CI = false -> visitCallInst this F CI = Ok (this, F).
Proof. apply visitCallInst_other. Qed.

Lemma visitCallInst_leaves_other_instructions_witness :
  visitCallInst (samplePass []) plainKernel
    (call 0 "user_function" [VArg 0 Int32Ty] Int32Ty) = Ok (samplePass [], plainKernel).
Proof.
  apply (visitCallInst_leaves_other_instructions (samplePass []) plainKernel
           (call 0 "user_function" [VArg 0 Int32Ty] Int32Ty)).
  reflexivity.
Defined.

Lemma existsb_false_in {A : Type} (p : A -> bool) (l : list A) :
  existsb p l = false -> forall x, In x l -> p x = false.
Proof.
  intros H x Hx. destruct (p x) eqn:E; [| reflexivity].
  rewrite <- H. symmetry. apply existsb_exists. exists x. auto.
Qed.

(** X5.  On a function with no query call and no known work-group size
    [runOnFunction] returns false and the function itself. *)
Theorem runOnFunction_without_queries (ctx : CodeGenContext) (MD : MetaDataUtils)
    (F : Function) :
  existsb isQueryCall (fn_body F) = false ->
  md_threadGroupDims MD = None ->
  runOnFunction ctx MD F = Ok (false, F).
Proof.
  intros Hq Hd. unfold runOnFunction, visit.
  rewrite visitAll_other by (apply existsb_false_in; exact Hq).
  unfold getKnownWorkGroupSize. rewrite Hd. reflexivity.
Qed.

Lemma runOnFunction_without_queries_witness :
  runOnFunction (mkCtx 32) sampleMD plainKernel = Ok (false, plainKernel).
Proof.
  apply (runOnFunction_without_queries (mkCtx 32) sampleMD plainKernel); reflexivity.
Defined.

(** ** A kernel without its hidden arguments *)

Lemma bind_fatal {A B : Type} (m : M A) (k : A -> M B) (st : IRBuilder) (msg : string) :
  m st = Fatal msg -> bind m k st = Fatal msg.
Proof. intros H. unfold bind. rewrite H. reflexivity. Qed.

Lemma resolveCall_fatal (this : WIFuncResolution) (F : Function) (CI : Instruction)
    (name : string) (handler : M Value) (st : IRBuilder) :
  hasStackCallAttr F = false ->
  ImplicitArgs.size (m_implicitArgs this) < 2 ^ 32 ->
  arg_size F < ImplicitArgs.size (m_implicitArgs this) ->
  resolveCall this F CI name = Some handler ->
  handler st = Fatal "Function arg size does not match meta data args.".
Proof.
  intros HS HN HP. unfold resolveCall.
  repeat match goal with
         | |- context [String.eqb name ?c] => destruct (String.eqb name c)
         end;
    intros H; try discriminate; injection H as <-;
    unfold getLocalId, getGroupId, getLocalThreadId, getGlobalSize, getLocalSize,
      getEnqueuedLocalSize, getGlobalOffset, getWorkDim, getNumGroups,
      getStageInGridOrigin, getStageInGridSize, getSyncBufferPtr;
    rewrite ?HS; apply bind_fatal; apply getImplicitArg_fatal; assumption.
Qed.

Lemma visitCallInst_fatal (this : WIFuncResolution) (F : Function) (CI : Instruction) :
  isQueryCall CI = true ->
  hasStackCallAttr F = false ->
  ImplicitArgs.size (m_implicitArgs this) < 2 ^ 32 ->
  arg_size F < ImplicitArgs.size (m_implicitArgs this) ->
  visitCallInst this F CI = Fatal "Function arg size does not match meta data args.".
Proof.
  intros Hq HS HN HP. unfold isQueryCall in Hq. unfold visitCallInst.
  destruct (inst_op CI) as [[| name |] args | | | | | | | |]; try discriminate.
  rewrite (resolveCall_isWIFunc this F CI name) in Hq.
  destruct (resolveCall this F CI name) as [handler |] eqn:ER; [| discriminate].
  rewrite (bind_fatal handler _ _ _ (resolveCall_fatal this F CI name handler _ HS HN HP ER)).
  reflexivity.
Qed.

Lemma visitAll_fatal (l : list nat) (this : WIFuncResolution) (F : Function)
    (CI : Instruction) :
  NoDup (ids (fn_body F)) ->
  In CI (fn_body F) -> isQueryCall CI = true -> In (inst_id CI) l ->
  hasStackCallAttr F = false ->
  ImplicitArgs.size (m_implicitArgs this) < 2 ^ 32 ->
  arg_size F < ImplicitArgs.size (m_implicitArgs this) ->
  visitAll l this F = Fatal "Function arg size does not match meta data args.".
Proof.
  intros Hnd Hin Hq Hl HS HN HP.
  induction l as [| id l IH]; cbn [visitAll]; [contradiction |].
  destruct (find (fun i => Nat.eqb (inst_id i) id) (fn_body F)) as [CI' |] eqn:Ef.
  - destruct (isQueryCall CI') eqn:Hq'.
    + rewrite (visitCallInst_fatal this F CI' Hq' HS HN HP). reflexivity.
    + rewrite (visitCallInst_other this F CI' Hq'). apply IH.
      destruct Hl as [E | Hl]; [| exact Hl]. exfalso.
      apply find_some in Ef. destruct Ef as [Hin' E']. apply Nat.eqb_eq in E'.
      assert (CI' = CI) by (apply (ids_unique (fn_body F)); congruence).
      congruence.
  - apply IH. destruct Hl as [E | Hl]; [| exact Hl]. exfalso.
    apply (find_none _ _ Ef CI) in Hin. rewrite E, Nat.eqb_refl in Hin. discriminate.
Qed.

(** X6.  A query call in a function that is not a stack call and has fewer
    formal parameters than the metadata lists hidden arguments makes
    [visitCallInst] abort, whichever of the fourteen queries it is. *)
Theorem visitCallInst_aborts_without_hidden_arguments (this : WIFuncResolution)
    (F : Function) (CI : Instruction) :
  isQueryCall CI = true ->
  hasStackCallAttr F = false ->
  ImplicitArgs.size (m_implicitArgs this) < 2 ^ 32 ->
  arg_size F < ImplicitArgs.size (m_implicitArgs this) ->
  visitCallInst this F CI = Fatal "Function arg size does not match meta data args.".
Proof. apply visitCallInst_fatal. Qed.

Lemma visitCallInst_aborts_without_hidden_arguments_witness :
  visitCallInst (samplePass [R0; WORK_DIM]) bareKernel
    (call 1 WIFuncsAnalysis.GET_GROUP_ID [VConst (ConstantInt 32 0)] Int32Ty) =
  Fatal "Function arg size does not match meta data args.".
Proof.
  apply (visitCallInst_aborts_without_hidden_arguments (samplePass [R0; WORK_DIM]) bareKernel
           (call 1 WIFuncsAnalysis.GET_GROUP_ID [VConst (ConstantInt 32 0)] Int32Ty));
    [reflexivity | reflexivity | vm_compute; reflexivity | vm_compute; reflexivity].
Defined.

(** X7.  So does the whole pass: on a function that is not a stack call,
    has fewer formal parameters than hidden arguments and calls a query
    anywhere, [runOnFunction] aborts; the calls before the first query are
    left as they were and nothing is returned. *)
Theorem runOnFunction_aborts_without_hidden_arguments (ctx : CodeGenContext)
    (MD : MetaDataUtils) (F : Function) :
  NoDup (ids (fn_body F)) ->
  existsb isQueryCall (fn_body F) = true ->
  hasStackCallAttr F = false ->
  ImplicitArgs.size (md_implicitArgs MD) < 2 ^ 32 ->
  arg_size F < ImplicitArgs.size (md_implicitArgs MD) ->
  runOnFunction ctx MD F = Fatal "Function arg size does not match meta data args.".
Proof.
  intros Hnd Hq HS HN HP. apply existsb_exists in Hq. destruct Hq as [CI [Hin Hq]].
  unfold runOnFunction, visit.
  rewrite (visitAll_fatal _ (mkPass (md_implicitArgs MD) false ctx) F CI Hnd Hin Hq);
    [reflexivity | apply in_map; exact Hin | exact HS | exact HN | exact HP].
Qed.

Lemma runOnFunction_aborts_without_hidden_arguments_witness :
  runOnFunction (mkCtx 32) sampleMD bareKernel =
  Fatal "Function arg size does not match meta data args.".
Proof.
  apply (runOnFunction_aborts_without_hidden_arguments (mkCtx 32) sampleMD bareKernel);
    [nodup_ids | reflexivity | reflexivity | vm_compute; reflexivity | vm_compute; reflexivity].
Defined.

(** ** Running the pass again *)

Lemma substValue_twice (m : nat) (t : Ty) (c : Constant) (x : Value) :
  substValue (VArg m t) (VConst c) (substValue (VArg m t) (VConst c) x) =
  substValue (VArg m t) (VConst c) x.
Proof.
  unfold substValue at 1. rewrite substValue_arg_gone. reflexivity.
Qed.

Lemma substUses_twice (m : nat) (t : Ty) (c : Constant) (body : list Instruction) :
  substUses (VArg m t) (VConst c) (substUses (VArg m t) (VConst c) body) =
  substUses (VArg m t) (VConst c) body.
Proof.
  unfold substUses. rewrite map_map. apply map_ext. intros i.
  cbn [inst_id inst_op inst_ty]. f_equal.
  destruct (inst_op i); cbn [substOpcode]; rewrite ?map_map, ?substValue_twice;
    try reflexivity; f_equal; apply map_ext; intros; apply substValue_twice.
Qed.

Lemma ImplicitArgs_getImplicitArg_args (ia : ImplicitArgs.t) (F G : Function) (k : ArgType) :
  fn_args G = fn_args F ->
  ImplicitArgs_getImplicitArg ia G k = ImplicitArgs_getImplicitArg ia F k.
Proof.
  intros E. unfold ImplicitArgs_getImplicitArg, arg_at, arg_size. rewrite E. reflexivity.
Qed.

Lemma set_body_same (F : Function) : set_body F (fn_body F) = F.
Proof. destruct F. reflexivity. Qed.

(** X8.  [runOnFunction] is idempotent: run again on its own result, with
    the same metadata, it returns false and that result unchanged. *)
Theorem runOnFunction_idempotent (ctx : CodeGenContext) (MD : MetaDataUtils)
    (F F' : Function) (b : bool) :
  NoDup (ids (fn_body F)) ->
  runOnFunction ctx MD F = Ok (b, F') ->
  runOnFunction ctx MD F' = Ok (false, F').
Proof.
  intros Hnd H.
  destruct (runOnFunction_spec ctx MD F F' b Hnd H) as [_ [Hnq [_ [Ha _]]]].
  unfold runOnFunction at 1. unfold visit. rewrite (visitAll_other _ _ F' Hnq).
  cbn [m_changed m_implicitArgs].
  unfold runOnFunction in H.
  destruct (visit (mkPass (md_implicitArgs MD) false ctx) F) as [[this1 F1] | |] eqn:HV;
    try discriminate.
  destruct (visit_spec ctx MD F F1 this1 Hnd HV) as [_ [_ [_ [Ha1 _]]]].
  unfold visit in HV. apply visitAll_implicitArgs in HV. cbn [m_implicitArgs] in HV.
  rewrite HV in H.
  unfold getKnownWorkGroupSize in *.
  destruct (md_threadGroupDims MD) as [[[x y] z] |]; [| reflexivity].
  rewrite (ImplicitArgs_getImplicitArg_args _ F1 F') by congruence.
  destruct (ImplicitArgs_getImplicitArg (md_implicitArgs MD) F1 ENQUEUED_LOCAL_WORK_SIZE)
    as [[Arg |] | |] eqn:EA; try discriminate; [| reflexivity].
  destruct (ImplicitArgs_getImplicitArg_is_arg _ _ _ _ EA) as [m [t ->]].
  destruct (replaceAllUsesWith (VArg m t) (VConst (ConstantDataVector 32 [x; y; z]))
              (fn_body F1)) as [body | |] eqn:ER; try discriminate.
  apply replaceAllUsesWith_ok in ER. destruct ER as [HT ->].
  injection H as _ <-. cbn [fn_body set_body].
  rewrite replaceAllUsesWith_typed by exact HT.
  rewrite substUses_twice. reflexivity.
Qed.

Lemma runOnFunction_idempotent_witness :
  runOnFunction (mkCtx 32) sampleMD sampleKernel_resolved = Ok (false, sampleKernel_resolved).
Proof.
  apply (runOnFunction_idempotent (mkCtx 32) sampleMD sampleKernel sampleKernel_resolved true);
    [nodup_ids | vm_compute; reflexivity].
Defined.

(** ** One rewritten call *)

Lemma newer_not_old (F : Function) (w : Value) (j : Instruction) :
  newer (freshId F) w -> In j (fn_body F) -> Value_eqb w (valueOf j) = false.
Proof.
  intros Hw Hj. pose proof (freshId_gt F j Hj) as Hlt.
  destruct w as [id t | |]; try reflexivity.
  unfold valueOf, Value_eqb. cbn [newer] in Hw.
  replace (Nat.eqb id (inst_id j)) with false; [reflexivity |].
  symmetry. apply Nat.eqb_neq. lia.
Qed.

(** X9.  The instructions a lowering inserts are new objects: they are
    numbered consecutively from the first number no instruction of the
    function bears, none of them is itself a query call, each is numbered
    above every instruction of the function, and the value the lowering
    returns is not the result of an instruction the function already had
    (so not the call being replaced). *)
Theorem lowering_inserts_fresh_instructions (this : WIFuncResolution) (F : Function)
    (CI : Instruction) (name : string) (handler : M Value) (w : Value) (B : IRBuilder) :
  resolveCall this F CI name = Some handler ->
  (wiRes <- handler ;; adaptWidth CI wiRes) (mkBuilder (freshId F) []) = Ok (w, B) ->
  ids (inserted B) = seq (freshId F) (List.length (inserted B)) /\
  (forall i, In i (inserted B) -> isQueryCall i = false) /\
  (forall i j, In i (inserted B) -> In j (fn_body F) -> (inst_id j < inst_id i)%nat) /\
  (forall j, In j (fn_body F) -> Value_eqb w (valueOf j) = false).
Proof.
  intros ER EH.
  destruct (lowering_fresh (freshId F) this F CI name handler w B ER EH)
    as [[Hids [Hle Hnq]] Hw].
  assert (Hseq : ids (inserted B) = seq (freshId F) (List.length (inserted B))).
  { unfold ids. rewrite Hids. f_equal.
    rewrite <- (length_map inst_id), Hids, length_seq. reflexivity. }
  split; [exact Hseq |]. split; [| split].
  - intros i Hi. rewrite forallb_forall in Hnq. specialize (Hnq i Hi).
    destruct (isQueryCall i); [discriminate | reflexivity].
  - intros i j Hi Hj. pose proof (freshId_gt F j Hj) as Hlt.
    assert (Hin : In (inst_id i) (ids (inserted B))) by (apply in_map; exact Hi).
    rewrite Hseq in Hin. apply in_seq in Hin. lia.
  - intros j Hj. apply (newer_not_old F); assumption.
Qed.

Lemma lowering_inserts_fresh_instructions_witness :
  let V := VArg 2 (FixedVectorTy Int32Ty 8) in
  let zero := VConst (ConstantInt 32 0) in
  ids (groupIdSequence 3 zero V) = seq (freshId sampleKernel) 4 /\
  (forall i, In i (groupIdSequence 3 zero V) -> isQueryCall i = false) /\
  (forall i j, In i (groupIdSequence 3 zero V) -> In j (fn_body sampleKernel) ->
               (inst_id j < inst_id i)%nat) /\
  (forall j, In j (fn_body sampleKernel) -> Value_eqb (VInst 6 Int32Ty) (valueOf j) = false).
Proof.
  exact (lowering_inserts_fresh_instructions (samplePass [R0; WORK_DIM]) sampleKernel
           (call 1 WIFuncsAnalysis.GET_GROUP_ID [VConst (ConstantInt 32 0)] Int32Ty)
           WIFuncsAnalysis.GET_GROUP_ID
           (getGroupId (samplePass [R0; WORK_DIM]) sampleKernel
              (call 1 WIFuncsAnalysis.GET_GROUP_ID [VConst (ConstantInt 32 0)] Int32Ty))
           (VInst 6 Int32Ty)
           (mkBuilder 7 (groupIdSequence 3 (VConst (ConstantInt 32 0))
                           (VArg 2 (FixedVectorTy Int32Ty 8))))
           eq_refl eq_refl).
Defined.

Lemma operands_substOpcode (a b : Value) (op : Opcode) :
  operands (substOpcode a b op) = map (substValue a b) (operands op).
Proof. destruct op; reflexivity. Qed.

Lemma substValue_gone (a b x : Value) :
  Value_eqb b a = false -> Value_eqb (substValue a b x) a = false.
Proof.
  intros Hb. unfold substValue. destruct (Value_eqb x a) eqn:E; [exact Hb | exact E].
Qed.

Lemma substUses_unused (a b : Value) (body : list Instruction) (i : Instruction) :
  Value_eqb b a = false -> In i (substUses a b body) -> uses a i = false.
Proof.
  intros Hb Hi. unfold substUses in Hi. apply in_map_iff in Hi.
  destruct Hi as [i0 [<- _]]. unfold uses. cbn [inst_op].
  rewrite operands_substOpcode. apply existsb_map_false.
  intros x. apply substValue_gone. exact Hb.
Qed.

(** X10.  When [visitCallInst] has rewritten a query call, the call is gone
    from the function and nothing uses its result any more: erasing it left
    no dangling use.  The changed flag is set. *)
Theorem visitCallInst_removes_call_and_uses (this this' : WIFuncResolution)
    (F F' : Function) (CI : Instruction) :
  NoDup (ids (fn_body F)) -> In CI (fn_body F) -> isQueryCall CI = true ->
  visitCallInst this F CI = Ok (this', F') ->
  m_changed this' = true /\
  forall i, In i (fn_body F') -> inst_id i <> inst_id CI /\ uses (valueOf CI) i = false.
Proof.
  intros Hnd Hin Hq EV.
  destruct (visitCallInst_cases this this' F F' CI Hnd Hin EV)
    as [[Hq' _] | [_ [-> [pre [post [new [w [Hb [Hpre [Hpost [Hb1 [Hnids [_ [_ [_ [_ [Hw _]]]]]]]]]]]]]]]]];
    [congruence |].
  split; [reflexivity |].
  assert (Hwo : Value_eqb w (valueOf CI) = false) by (apply (newer_not_old F); assumption).
  intros i Hi. split.
  - assert (Hid : In (inst_id i) (ids (fn_body F'))) by (apply in_map; exact Hi).
    rewrite Hb1 in Hid. unfold ids in Hid. rewrite !map_app in Hid.
    fold (ids (substUses (valueOf CI) w pre)) in Hid.
    fold (ids (substUses (valueOf CI) w new)) in Hid.
    fold (ids (substUses (valueOf CI) w post)) in Hid.
    rewrite !ids_substUses in Hid.
    intros E. rewrite E in Hid.
    apply in_app_or in Hid. destruct Hid as [H | H]; [exact (Hpre H) |].
    apply in_app_or in H. destruct H as [H | H]; [| exact (Hpost H)].
    rewrite Hnids in H. apply in_seq in H. pose proof (freshId_gt F CI Hin). lia.
  - rewrite Hb1 in Hi.
    apply in_app_or in Hi. destruct Hi as [H | H];
      [apply (substUses_unused _ w pre); assumption |].
    apply in_app_or in H. destruct H as [H | H];
      [apply (substUses_unused _ w new) | apply (substUses_unused _ w post)];
      assumption.
Qed.

Lemma visitCallInst_removes_call_and_uses_witness :
  let CI := call 1 WIFuncsAnalysis.GET_GROUP_ID [VConst (ConstantInt 32 0)] Int32Ty in
  let F' := set_body sampleKernel
              (call 0 WIFuncsAnalysis.GET_WORK_DIM [] Int32Ty ::
               groupIdSequence 3 (VConst (ConstantInt 32 0)) (VArg 2 (FixedVectorTy Int32Ty 8)) ++
               [mkInst 2 (OtherInst [VInst 0 Int32Ty; VInst 6 Int32Ty]) Int32Ty]) in
  m_changed (samplePass_changed [R0; WORK_DIM]) = true /\
  forall i, In i (fn_body F') -> inst_id i <> inst_id CI /\ uses (valueOf CI) i = false.
Proof.
  intros CI F'.
  apply (visitCallInst_removes_call_and_uses (samplePass [R0; WORK_DIM])
           (samplePass_changed [R0; WORK_DIM]) sampleKernel F' CI);
    [ unfold ids; simpl; repeat constructor; simpl; intuition lia
    | simpl; auto
    | reflexivity
    | vm_compute; reflexivity ].
Defined.

(* ------------------------------------------------------------------ *)
(** ** LocalThreadId *)

Lemma CastInst_Create_eq (k : nat) (l : list Instruction) (op : CastOp) (v : Value) (t : Ty) :
  castIsValid op (getType v) t = true ->
  CastInst_Create op v t (mkBuilder k l) =
    Ok (VInst k t, mkBuilder (S k) (l ++ [mkInst k (Cast op v) t])).
Proof. intros H. unfold CastInst_Create. rewrite H. reflexivity. Qed.

Lemma eval_trunc (Mod : Module) (b b' z : Z) :
  b' < b -> eval_cast Mod Trunc (RInt b z) (IntegerTy b') = Some (RInt b' (wrap b' z)).
Proof. intros H. cbn [eval_cast]. rewrite (proj2 (Z.ltb_lt _ _) H). reflexivity. Qed.

(** X11.  LocalThreadId is the low byte of lane 2 of the thread-state
    vector: the lowering extracts lane 2 and truncates it to 8 bits.  A
    stack-call function reads the vector through the platform query, any
    other function from its hidden R0 parameter. *)
Theorem getLocalThreadId_low_byte_of_lane_2 (this : WIFuncResolution) (F : Function)
    (CI : Instruction) (n : nat) :
  let R0Ty := FixedVectorTy Int32Ty (getGRFSize (m_ctx this) / SIZE_DWORD) in
  let two := VConst (ConstantInt 32 2) in
  let T := getLocalThreadId this F CI (mkBuilder n []) in
  (hasStackCallAttr F = true ->
     T = Ok (VInst (2 + n) Int8Ty,
             mkBuilder (3 + n)
               [ mkInst n (Call (GenISAIntrinsic GenISA_getR0) []) R0Ty;
                 mkInst (1 + n) (ExtractElement (VInst n R0Ty) two) Int32Ty;
                 mkInst (2 + n) (Cast Trunc (VInst (1 + n) Int32Ty)) Int8Ty ]) /\
     forall env regs x,
       nth_error (env_r0 env) 2 = Some x ->
       run_result env regs T = Some (RInt 8 (wrap 8 x))) /\
  (hasStackCallAttr F = false ->
   forall m w,
     getImplicitArg this F R0 (mkBuilder n []) =
       Ok (VArg m (FixedVectorTy Int32Ty w), mkBuilder n []) ->
     T = Ok (VInst (1 + n) Int8Ty,
             mkBuilder (2 + n)
               [ mkInst n (ExtractElement (VArg m (FixedVectorTy Int32Ty w)) two) Int32Ty;
                 mkInst (1 + n) (Cast Trunc (VInst n Int32Ty)) Int8Ty ]) /\
     forall env regs x vec,
       nth_error (env_args env) m = Some (RVec 32 vec) ->
       nth_error vec 2 = Some x ->
       run_result env regs T = Some (RInt 8 (wrap 8 x))).
Proof.
  intros R0Ty two T. split.
  - intros HS.
    assert (HT : T = Ok (VInst (2 + n) Int8Ty,
             mkBuilder (3 + n)
               [ mkInst n (Call (GenISAIntrinsic GenISA_getR0) []) R0Ty;
                 mkInst (1 + n) (ExtractElement (VInst n R0Ty) two) Int32Ty;
                 mkInst (2 + n) (Cast Trunc (VInst (1 + n) Int32Ty)) Int8Ty ])).
    { unfold T, getLocalThreadId. rewrite HS. unfold callGetR0, ExtractElementInst_Create.
      bstep. bstep. unfold bind at 1. rewrite CastInst_Create_eq by reflexivity.
      reflexivity. }
    split; [exact HT |].
    intros env regs x Hx. rewrite HT. unfold run_result. cbn [inserted].
    xstep.
    erewrite exec_cons;
      [| cbn [inst_op inst_ty inst_id eval_op]; unfold two; look;
         change (Z.to_nat 2) with 2%nat; rewrite Hx; reflexivity ].
    cbn [inst_id].
    erewrite exec_cons;
      [| cbn [inst_op inst_ty inst_id eval_op]; look; apply eval_trunc; lia ].
    cbn [exec inst_id]. look. reflexivity.
  - intros HS m w HA.
    assert (HT : T = Ok (VInst (1 + n) Int8Ty,
             mkBuilder (2 + n)
               [ mkInst n (ExtractElement (VArg m (FixedVectorTy Int32Ty w)) two) Int32Ty;
                 mkInst (1 + n) (Cast Trunc (VInst n Int32Ty)) Int8Ty ])).
    { unfold T, getLocalThreadId. rewrite HS. unfold ExtractElementInst_Create.
      unfold bind at 1. rewrite HA.
      bstep. unfold bind at 1. rewrite CastInst_Create_eq by reflexivity.
      reflexivity. }
    split; [exact HT |].
    intros env regs x vec Hm Hx. rewrite HT. unfold run_result. cbn [inserted].
    erewrite exec_cons;
      [| cbn [inst_op inst_ty inst_id eval_op]; unfold two; look;
         rewrite Hm; change (Z.to_nat 2) with 2%nat; rewrite Hx; reflexivity ].
    cbn [inst_id].
    erewrite exec_cons;
      [| cbn [inst_op inst_ty inst_id eval_op]; look; apply eval_trunc; lia ].
    cbn [exec inst_id]. look. reflexivity.
Qed.

Lemma getLocalThreadId_low_byte_of_lane_2_witness :
  run_result sampleR0Env []
    (getLocalThreadId (samplePass []) (stackFn [])
       (call 0 WIFuncsAnalysis.GET_LOCAL_THREAD_ID [] Int8Ty) (mkBuilder 1 [])) =
  Some (RInt 8 102).
Proof.
  destruct (getLocalThreadId_low_byte_of_lane_2 (samplePass []) (stackFn [])
              (call 0 WIFuncsAnalysis.GET_LOCAL_THREAD_ID [] Int8Ty) 1) as [Hs _].
  destruct (Hs eq_refl) as [_ Hrun].
  apply (Hrun sampleR0Env [] 102). reflexivity.
Defined.

(* ------------------------------------------------------------------ *)
(** ** The vector fields of the side buffer *)

Lemma load_bytes_S (mem : Z -> Byte.byte) (O : Z) (n : nat) :
  load_bytes mem O (S n) = mem O :: load_bytes mem (O + 1) n.
Proof.
  unfold load_bytes. cbn [seq map]. rewrite Z.add_0_r. f_equal.
  rewrite <- seq_shift, map_map. apply map_ext. intros k. f_equal. lia.
Qed.

Lemma load_bytes_app (mem : Z -> Byte.byte) (O : Z) (a b : nat) :
  load_bytes mem O (a + b) = load_bytes mem O a ++ load_bytes mem (O + Z.of_nat a) b.
Proof.
  revert O. induction a as [| a IH]; intros O.
  - cbn [plus Z.of_nat]. rewrite Z.add_0_r. reflexivity.
  - cbn [plus]. rewrite !load_bytes_S, IH. cbn [app]. do 3 f_equal. lia.
Qed.

Lemma nth_chunk (mem : Z -> Byte.byte) (E k d : nat) (O : Z) :
  (d < k)%nat ->
  nth_error (map decode_le (chunks E k (load_bytes mem O (k * E)))) d =
    Some (decode_le (load_bytes mem (O + Z.of_nat d * Z.of_nat E) E)).
Proof.
  revert d O. induction k as [| k IH]; intros d O Hd; [lia |].
  cbn [Nat.mul chunks map]. rewrite load_bytes_app.
  rewrite firstn_app, load_bytes_length, Nat.sub_diag, firstn_O, app_nil_r.
  rewrite firstn_all2 by (rewrite load_bytes_length; lia).
  rewrite skipn_app, load_bytes_length, Nat.sub_diag, skipn_O.
  rewrite skipn_all2 by (rewrite load_bytes_length; lia). cbn [app].
  destruct d as [| d]; cbn [nth_error].
  - do 3 f_equal. lia.
  - rewrite IH by lia. do 3 f_equal. lia.
Qed.

Lemma chunks_length (E k : nat) (bs : list Byte.byte) : List.length (chunks E k bs) = k.
Proof.
  revert bs. induction k as [| k IH]; intros bs; cbn [chunks List.length];
    [| rewrite IH]; reflexivity.
Qed.

(** Lane [d] of the vector of [k] elements of [b] bits loaded at [O]. *)
Lemma sbField_lane (env : Env) (O b k d : Z) :
  0 < b / 8 -> 0 <= d < k ->
  nth_error (map decode_le (chunks (Z.to_nat (b / 8)) (Z.to_nat k)
                              (sbBytes env O (k * (b / 8))))) (Z.to_nat d) =
    Some (sbField env O b d).
Proof.
  intros Hb Hd. unfold sbField, sbBytes.
  replace (Z.to_nat (k * (b / 8))) with (Z.to_nat k * Z.to_nat (b / 8))%nat
    by (rewrite Z2Nat.inj_mul; lia).
  rewrite nth_chunk by lia. do 3 f_equal. lia.
Qed.

Lemma sbField_no_lane (b k d : Z) (bs : list Byte.byte) :
  0 <= k <= d ->
  nth_error (map decode_le (chunks (Z.to_nat (b / 8)) (Z.to_nat k) bs)) (Z.to_nat d) = None.
Proof.
  intros H. apply nth_error_None. rewrite length_map, chunks_length. lia.
Qed.

Lemma laneSequence_exec (env : Env) (regs : Regs) (F : Function) (O : Z) (n : nat)
    (dim : Value) (w d : Z) :
  addressable env F O -> older n dim ->
  eval_value env regs dim = Some (RInt w d) ->
  (0 <= d < 3 ->
   exists regs', exec env regs (laneSequence F O n dim) = Some regs' /\
                 lookup regs' (S n) = Some (RInt 32 (sbField env O 32 d))) /\
  (3 <= d -> exec env regs (laneSequence F O n dim) = None).
Proof.
  intros Ha Ho Hd. unfold laneSequence.
  assert (HL : forall rest,
             exec env regs
               (mkInst n (Load (sideBufferPtr F O (FixedVectorTy Int32Ty 3)) 4)
                         (FixedVectorTy Int32Ty 3) :: rest) =
             exec env ((n, RVec 32 (map decode_le (chunks (Z.to_nat (32 / 8)) (Z.to_nat 3)
                                                   (sbBytes env O (3 * (32 / 8)))))) :: regs)
                  rest).
  { intros rest.
    pose proof (exec_aligned_vector env regs F O 32 3 n eq_refl eq_refl
                  ltac:(lia) Ha) as H.
    cbv zeta in H.
    cbn [exec] in H |- *. unfold Int32Ty in *.
    change (32 / 8) with 4 in H at 1.
    destruct (eval_op env regs _ _) as [v |]; [| discriminate].
    injection H as ->. reflexivity. }
  rewrite HL.
  assert (Hdim : eval_value env
                   ((n, RVec 32 (map decode_le (chunks (Z.to_nat (32 / 8)) (Z.to_nat 3)
                                                  (sbBytes env O (3 * (32 / 8)))))) :: regs)
                   dim = Some (RInt w d)).
  { rewrite (eval_value_push env regs n _ dim n) by (assumption || lia). exact Hd. }
  split.
  - intros Hr. eexists. split.
    + cbn [exec inst_op inst_ty inst_id eval_op]. rewrite Hdim.
      cbn [eval_value lookup]. rewrite Nat.eqb_refl.
      rewrite (sbField_lane env O 32 3 d) by (try reflexivity; lia). reflexivity.
    + cbn [lookup]. rewrite Nat.eqb_refl. reflexivity.
  - intros Hr. cbn [exec inst_op inst_ty inst_id eval_op]. rewrite Hdim.
    cbn [eval_value lookup]. rewrite Nat.eqb_refl.
    rewrite (sbField_no_lane 32 3 d) by lia. reflexivity.
Qed.

Lemma laneSequence_built (F : Function) (CI : Instruction) (n : nat) (callee : Callee)
    (dim : Value) (args : list Value) (O : Z) (other : M Value) :
  hasStackCallAttr F = true ->
  inst_op CI = Call callee (dim :: args) ->
  0 <= O < 2 ^ 32 -> O mod 4 = 0 ->
  (V <- (if hasStackCallAttr F then
           LoadInst <- BuildLoadInst F O (FixedVectorTy Int32Ty 3) ;; ret LoadInst
         else other) ;;
   dim <- getArgOperand CI 0 ;;
   x <- ExtractElementInst_Create V dim ;;
   ret x) (mkBuilder n []) =
  Ok (VInst (S n) Int32Ty, mkBuilder (S (S n)) (laneSequence F O n dim)).
Proof.
  intros HS HCI HO Hal. rewrite HS.
  unfold bind at 1. unfold bind at 1. unfold Int32Ty.
  rewrite (BuildLoadInst_aligned_vector F O 32 3 n)
    by (try exact HO; try exact Hal; vm_compute; intuition congruence).
  unfold ret at 1. unfold bind, getArgOperand. rewrite HCI.
  reflexivity.
Qed.

Lemma laneSequence_run (env : Env) (regs : Regs) (F : Function) (O : Z) (n : nat)
    (dim : Value) (w d : Z) :
  addressable env F O -> older n dim ->
  eval_value env regs dim = Some (RInt w d) ->
  let L := Ok (VInst (S n) Int32Ty, mkBuilder (S (S n)) (laneSequence F O n dim)) in
  (0 <= d < 3 -> run_result env regs L = Some (RInt 32 (sbField env O 32 d))) /\
  (3 <= d -> run_result env regs L = None).
Proof.
  intros Ha Ho Hd L.
  destruct (laneSequence_exec env regs F O n dim w d Ha Ho Hd) as [H1 H2].
  unfold L, run_result. cbn [inserted]. split.
  - intros Hr. destruct (H1 Hr) as [regs' [He Hl]]. rewrite He. exact Hl.
  - intros Hr. rewrite (H2 Hr). reflexivity.
Qed.

(** X12.  In a stack-call function LocalSize(dim) is the 32-bit
    little-endian word of the side buffer at LOCAL_SIZE_X + 4 * dim for dim
    0, 1 or 2; for any larger dim the extraction has no defined value. *)
Theorem getLocalSize_stack_value (this : WIFuncResolution) (F : Function)
    (CI : Instruction) (n : nat) (callee : Callee) (dim : Value) (args : list Value)
    (env : Env) (regs : Regs) (w d : Z) :
  hasStackCallAttr F = true ->
  inst_op CI = Call callee (dim :: args) ->
  older n dim ->
  eval_value env regs dim = Some (RInt w d) ->
  addressable env F GLOBAL_STATE_FIELD_OFFSETS.LOCAL_SIZE_X ->
  let L := getLocalSize this F CI (mkBuilder n []) in
  L = Ok (VInst (S n) Int32Ty,
          mkBuilder (S (S n)) (laneSequence F GLOBAL_STATE_FIELD_OFFSETS.LOCAL_SIZE_X n dim)) /\
  (0 <= d < 3 ->
   run_result env regs L =
     Some (RInt 32 (sbField env GLOBAL_STATE_FIELD_OFFSETS.LOCAL_SIZE_X 32 d))) /\
  (3 <= d -> run_result env regs L = None).
Proof.
  intros HS HCI Ho Hd Ha L.
  assert (HL : L = Ok (VInst (S n) Int32Ty,
                       mkBuilder (S (S n))
                         (laneSequence F GLOBAL_STATE_FIELD_OFFSETS.LOCAL_SIZE_X n dim))).
  { unfold L, getLocalSize. cbv zeta.
    apply (laneSequence_built F CI n callee dim args); try assumption; vm_compute;
      intuition congruence. }
  split; [exact HL |]. rewrite HL.
  apply (laneSequence_run env regs F _ n dim w d); assumption.
Qed.

Lemma getLocalSize_stack_value_witness :
  run_result sampleEnv []
    (getLocalSize (samplePass []) (stackFn [])
       (call 0 WIFuncsAnalysis.GET_LOCAL_SIZE [VConst (ConstantInt 32 1)] Int32Ty)
       (mkBuilder 1 [])) =
  Some (RInt 32 (sbField sampleEnv GLOBAL_STATE_FIELD_OFFSETS.LOCAL_SIZE_X 32 1)).
Proof.
  destruct (getLocalSize_stack_value (samplePass []) (stackFn [])
              (call 0 WIFuncsAnalysis.GET_LOCAL_SIZE [VConst (ConstantInt 32 1)] Int32Ty)
              1 _ _ _ sampleEnv [] 32 1 eq_refl eq_refl I eq_refl)
    as [_ [H _]].
  - apply addressable_small; [reflexivity | vm_compute; intuition congruence].
  - apply H. lia.
Defined.

(** X13.  In a stack-call function NumGroups(dim) is the 32-bit word of the
    side buffer at GROUP_COUNT_X + 4 * dim for dim 0, 1 or 2, and has no
    defined value for a larger dim. *)
Theorem getNumGroups_stack_value (this : WIFuncResolution) (F : Function)
    (CI : Instruction) (n : nat) (callee : Callee) (dim : Value) (args : list Value)
    (env : Env) (regs : Regs) (w d : Z) :
  hasStackCallAttr F = true ->
  inst_op CI = Call callee (dim :: args) ->
  older n dim ->
  eval_value env regs dim = Some (RInt w d) ->
  addressable env F GLOBAL_STATE_FIELD_OFFSETS.GROUP_COUNT_X ->
  let L := getNumGroups this F CI (mkBuilder n []) in
  L = Ok (VInst (S n) Int32Ty,
          mkBuilder (S (S n)) (laneSequence F GLOBAL_STATE_FIELD_OFFSETS.GROUP_COUNT_X n dim)) /\
  (0 <= d < 3 ->
   run_result env regs L =
     Some (RInt 32 (sbField env GLOBAL_STATE_FIELD_OFFSETS.GROUP_COUNT_X 32 d))) /\
  (3 <= d -> run_result env regs L = None).
Proof.
  intros HS HCI Ho Hd Ha L.
  assert (HL : L = Ok (VInst (S n) Int32Ty,
                       mkBuilder (S (S n))
                         (laneSequence F GLOBAL_STATE_FIELD_OFFSETS.GROUP_COUNT_X n dim))).
  { unfold L, getNumGroups. cbv zeta.
    apply (laneSequence_built F CI n callee dim args); try assumption; vm_compute;
      intuition congruence. }
  split; [exact HL |]. rewrite HL.
  apply (laneSequence_run env regs F _ n dim w d); assumption.
Qed.

Lemma getNumGroups_stack_value_witness :
  run_result sampleEnv []
    (getNumGroups (samplePass []) (stackFn [])
       (call 0 WIFuncsAnalysis.GET_NUM_GROUPS [VConst (ConstantInt 32 3)] Int32Ty)
       (mkBuilder 1 [])) = None.
Proof.
  destruct (getNumGroups_stack_value (samplePass []) (stackFn [])
              (call 0 WIFuncsAnalysis.GET_NUM_GROUPS [VConst (ConstantInt 32 3)] Int32Ty)
              1 _ _ _ sampleEnv [] 32 3 eq_refl eq_refl I eq_refl)
    as [_ [_ H]].
  - apply addressable_small; [reflexivity | vm_compute; intuition congruence].
  - apply H. lia.
Defined.

(* ------------------------------------------------------------------ *)
(** ** The 64-bit vector fields of the side buffer *)

Lemma CreateInsertElement_eq (k : nat) (l : list Instruction) (vec elt idx : Value)
    (e : Ty) (w : Z) :
  getType vec = FixedVectorTy e w ->
  CreateInsertElement vec elt idx (mkBuilder k l) =
    Ok (VInst k (FixedVectorTy e w),
        mkBuilder (S k) (l ++ [mkInst k (InsertElement vec elt idx) (FixedVectorTy e w)])).
Proof. intros H. unfold CreateInsertElement. rewrite H. reflexivity. Qed.

Lemma CreateTrunc_inst (k : nat) (l : list Instruction) (id : nat) (a c : Z) :
  c < a ->
  CreateTrunc (VInst id (IntegerTy a)) (IntegerTy c) (mkBuilder k l) =
    Ok (VInst k (IntegerTy c),
        mkBuilder (S k) (l ++ [mkInst k (Cast Trunc (VInst id (IntegerTy a))) (IntegerTy c)])).
Proof.
  intros H. unfold CreateTrunc. apply CreateCast_inst.
  - cbn [Ty_eqb]. apply Z.eqb_neq. lia.
  - cbn [castIsValid]. apply Z.ltb_lt. lia.
Qed.

Lemma CreateTrunc_invalid (id : nat) (a c : Z) (st : IRBuilder) :
  a < c -> CreateTrunc (VInst id (IntegerTy a)) (IntegerTy c) st = Undefined.
Proof.
  intros H. unfold CreateTrunc, CreateCast. cbn [getType Ty_eqb castIsValid].
  replace (a =? c) with false by (symmetry; apply Z.eqb_neq; lia).
  replace (c <? a) with false by (symmetry; apply Z.ltb_ge; lia).
  reflexivity.
Qed.

Lemma wideLaneSequence_built (F : Function) (CI : Instruction) (n : nat) (callee : Callee)
    (dim : Value) (args : list Value) (O c : Z) (other : M Value) :
  hasStackCallAttr F = true ->
  inst_op CI = Call callee (dim :: args) ->
  0 <= O < 2 ^ 32 -> O mod 8 = 0 -> c < 64 ->
  (V <- (if hasStackCallAttr F then
           LoadInst <- BuildLoadInst F O (FixedVectorTy Int64Ty 3) ;;
           truncLanes [0; 1; 2] LoadInst (IntegerTy c)
             (VConst (UndefValue (FixedVectorTy (IntegerTy c) 3)))
         else other) ;;
   dim <- getArgOperand CI 0 ;;
   x <- ExtractElementInst_Create V dim ;;
   ret x) (mkBuilder n []) =
  Ok (reg n 10 (IntegerTy c), mkBuilder (11 + n) (wideLaneSequence F O c n dim)).
Proof.
  intros HS HCI HO Hal Hc. rewrite HS.
  unfold bind at 1. unfold bind at 1. unfold Int64Ty.
  rewrite (BuildLoadInst_aligned_vector F O 64 3 n)
    by (try exact HO; try exact Hal; vm_compute; intuition congruence).
  cbn [truncLanes].
  unfold bind at 1. erewrite CreateExtractElement_eq by reflexivity. cbv beta iota.
  unfold bind at 1. rewrite CreateTrunc_inst by exact Hc. cbv beta iota.
  unfold bind at 1. erewrite CreateInsertElement_eq by reflexivity. cbv beta iota.
  unfold bind at 1. erewrite CreateExtractElement_eq by reflexivity. cbv beta iota.
  unfold bind at 1. rewrite CreateTrunc_inst by exact Hc. cbv beta iota.
  unfold bind at 1. erewrite CreateInsertElement_eq by reflexivity. cbv beta iota.
  unfold bind at 1. erewrite CreateExtractElement_eq by reflexivity. cbv beta iota.
  unfold bind at 1. rewrite CreateTrunc_inst by exact Hc. cbv beta iota.
  unfold bind at 1. erewrite CreateInsertElement_eq by reflexivity. cbv beta iota.
  unfold ret at 1.
  unfold bind at 1. unfold getArgOperand. rewrite HCI. cbn [nth_error]. unfold ret at 1.
  unfold bind at 1. unfold ExtractElementInst_Create.
  erewrite CreateExtractElement_eq by reflexivity. cbv beta iota.
  unfold ret, wideLaneSequence, reg. cbn [app plus]. reflexivity.
Qed.

Lemma wideLane_invalid (F : Function) (CI : Instruction) (n : nat) (O c : Z)
    (other : M Value) :
  hasStackCallAttr F = true ->
  0 <= O < 2 ^ 32 -> O mod 8 = 0 -> 64 < c ->
  (V <- (if hasStackCallAttr F then
           LoadInst <- BuildLoadInst F O (FixedVectorTy Int64Ty 3) ;;
           truncLanes [0; 1; 2] LoadInst (IntegerTy c)
             (VConst (UndefValue (FixedVectorTy (IntegerTy c) 3)))
         else other) ;;
   dim <- getArgOperand CI 0 ;;
   x <- ExtractElementInst_Create V dim ;;
   ret x) (mkBuilder n []) = Undefined.
Proof.
  intros HS HO Hal Hc. rewrite HS.
  unfold bind at 1. unfold bind at 1. unfold Int64Ty.
  rewrite (BuildLoadInst_aligned_vector F O 64 3 n)
    by (try exact HO; try exact Hal; vm_compute; intuition congruence).
  cbn [truncLanes].
  unfold bind at 1. erewrite CreateExtractElement_eq by reflexivity. cbv beta iota.
  unfold bind at 1. rewrite CreateTrunc_invalid by exact Hc. reflexivity.
Qed.

Lemma list3_eq {A : Type} (l : list A) (a b c : A) :
  List.length l = 3%nat ->
  nth_error l 0 = Some a -> nth_error l 1 = Some b -> nth_error l 2 = Some c ->
  l = [a; b; c].
Proof.
  destruct l as [| x [| y [| z [| ? ?]]]]; cbn [List.length nth_error]; try discriminate.
  intros _ H0 H1 H2. congruence.
Qed.

Lemma sbField_vec3 (env : Env) (O b : Z) :
  0 < b / 8 ->
  map decode_le (chunks (Z.to_nat (b / 8)) (Z.to_nat 3) (sbBytes env O (3 * (b / 8)))) =
    [sbField env O b 0; sbField env O b 1; sbField env O b 2].
Proof.
  intros Hb. apply list3_eq.
  - rewrite length_map, chunks_length. reflexivity.
  - apply (sbField_lane env O b 3 0); lia.
  - apply (sbField_lane env O b 3 1); lia.
  - apply (sbField_lane env O b 3 2); lia.
Qed.

Lemma decode_le_zeros (n : nat) : decode_le (repeat Byte.x00 n) = 0.
Proof.
  induction n as [| n IH]; cbn [repeat decode_le]; [reflexivity |].
  rewrite IH. reflexivity.
Qed.

Lemma chunks_zeros (E k : nat) :
  map decode_le (chunks E k (repeat Byte.x00 (k * E))) = repeat 0 k.
Proof.
  induction k as [| k IH]; cbn [Nat.mul chunks map repeat]; [reflexivity |].
  rewrite repeat_app.
  rewrite firstn_app, repeat_length, Nat.sub_diag, firstn_O, app_nil_r.
  rewrite firstn_all2 by (rewrite repeat_length; lia).
  rewrite skipn_app, repeat_length, Nat.sub_diag, skipn_O.
  rewrite skipn_all2 by (rewrite repeat_length; lia). cbn [app].
  rewrite decode_le_zeros, IH. reflexivity.
Qed.

Lemma eval_undef_vec3 (Mod : Module) (c : Z) :
  c mod 8 = 0 -> 0 < c ->
  eval_const Mod (UndefValue (FixedVectorTy (IntegerTy c) 3)) = Some (RVec c [0; 0; 0]).
Proof.
  intros Hm Hc. cbn [eval_const].
  rewrite storeSize_vec by exact Hm.
  assert (Hc8 : 0 < c / 8).
  { apply Z.div_str_pos. pose proof (Z.mod_divide c 8 ltac:(lia)) as [Hd _].
    destruct (Hd Hm) as [q Hq]. lia. }
  rewrite of_bytes_vec;
    [| exact Hm | exact Hc | rewrite repeat_length; lia ].
  replace (Z.to_nat (3 * (c / 8))) with (Z.to_nat 3 * Z.to_nat (c / 8))%nat
    by (rewrite Z2Nat.inj_mul; lia).
  rewrite chunks_zeros. reflexivity.
Qed.

Lemma eval_insert (env : Env) (regs : Regs) (v e i : Value) (c wi k x : Z) (l : list Z) :
  eval_value env regs v = Some (RVec c l) ->
  eval_value env regs e = Some (RInt c x) ->
  eval_value env regs i = Some (RInt wi k) ->
  k < Z.of_nat (List.length l) ->
  eval_op env regs (InsertElement v e i) (FixedVectorTy (IntegerTy c) 3) =
    Some (RVec c (set_nth l (Z.to_nat k) x)).
Proof.
  intros Hv He Hi Hk. cbn [eval_op]. rewrite Hv, He, Hi.
  rewrite Z.eqb_refl, (proj2 (Z.ltb_lt _ _) Hk). reflexivity.
Qed.

Lemma eval_extract (env : Env) (regs : Regs) (v i : Value) (t : Ty) (c wi k x : Z)
    (l : list Z) :
  eval_value env regs v = Some (RVec c l) ->
  eval_value env regs i = Some (RInt wi k) ->
  nth_error l (Z.to_nat k) = Some x ->
  eval_op env regs (ExtractElement v i) t = Some (RInt c x).
Proof.
  intros Hv Hi Hx. cbn [eval_op]. rewrite Hv, Hi, Hx. reflexivity.
Qed.

Lemma eval_extract_none (env : Env) (regs : Regs) (v i : Value) (t : Ty) (c wi k : Z)
    (l : list Z) :
  eval_value env regs v = Some (RVec c l) ->
  eval_value env regs i = Some (RInt wi k) ->
  nth_error l (Z.to_nat k) = None ->
  eval_op env regs (ExtractElement v i) t = None.
Proof.
  intros Hv Hi Hx. cbn [eval_op]. rewrite Hv, Hi, Hx. reflexivity.
Qed.

Lemma eval_cast_trunc (env : Env) (regs : Regs) (v : Value) (a c x : Z) :
  eval_value env regs v = Some (RInt a x) -> c < a ->
  eval_op env regs (Cast Trunc v) (IntegerTy c) = Some (RInt c (wrap c x)).
Proof.
  intros Hv Hc. cbn [eval_op]. rewrite Hv. cbn [eval_cast].
  rewrite (proj2 (Z.ltb_lt _ _) Hc). reflexivity.
Qed.

Ltac lk := unfold reg; cbn [eval_value lookup]; eqb_solve; cbv iota; reflexivity.

Lemma wideLaneSequence_exec (env : Env) (regs : Regs) (F : Function) (O c : Z) (n : nat)
    (dim : Value) (w d : Z) :
  addressable env F O -> older n dim ->
  eval_value env regs dim = Some (RInt w d) ->
  c mod 8 = 0 -> 0 < c < 64 ->
  (0 <= d < 3 ->
   exists regs', exec env regs (wideLaneSequence F O c n dim) = Some regs' /\
                 lookup regs' (10 + n) = Some (RInt c (wrap c (sbField env O 64 d)))) /\
  (3 <= d -> exec env regs (wideLaneSequence F O c n dim) = None).
Proof.
  intros Ha Ho Hd Hm Hc. unfold wideLaneSequence. cbv zeta.
  set (f0 := sbField env O 64 0). set (f1 := sbField env O 64 1).
  set (f2 := sbField env O 64 2).
  (* the load *)
  assert (HL : forall rest,
             exec env regs
               (mkInst (0 + n) (Load (sideBufferPtr F O (FixedVectorTy (IntegerTy 64) 3)) 8)
                         (FixedVectorTy (IntegerTy 64) 3) :: rest) =
             exec env ((n, RVec 64 [f0; f1; f2]) :: regs) rest).
  { intros rest.
    pose proof (exec_aligned_vector env regs F O 64 3 n eq_refl eq_refl
                  ltac:(lia) Ha) as H.
    cbv zeta in H. rewrite (sbField_vec3 env O 64) in H by (vm_compute; reflexivity).
    cbn [exec plus] in H |- *.
    change (64 / 8) with 8 in H at 1.
    destruct (eval_op env regs _ _) as [v |]; [| discriminate].
    injection H as ->. reflexivity. }
  rewrite HL. clear HL.
  unfold getInt64, getIntN.
  change (wrap 64 0) with 0. change (wrap 64 1) with 1. change (wrap 64 2) with 2.
  (* lane 0 *)
  erewrite exec_cons;
    [| cbn [inst_op inst_ty inst_id];
       apply (eval_extract _ _ _ _ _ 64 64 0 f0 [f0; f1; f2]); [lk | lk | reflexivity] ].
  cbn [inst_id].
  erewrite exec_cons;
    [| cbn [inst_op inst_ty inst_id];
       apply (eval_cast_trunc _ _ _ 64 c f0); [lk | lia] ].
  cbn [inst_id].
  erewrite exec_cons;
    [| cbn [inst_op inst_ty inst_id];
       apply (eval_insert _ _ _ _ _ c 64 0 (wrap c f0) [0; 0; 0]);
       [ cbn [eval_value]; apply eval_undef_vec3; [exact Hm | lia]
       | lk | lk | cbn [List.length]; lia ] ].
  cbn [inst_id]. change (Z.to_nat 0) with 0%nat. cbn [set_nth].
  (* lane 1 *)
  erewrite exec_cons;
    [| cbn [inst_op inst_ty inst_id];
       apply (eval_extract _ _ _ _ _ 64 64 1 f1 [f0; f1; f2]); [lk | lk | reflexivity] ].
  cbn [inst_id].
  erewrite exec_cons;
    [| cbn [inst_op inst_ty inst_id];
       apply (eval_cast_trunc _ _ _ 64 c f1); [lk | lia] ].
  cbn [inst_id].
  erewrite exec_cons;
    [| cbn [inst_op inst_ty inst_id];
       apply (eval_insert _ _ _ _ _ c 64 1 (wrap c f1) [wrap c f0; 0; 0]);
       [ lk | lk | lk | cbn [List.length]; lia ] ].
  cbn [inst_id]. change (Z.to_nat 1) with 1%nat. cbn [set_nth].
  (* lane 2 *)
  erewrite exec_cons;
    [| cbn [inst_op inst_ty inst_id];
       apply (eval_extract _ _ _ _ _ 64 64 2 f2 [f0; f1; f2]); [lk | lk | reflexivity] ].
  cbn [inst_id].
  erewrite exec_cons;
    [| cbn [inst_op inst_ty inst_id];
       apply (eval_cast_trunc _ _ _ 64 c f2); [lk | lia] ].
  cbn [inst_id].
  erewrite exec_cons;
    [| cbn [inst_op inst_ty inst_id];
       apply (eval_insert _ _ _ _ _ c 64 2 (wrap c f2) [wrap c f0; wrap c f1; 0]);
       [ lk | lk | lk | cbn [List.length]; lia ] ].
  cbn [inst_id]. change (Z.to_nat 2) with 2%nat. cbn [set_nth].
  (* the lane asked for *)
  match goal with
  | |- context [exec env ?R [_]] => set (regs9 := R)
  end.
  assert (Hdim : eval_value env regs9 dim = Some (RInt w d)).
  { unfold regs9.
    repeat (rewrite (eval_value_push env _ _ _ dim n) by (assumption || lia)).
    exact Hd. }
  assert (Hv : eval_value env regs9 (reg n 9 (FixedVectorTy (IntegerTy c) 3)) =
               Some (RVec c [wrap c f0; wrap c f1; wrap c f2])).
  { unfold regs9. lk. }
  split.
  - intros Hr. eexists. split.
    + erewrite exec_cons;
        [| cbn [inst_op inst_ty inst_id];
           apply (eval_extract _ _ _ _ _ c w d (wrap c (sbField env O 64 d)) _ Hv Hdim);
           assert (Hcase : d = 0 \/ d = 1 \/ d = 2) by lia;
           destruct Hcase as [-> | [-> | ->]]; reflexivity ].
      cbn [exec]. reflexivity.
    + cbn [inst_id lookup]. rewrite Nat.eqb_refl. reflexivity.
  - intros Hr. cbn [exec inst_op inst_ty inst_id].
    rewrite (eval_extract_none _ _ _ _ _ c w d _ Hv Hdim); [reflexivity |].
    apply nth_error_None. cbn [List.length]. lia.
Qed.

Lemma wideLaneSequence_run (env : Env) (regs : Regs) (F : Function) (O c : Z) (n : nat)
    (dim : Value) (w d : Z) :
  addressable env F O -> older n dim ->
  eval_value env regs dim = Some (RInt w d) ->
  c mod 8 = 0 -> 0 < c < 64 ->
  let L := Ok (reg n 10 (IntegerTy c), mkBuilder (11 + n) (wideLaneSequence F O c n dim)) in
  (0 <= d < 3 -> run_result env regs L = Some (RInt c (wrap c (sbField env O 64 d)))) /\
  (3 <= d -> run_result env regs L = None).
Proof.
  intros Ha Ho Hd Hm Hc L.
  destruct (wideLaneSequence_exec env regs F O c n dim w d Ha Ho Hd Hm Hc) as [H1 H2].
  unfold L, run_result. cbn [inserted]. split.
  - intros Hr. destruct (H1 Hr) as [regs' [He Hl]]. rewrite He.
    unfold reg. cbn [eval_value]. exact Hl.
  - intros Hr. rewrite (H2 Hr). reflexivity.
Qed.

Lemma wideLaneSequence64_built (F : Function) (CI : Instruction) (n : nat) (callee : Callee)
    (dim : Value) (args : list Value) (O : Z) (other : M Value) :
  hasStackCallAttr F = true ->
  inst_op CI = Call callee (dim :: args) ->
  0 <= O < 2 ^ 32 -> O mod 8 = 0 ->
  (V <- (if hasStackCallAttr F then
           LoadInst <- BuildLoadInst F O (FixedVectorTy Int64Ty 3) ;;
           truncLanes [0; 1; 2] LoadInst (IntegerTy 64)
             (VConst (UndefValue (FixedVectorTy (IntegerTy 64) 3)))
         else other) ;;
   dim <- getArgOperand CI 0 ;;
   x <- ExtractElementInst_Create V dim ;;
   ret x) (mkBuilder n []) =
  Ok (reg n 7 (IntegerTy 64), mkBuilder (8 + n) (wideLaneSequence64 F O n dim)).
Proof.
  intros HS HCI HO Hal. rewrite HS.
  unfold bind at 1. unfold bind at 1. unfold Int64Ty.
  rewrite (BuildLoadInst_aligned_vector F O 64 3 n)
    by (try exact HO; try exact Hal; vm_compute; intuition congruence).
  cbn [truncLanes]. unfold CreateTrunc.
  unfold bind at 1. erewrite CreateExtractElement_eq by reflexivity. cbv beta iota.
  unfold bind at 1. rewrite CreateCast_same by reflexivity. cbv beta iota.
  unfold bind at 1. erewrite CreateInsertElement_eq by reflexivity. cbv beta iota.
  unfold bind at 1. erewrite CreateExtractElement_eq by reflexivity. cbv beta iota.
  unfold bind at 1. rewrite CreateCast_same by reflexivity. cbv beta iota.
  unfold bind at 1. erewrite CreateInsertElement_eq by reflexivity. cbv beta iota.
  unfold bind at 1. erewrite CreateExtractElement_eq by reflexivity. cbv beta iota.
  unfold bind at 1. rewrite CreateCast_same by reflexivity. cbv beta iota.
  unfold bind at 1. erewrite CreateInsertElement_eq by reflexivity. cbv beta iota.
  unfold ret at 1.
  unfold bind at 1. unfold getArgOperand. rewrite HCI. cbn [nth_error]. unfold ret at 1.
  unfold bind at 1. unfold ExtractElementInst_Create.
  erewrite CreateExtractElement_eq by reflexivity. cbv beta iota.
  unfold ret, wideLaneSequence64, reg. cbn [app plus]. reflexivity.
Qed.

Lemma wideLaneSequence64_exec (env : Env) (regs : Regs) (F : Function) (O : Z) (n : nat)
    (dim : Value) (w d : Z) :
  addressable env F O -> older n dim ->
  eval_value env regs dim = Some (RInt w d) ->
  (0 <= d < 3 ->
   exists regs', exec env regs (wideLaneSequence64 F O n dim) = Some regs' /\
                 lookup regs' (7 + n) = Some (RInt 64 (sbField env O 64 d))) /\
  (3 <= d -> exec env regs (wideLaneSequence64 F O n dim) = None).
Proof.
  intros Ha Ho Hd. unfold wideLaneSequence64. cbv zeta.
  set (f0 := sbField env O 64 0). set (f1 := sbField env O 64 1).
  set (f2 := sbField env O 64 2).
  assert (HL : forall rest,
             exec env regs
               (mkInst (0 + n) (Load (sideBufferPtr F O (FixedVectorTy (IntegerTy 64) 3)) 8)
                         (FixedVectorTy (IntegerTy 64) 3) :: rest) =
             exec env ((n, RVec 64 [f0; f1; f2]) :: regs) rest).
  { intros rest.
    pose proof (exec_aligned_vector env regs F O 64 3 n eq_refl eq_refl
                  ltac:(lia) Ha) as H.
    cbv zeta in H. rewrite (sbField_vec3 env O 64) in H by (vm_compute; reflexivity).
    cbn [exec plus] in H |- *.
    change (64 / 8) with 8 in H at 1.
    destruct (eval_op env regs _ _) as [v |]; [| discriminate].
    injection H as ->. reflexivity. }
  rewrite HL. clear HL.
  unfold getInt64, getIntN.
  change (wrap 64 0) with 0. change (wrap 64 1) with 1. change (wrap 64 2) with 2.
  erewrite exec_cons;
    [| cbn [inst_op inst_ty inst_id];
       apply (eval_extract _ _ _ _ _ 64 64 0 f0 [f0; f1; f2]); [lk | lk | reflexivity] ].
  cbn [inst_id].
  erewrite exec_cons;
    [| cbn [inst_op inst_ty inst_id];
       apply (eval_insert _ _ _ _ _ 64 64 0 f0 [0; 0; 0]);
       [ cbn [eval_value]; apply eval_undef_vec3; [reflexivity | lia]
       | lk | lk | cbn [List.length]; lia ] ].
  cbn [inst_id]. change (Z.to_nat 0) with 0%nat. cbn [set_nth].
  erewrite exec_cons;
    [| cbn [inst_op inst_ty inst_id];
       apply (eval_extract _ _ _ _ _ 64 64 1 f1 [f0; f1; f2]); [lk | lk | reflexivity] ].
  cbn [inst_id].
  erewrite exec_cons;
    [| cbn [inst_op inst_ty inst_id];
       apply (eval_insert _ _ _ _ _ 64 64 1 f1 [f0; 0; 0]);
       [ lk | lk | lk | cbn [List.length]; lia ] ].
  cbn [inst_id]. change (Z.to_nat 1) with 1%nat. cbn [set_nth].
  erewrite exec_cons;
    [| cbn [inst_op inst_ty inst_id];
       apply (eval_extract _ _ _ _ _ 64 64 2 f2 [f0; f1; f2]); [lk | lk | reflexivity] ].
  cbn [inst_id].
  erewrite exec_cons;
    [| cbn [inst_op inst_ty inst_id];
       apply (eval_insert _ _ _ _ _ 64 64 2 f2 [f0; f1; 0]);
       [ lk | lk | lk | cbn [List.length]; lia ] ].
  cbn [inst_id]. change (Z.to_nat 2) with 2%nat. cbn [set_nth].
  match goal with
  | |- context [exec env ?R [_]] => set (regs6 := R)
  end.
  assert (Hdim : eval_value env regs6 dim = Some (RInt w d)).
  { unfold regs6.
    repeat (rewrite (eval_value_push env _ _ _ dim n) by (assumption || lia)).
    exact Hd. }
  assert (Hv : eval_value env regs6 (reg n 6 (FixedVectorTy (IntegerTy 64) 3)) =
               Some (RVec 64 [f0; f1; f2])).
  { unfold regs6. lk. }
  split.
  - intros Hr. eexists. split.
    + erewrite exec_cons;
        [| cbn [inst_op inst_ty inst_id];
           apply (eval_extract _ _ _ _ _ 64 w d (sbField env O 64 d) _ Hv Hdim);
           assert (Hcase : d = 0 \/ d = 1 \/ d = 2) by lia;
           destruct Hcase as [-> | [-> | ->]]; reflexivity ].
      cbn [exec]. reflexivity.
    + cbn [inst_id lookup]. rewrite Nat.eqb_refl. reflexivity.
  - intros Hr. cbn [exec inst_op inst_ty inst_id].
    rewrite (eval_extract_none _ _ _ _ _ 64 w d _ Hv Hdim); [reflexivity |].
    apply nth_error_None. cbn [List.length]. lia.
Qed.

Lemma wideLaneSequence64_run (env : Env) (regs : Regs) (F : Function) (O : Z) (n : nat)
    (dim : Value) (w d : Z) :
  addressable env F O -> older n dim ->
  eval_value env regs dim = Some (RInt w d) ->
  let L := Ok (reg n 7 (IntegerTy 64), mkBuilder (8 + n) (wideLaneSequence64 F O n dim)) in
  (0 <= d < 3 -> run_result env regs L = Some (RInt 64 (sbField env O 64 d))) /\
  (3 <= d -> run_result env regs L = None).
Proof.
  intros Ha Ho Hd L.
  destruct (wideLaneSequence64_exec env regs F O n dim w d Ha Ho Hd) as [H1 H2].
  unfold L, run_result. cbn [inserted]. split.
  - intros Hr. destruct (H1 Hr) as [regs' [He Hl]]. rewrite He.
    unfold reg. cbn [eval_value]. exact Hl.
  - intros Hr. rewrite (H2 Hr). reflexivity.
Qed.

(** The value of a query on a 64-bit vector field in a stack-call function,
    for each width of the call. *)
Lemma wideLane_value (F : Function) (CI : Instruction) (n : nat) (callee : Callee)
    (dim : Value) (args : list Value) (O c : Z) (other : M Value) (env : Env) (regs : Regs)
    (w d : Z) :
  hasStackCallAttr F = true ->
  inst_op CI = Call callee (dim :: args) ->
  0 <= O < 2 ^ 32 -> O mod 8 = 0 ->
  older n dim ->
  eval_value env regs dim = Some (RInt w d) ->
  addressable env F O ->
  let G :=
    (V <- (if hasStackCallAttr F then
             LoadInst <- BuildLoadInst F O (FixedVectorTy Int64Ty 3) ;;
             truncLanes [0; 1; 2] LoadInst (IntegerTy c)
               (VConst (UndefValue (FixedVectorTy (IntegerTy c) 3)))
           else other) ;;
     dim <- getArgOperand CI 0 ;;
     x <- ExtractElementInst_Create V dim ;;
     ret x) (mkBuilder n []) in
  (c mod 8 = 0 -> 0 < c < 64 ->
   G = Ok (reg n 10 (IntegerTy c), mkBuilder (11 + n) (wideLaneSequence F O c n dim)) /\
   (0 <= d < 3 -> run_result env regs G = Some (RInt c (wrap c (sbField env O 64 d)))) /\
   (3 <= d -> run_result env regs G = None)) /\
  (c = 64 ->
   G = Ok (reg n 7 (IntegerTy 64), mkBuilder (8 + n) (wideLaneSequence64 F O n dim)) /\
   (0 <= d < 3 -> run_result env regs G = Some (RInt 64 (sbField env O 64 d))) /\
   (3 <= d -> run_result env regs G = None)) /\
  (64 < c -> G = Undefined).
Proof.
  intros HS HCI HO Hal Ho Hd Ha G. split; [| split].
  - intros Hm Hc.
    assert (HG : G = Ok (reg n 10 (IntegerTy c),
                         mkBuilder (11 + n) (wideLaneSequence F O c n dim))).
    { unfold G. apply (wideLaneSequence_built F CI n callee dim args); try assumption; lia. }
    split; [exact HG |]. rewrite HG.
    apply (wideLaneSequence_run env regs F O c n dim w d); assumption.
  - intros ->.
    assert (HG : G = Ok (reg n 7 (IntegerTy 64),
                         mkBuilder (8 + n) (wideLaneSequence64 F O n dim))).
    { unfold G. apply (wideLaneSequence64_built F CI n callee dim args); assumption. }
    split; [exact HG |]. rewrite HG.
    apply (wideLaneSequence64_run env regs F O n dim w d); assumption.
  - intros Hc. unfold G. apply wideLane_invalid; assumption.
Qed.

(** X14.  In a stack-call function GlobalSize(dim), for a call of c bits,
    is the 64-bit little-endian field of the side buffer at
    GLOBAL_SIZE_X + 8 * dim, truncated to c bits when c is below 64 and whole
    when c is 64, for dim 0, 1 or 2.  A larger dim has no defined value, and
    for a call wider than 64 bits the builder cannot make the truncation. *)
Theorem getGlobalSize_stack_value (this : WIFuncResolution) (F : Function)
    (CI : Instruction) (n : nat) (callee : Callee) (dim : Value) (args : list Value)
    (env : Env) (regs : Regs) (c w d : Z) :
  hasStackCallAttr F = true ->
  inst_op CI = Call callee (dim :: args) ->
  inst_ty CI = IntegerTy c ->
  older n dim ->
  eval_value env regs dim = Some (RInt w d) ->
  addressable env F GLOBAL_STATE_FIELD_OFFSETS.GLOBAL_SIZE_X ->
  let O := GLOBAL_STATE_FIELD_OFFSETS.GLOBAL_SIZE_X in
  let G := getGlobalSize this F CI (mkBuilder n []) in
  (c mod 8 = 0 -> 0 < c < 64 ->
   G = Ok (reg n 10 (IntegerTy c), mkBuilder (11 + n) (wideLaneSequence F O c n dim)) /\
   (0 <= d < 3 -> run_result env regs G = Some (RInt c (wrap c (sbField env O 64 d)))) /\
   (3 <= d -> run_result env regs G = None)) /\
  (c = 64 ->
   G = Ok (reg n 7 (IntegerTy 64), mkBuilder (8 + n) (wideLaneSequence64 F O n dim)) /\
   (0 <= d < 3 -> run_result env regs G = Some (RInt 64 (sbField env O 64 d))) /\
   (3 <= d -> run_result env regs G = None)) /\
  (64 < c -> G = Undefined).
Proof.
  intros HS HCI Hty Ho Hd Ha O G. unfold G, getGlobalSize. cbv zeta. rewrite Hty.
  apply (wideLane_value F CI n callee dim args _ c _ env regs w d); try assumption;
    vm_compute; intuition congruence.
Qed.

Lemma getGlobalSize_stack_value_witness :
  run_result sampleEnv []
    (getGlobalSize (samplePass []) (stackFn [])
       (call 0 WIFuncsAnalysis.GET_GLOBAL_SIZE [VConst (ConstantInt 32 2)] Int32Ty)
       (mkBuilder 1 [])) =
  Some (RInt 32 (wrap 32 (sbField sampleEnv GLOBAL_STATE_FIELD_OFFSETS.GLOBAL_SIZE_X 64 2))).
Proof.
  destruct (getGlobalSize_stack_value (samplePass []) (stackFn [])
              (call 0 WIFuncsAnalysis.GET_GLOBAL_SIZE [VConst (ConstantInt 32 2)] Int32Ty)
              1 _ _ _ sampleEnv [] 32 32 2 eq_refl eq_refl eq_refl I eq_refl)
    as [H _].
  - apply addressable_small; [reflexivity | vm_compute; intuition congruence].
  - destruct (H eq_refl) as [_ [Hv _]]; [lia |]. apply Hv. lia.
Defined.

(** X15.  In a stack-call function GlobalOffset(dim) is read the same way
    from the 64-bit fields at GLOBAL_OFFSET_X + 8 * dim. *)
Theorem getGlobalOffset_stack_value (this : WIFuncResolution) (F : Function)
    (CI : Instruction) (n : nat) (callee : Callee) (dim : Value) (args : list Value)
    (env : Env) (regs : Regs) (c w d : Z) :
  hasStackCallAttr F = true ->
  inst_op CI = Call callee (dim :: args) ->
  inst_ty CI = IntegerTy c ->
  older n dim ->
  eval_value env regs dim = Some (RInt w d) ->
  addressable env F GLOBAL_STATE_FIELD_OFFSETS.GLOBAL_OFFSET_X ->
  let O := GLOBAL_STATE_FIELD_OFFSETS.GLOBAL_OFFSET_X in
  let G := getGlobalOffset this F CI (mkBuilder n []) in
  (c mod 8 = 0 -> 0 < c < 64 ->
   G = Ok (reg n 10 (IntegerTy c), mkBuilder (11 + n) (wideLaneSequence F O c n dim)) /\
   (0 <= d < 3 -> run_result env regs G = Some (RInt c (wrap c (sbField env O 64 d)))) /\
   (3 <= d -> run_result env regs G = None)) /\
  (c = 64 ->
   G = Ok (reg n 7 (IntegerTy 64), mkBuilder (8 + n) (wideLaneSequence64 F O n dim)) /\
   (0 <= d < 3 -> run_result env regs G = Some (RInt 64 (sbField env O 64 d))) /\
   (3 <= d -> run_result env regs G = None)) /\
  (64 < c -> G = Undefined).
Proof.
  intros HS HCI Hty Ho Hd Ha O G. unfold G, getGlobalOffset. cbv zeta. rewrite Hty.
  apply (wideLane_value F CI n callee dim args _ c _ env regs w d); try assumption;
    vm_compute; intuition congruence.
Qed.

Lemma getGlobalOffset_stack_value_witness :
  run_result sampleEnv []
    (getGlobalOffset (samplePass []) (stackFn [])
       (call 0 WIFuncsAnalysis.GET_GLOBAL_OFFSET [VConst (ConstantInt 32 0)] Int64Ty)
       (mkBuilder 1 [])) =
  Some (RInt 64 (sbField sampleEnv GLOBAL_STATE_FIELD_OFFSETS.GLOBAL_OFFSET_X 64 0)).
Proof.
  destruct (getGlobalOffset_stack_value (samplePass []) (stackFn [])
              (call 0 WIFuncsAnalysis.GET_GLOBAL_OFFSET [VConst (ConstantInt 32 0)] Int64Ty)
              1 _ _ _ sampleEnv [] 64 32 0 eq_refl eq_refl eq_refl I eq_refl)
    as [_ [H _]].
  - apply addressable_small; [reflexivity | vm_compute; intuition congruence].
  - destruct (H eq_refl) as [_ [Hv _]]. apply Hv. lia.
Defined.

(** X16.  In a stack-call function StageInGridSize(dim) is the low 32 bits
    of the GlobalSize field of that dim, whatever the type of the call: the
    handler reads the GLOBAL_SIZE fields and always truncates to 32 bits. *)
Theorem getStageInGridSize_stack_value (this : WIFuncResolution) (F : Function)
    (CI : Instruction) (n : nat) (callee : Callee) (dim : Value) (args : list Value)
    (env : Env) (regs : Regs) (w d : Z) :
  hasStackCallAttr F = true ->
  inst_op CI = Call callee (dim :: args) ->
  older n dim ->
  eval_value env regs dim = Some (RInt w d) ->
  addressable env F GLOBAL_STATE_FIELD_OFFSETS.GLOBAL_SIZE_X ->
  let O := GLOBAL_STATE_FIELD_OFFSETS.GLOBAL_SIZE_X in
  let G := getStageInGridSize this F CI (mkBuilder n []) in
  G = Ok (reg n 10 Int32Ty, mkBuilder (11 + n) (wideLaneSequence F O 32 n dim)) /\
  (0 <= d < 3 -> run_result env regs G = Some (RInt 32 (wrap 32 (sbField env O 64 d)))) /\
  (3 <= d -> run_result env regs G = None).
Proof.
  intros HS HCI Ho Hd Ha O G. unfold G, getStageInGridSize. cbv zeta. unfold Int32Ty.
  refine (proj1 (wideLane_value F CI n callee dim args O 32 _ env regs w d
                   HS HCI _ _ Ho Hd Ha) eq_refl _);
    vm_compute; intuition congruence.
Qed.

Lemma getStageInGridSize_stack_value_witness :
  run_result sampleEnv []
    (getStageInGridSize (samplePass []) (stackFn [])
       (call 0 WIFuncsAnalysis.GET_STAGE_IN_GRID_SIZE [VConst (ConstantInt 32 1)] Int64Ty)
       (mkBuilder 1 [])) =
  Some (RInt 32 (wrap 32 (sbField sampleEnv GLOBAL_STATE_FIELD_OFFSETS.GLOBAL_SIZE_X 64 1))).
Proof.
  destruct (getStageInGridSize_stack_value (samplePass []) (stackFn [])
              (call 0 WIFuncsAnalysis.GET_STAGE_IN_GRID_SIZE [VConst (ConstantInt 32 1)] Int64Ty)
              1 _ _ _ sampleEnv [] 32 1 eq_refl eq_refl I eq_refl)
    as [_ [Hv _]].
  - apply addressable_small; [reflexivity | vm_compute; intuition congruence].
  - apply Hv. lia.
Defined.

(* ------------------------------------------------------------------ *)
(** ** Queries answered from the hidden arguments *)

(** X17.  In a function that is not a stack call, GlobalSize, LocalSize,
    EnqueuedLocalSize, GlobalOffset, NumGroups and StageInGridSize are each
    one extractelement of lane dim from a hidden vector argument: of kind
    GLOBAL_SIZE, LOCAL_SIZE, ENQUEUED_LOCAL_WORK_SIZE, PAYLOAD_HEADER,
    NUM_GROUPS and STAGE_IN_GRID_SIZE in that order.  The value is lane dim
    of the actual argument. *)
Theorem implicit_vector_query_lowering
    (h : WIFuncResolution -> Function -> Instruction -> M Value) (kind : ArgType)
    (this : WIFuncResolution) (F : Function) (CI : Instruction) (n : nat)
    (callee : Callee) (dim : Value) (args : list Value) (m : nat) (e : Ty) (w : Z) :
  In (h, kind) implicitVectorQueries ->
  hasStackCallAttr F = false ->
  inst_op CI = Call callee (dim :: args) ->
  getImplicitArg this F kind (mkBuilder n []) =
    Ok (VArg m (FixedVectorTy e w), mkBuilder n []) ->
  let L := h this F CI (mkBuilder n []) in
  L = Ok (VInst n e,
          mkBuilder (S n) [mkInst n (ExtractElement (VArg m (FixedVectorTy e w)) dim) e]) /\
  forall env regs c vec wd d x,
    eval_value env regs dim = Some (RInt wd d) ->
    nth_error (env_args env) m = Some (RVec c vec) ->
    nth_error vec (Z.to_nat d) = Some x ->
    run_result env regs L = Some (RInt c x).
Proof.
  intros Hin HS HCI HA L.
  assert (HL : L = Ok (VInst n e,
                       mkBuilder (S n)
                         [mkInst n (ExtractElement (VArg m (FixedVectorTy e w)) dim) e])).
  { unfold L, implicitVectorQueries in *. cbn [In] in Hin.
    repeat (destruct Hin as [Hin | Hin];
            [ injection Hin as <- <-;
              unfold getGlobalSize, getLocalSize, getEnqueuedLocalSize, getGlobalOffset,
                getNumGroups, getStageInGridSize;
              rewrite HS; unfold bind at 1; rewrite HA;
              unfold bind at 1; unfold getArgOperand; rewrite HCI; cbn [nth_error];
              unfold ret at 1; unfold ExtractElementInst_Create;
              unfold bind at 1; erewrite CreateExtractElement_eq by reflexivity;
              reflexivity
            | ]).
    contradiction. }
  split; [exact HL |].
  intros env regs c vec wd d x Hd Hm Hx. rewrite HL.
  unfold run_result. cbn [inserted exec inst_op inst_ty inst_id eval_op].
  rewrite Hd. cbn [eval_value]. rewrite Hm, Hx.
  cbn [lookup]. rewrite Nat.eqb_refl. reflexivity.
Qed.

Lemma implicit_vector_query_lowering_witness :
  getGlobalOffset (samplePass [PAYLOAD_HEADER]) (kernelFn [FixedVectorTy Int32Ty 8] [])
    (call 0 WIFuncsAnalysis.GET_GLOBAL_OFFSET [VConst (ConstantInt 32 1)] Int32Ty)
    (mkBuilder 1 []) =
  Ok (VInst 1 Int32Ty,
      mkBuilder 2 [mkInst 1 (ExtractElement (VArg 2 (FixedVectorTy Int32Ty 8))
                                            (VConst (ConstantInt 32 1))) Int32Ty]).
Proof.
  apply (implicit_vector_query_lowering getGlobalOffset PAYLOAD_HEADER
           (samplePass [PAYLOAD_HEADER]) (kernelFn [FixedVectorTy Int32Ty 8] [])
           (call 0 WIFuncsAnalysis.GET_GLOBAL_OFFSET [VConst (ConstantInt 32 1)] Int32Ty)
           1 (NamedFunction WIFuncsAnalysis.GET_GLOBAL_OFFSET) (VConst (ConstantInt 32 1)) []
           2 Int32Ty 8);
    [ simpl; auto | reflexivity | reflexivity | reflexivity ].
Defined.

Lemma bind_ok {A B : Type} (m : M A) (k : A -> M B) (st st' : IRBuilder) (a : A) :
  m st = Ok (a, st') -> bind m k st = k a st'.
Proof. intros H. unfold bind. rewrite H. reflexivity. Qed.

(** X18.  In a function that is not a stack call, a LocalId, WorkDim or
    SyncBuffer query costs no instruction: when the hidden argument is at
    least as wide as the call, the lowering inserts nothing and yields the
    argument itself.  When the argument has the type of the call,
    [visitCallInst] makes every use of the call a use of the argument and
    erases the call; an argument of another type (a wider one) cannot
    replace the call, and the rewriting is not defined. *)
Theorem implicit_scalar_query_costs_nothing (name : string) (kind : ArgType)
    (this : WIFuncResolution) (F : Function) (CI : Instruction) (args : list Value)
    (m : nat) (t : Ty) :
  In (name, kind) implicitScalarQueries ->
  hasStackCallAttr F = false ->
  inst_op CI = Call (NamedFunction name) args ->
  getImplicitArg this F kind (mkBuilder (freshId F) []) =
    Ok (VArg m t, mkBuilder (freshId F) []) ->
  getScalarSizeInBits (inst_ty CI) <= getScalarSizeInBits t ->
  (exists handler,
     resolveCall this F CI name = Some handler /\
     (wiRes <- handler ;; adaptWidth CI wiRes) (mkBuilder (freshId F) []) =
       Ok (VArg m t, mkBuilder (freshId F) [])) /\
  (t = inst_ty CI ->
   visitCallInst this F CI = Ok (set_changed this true, rewired F CI (VArg m t) [])) /\
  (t <> inst_ty CI -> visitCallInst this F CI = Undefined) /\
  fn_body (rewired F CI (VArg m t) []) =
    eraseFromParent CI (substUses (valueOf CI) (VArg m t) (fn_body F)).
Proof.
  intros Hin HS HCI HA Hw.
  assert (HR : exists handler,
               resolveCall this F CI name = Some handler /\
               handler (mkBuilder (freshId F) []) = Ok (VArg m t, mkBuilder (freshId F) [])).
    { unfold implicitScalarQueries in Hin. cbn [In] in Hin.
      repeat (destruct Hin as [Hin | Hin];
              [ injection Hin as <- <-; eexists; split; [reflexivity |];
                unfold getLocalId, getWorkDim, getSyncBufferPtr; rewrite ?HS;
                rewrite (bind_ok _ _ _ _ _ HA); reflexivity
              | ]).
      contradiction. }
  destruct HR as [handler [ER EH]].
  assert (HL : (wiRes <- handler ;; adaptWidth CI wiRes) (mkBuilder (freshId F) []) =
               Ok (VArg m t, mkBuilder (freshId F) [])).
  { rewrite (bind_ok _ _ _ _ _ EH). apply adaptWidth_wide. exact Hw. }
  split; [exists handler; split; assumption |]. split; [| split].
  - intros HT.
    rewrite (visitCallInst_recognised this F CI name args handler HCI ER), HL.
    cbn [inserted]. rewrite rewire_typed by exact HT. reflexivity.
  - intros HT.
    rewrite (visitCallInst_recognised this F CI name args handler HCI ER), HL.
    cbn [inserted]. rewrite rewire_mistyped by exact HT. reflexivity.
  - unfold rewired. cbn [fn_body set_body]. do 2 f_equal.
    unfold insertBefore. clear.
    induction (fn_body F) as [| i l IH]; cbn [flat_map]; [reflexivity |].
    rewrite IH. destruct (Nat.eqb (inst_id i) (inst_id CI)); reflexivity.
Qed.

Lemma implicit_scalar_query_costs_nothing_witness :
  let CI := call 0 WIFuncsAnalysis.GET_WORK_DIM [] Int32Ty in
  visitCallInst (samplePass [R0; WORK_DIM]) sampleKernel CI =
    Ok (samplePass_changed [R0; WORK_DIM], rewired sampleKernel CI (VArg 3 Int32Ty) []).
Proof.
  intros CI.
  destruct (implicit_scalar_query_costs_nothing WIFuncsAnalysis.GET_WORK_DIM WORK_DIM
              (samplePass [R0; WORK_DIM]) sampleKernel CI [] 3 Int32Ty)
    as [_ [H _]];
    [ simpl; auto | reflexivity | reflexivity | reflexivity | vm_compute; discriminate
    | exact (H eq_refl) ].
Defined.

(* ------------------------------------------------------------------ *)
(** ** The field loader on any offset *)

Lemma BuildLoadInst_aligned_roundtrip_witness :
  exists v,
    run_result sampleEnv [] (BuildLoadInst (stackFn []) 0 Int32Ty (mkBuilder 1 [])) = Some v /\
    bytes_of v = Some (sbBytes sampleEnv 0 4).
Proof.
  destruct (BuildLoadInst_aligned_roundtrip sampleEnv [] (stackFn []) 0 32 1 Int32Ty 1)
    as [_ H];
    [ left; split; reflexivity
    | reflexivity | reflexivity | reflexivity
    | vm_compute; intuition congruence
    | reflexivity
    | apply addressable_0
    | exact H ].
Defined.

(** X20.  The field loader has no defined result on any offset that is not
    a multiple of the element size: whatever the type and the offset, the
    two-element load it makes for such an offset is then cast to the scalar
    type i8, which is not a valid cast. *)
Theorem BuildLoadInst_undefined_off_alignment (F : Function) (O : Z) (T : Ty)
    (st : IRBuilder) :
  0 < elemByteSize T -> 0 <= O < 2 ^ 32 -> O mod elemByteSize T <> 0 ->
  BuildLoadInst F O T st = Undefined.
Proof.
  intros HE HO Hm. apply BuildLoadInst_misaligned.
  - unfold elemByteSize in HE.
    destruct (Z_lt_le_dec 0 (getScalarSizeInBits T)) as [H | H]; [exact H |].
    exfalso. assert (getScalarSizeInBits T / 8 <= 0); [| lia].
    apply Z.div_le_upper_bound; lia.
  - unfold alignedOffset. intros E.
    pose proof (Z.div_mod O (elemByteSize T) ltac:(lia)) as Hdm.
    pose proof (Z.mod_pos_bound O (elemByteSize T) HE) as Hb.
    assert (Hq : 0 <= O / elemByteSize T) by (apply Z.div_pos; lia).
    rewrite u32_small in E by nia.
    apply Hm. nia.
Qed.

Lemma BuildLoadInst_undefined_off_alignment_witness :
  BuildLoadInst (stackFn []) 6 (FixedVectorTy Int64Ty 3) (mkBuilder 1 []) = Undefined.
Proof.
  apply (BuildLoadInst_undefined_off_alignment (stackFn []) 6 (FixedVectorTy Int64Ty 3));
    [ reflexivity | vm_compute; intuition congruence | vm_compute; discriminate ].
Defined.

Lemma getWorkDim_stack_value_witness :
  run_result sampleEnv []
    (getWorkDim (samplePass []) (stackFn [])
       (call 0 WIFuncsAnalysis.GET_WORK_DIM [] Int32Ty) (mkBuilder 1 [])) =
  Some (RInt 32 (Z_of_byte (env_mem sampleEnv ADDRESS_SPACE_A32
                                    GLOBAL_STATE_FIELD_OFFSETS.SIMDSIZE))).
Proof.
  apply (getWorkDim_stack_value (samplePass []) (stackFn [])
           (call 0 WIFuncsAnalysis.GET_WORK_DIM [] Int32Ty) 1 sampleEnv []).
  reflexivity.
Defined.

(* ------------------------------------------------------------------ *)
(** ** Stack-call functions and the hidden arguments *)

Lemma nf_ret {A : Type} (a : A) : never_fatal (ret a).
Proof. intros st msg. discriminate. Qed.

Lemma nf_undefined {A : Type} : never_fatal (@undefined A).
Proof. intros st msg. discriminate. Qed.

Lemma nf_bind {A B : Type} (m : M A) (k : A -> M B) :
  never_fatal m -> (forall a, never_fatal (k a)) -> never_fatal (bind m k).
Proof.
  intros Hm Hk st msg. unfold bind.
  destruct (m st) as [[a st1] | msg' |] eqn:Em.
  - apply Hk.
  - exfalso. exact (Hm st msg' Em).
  - discriminate.
Qed.

Lemma nf_Insert (op : Opcode) (t : Ty) : never_fatal (Insert op t).
Proof. intros st msg. discriminate. Qed.

Lemma nf_setAlignment (ld : Value) (a : Z) : never_fatal (setAlignment ld a).
Proof. intros st msg. discriminate. Qed.

Lemma nf_CastInst_Create (op : CastOp) (v : Value) (t : Ty) :
  never_fatal (CastInst_Create op v t).
Proof.
  unfold CastInst_Create. destruct (castIsValid op (getType v) t);
    [apply nf_Insert | apply nf_undefined].
Qed.

Lemma nf_CreateCast (op : CastOp) (v : Value) (t : Ty) : never_fatal (CreateCast op v t).
Proof.
  unfold CreateCast. destruct (Ty_eqb (getType v) t); [apply nf_ret |].
  destruct (castIsValid op (getType v) t); [| apply nf_undefined].
  destruct v; [apply nf_Insert | apply nf_Insert | apply nf_ret].
Qed.

Lemma nf_CreateZExtOrBitCast (v : Value) (t : Ty) : never_fatal (CreateZExtOrBitCast v t).
Proof.
  unfold CreateZExtOrBitCast.
  destruct (getScalarSizeInBits (getType v) =? getScalarSizeInBits t); apply nf_CreateCast.
Qed.

Lemma nf_CreateLoad (p : Value) : never_fatal (CreateLoad p).
Proof.
  unfold CreateLoad. destruct (getType p); try apply nf_undefined. apply nf_Insert.
Qed.

Lemma nf_CreateExtractElement (v i : Value) : never_fatal (CreateExtractElement v i).
Proof.
  unfold CreateExtractElement. destruct (getType v); try apply nf_undefined. apply nf_Insert.
Qed.

Lemma nf_CreateInsertElement (v e i : Value) : never_fatal (CreateInsertElement v e i).
Proof.
  unfold CreateInsertElement. destruct (getType v); try apply nf_undefined. apply nf_Insert.
Qed.

Lemma nf_CreateBinOp (op : BinaryOp) (a b : Value) : never_fatal (CreateBinOp op a b).
Proof.
  unfold CreateBinOp. destruct (Ty_eqb (getType a) (getType b));
    [apply nf_Insert | apply nf_undefined].
Qed.

Lemma nf_CreateICmp (p : Predicate) (a b : Value) : never_fatal (CreateICmp p a b).
Proof.
  unfold CreateICmp. destruct (Ty_eqb (getType a) (getType b));
    [apply nf_Insert | apply nf_undefined].
Qed.

Lemma nf_CreateSelect (c a b : Value) : never_fatal (CreateSelect c a b).
Proof.
  unfold CreateSelect. destruct (Ty_eqb (getType a) (getType b));
    [apply nf_Insert | apply nf_undefined].
Qed.

Lemma nf_CreateCall (id : GenISA_ID) (t : Ty) : never_fatal (CreateCall id t).
Proof. unfold CreateCall. apply nf_Insert. Qed.

Lemma nf_getArgOperand (CI : Instruction) (k : nat) : never_fatal (getArgOperand CI k).
Proof.
  unfold getArgOperand. destruct (inst_op CI); try apply nf_undefined.
  destruct (nth_error args k); [apply nf_ret | apply nf_undefined].
Qed.

Ltac nf1 :=
  lazymatch goal with
  | |- never_fatal (ret _) => apply nf_ret
  | |- never_fatal undefined => apply nf_undefined
  | |- never_fatal (bind _ _) => apply nf_bind; [| intros ?]
  | |- never_fatal (setAlignment _ _) => apply nf_setAlignment
  | |- never_fatal (CastInst_Create _ _ _) => apply nf_CastInst_Create
  | |- never_fatal (CreateCast _ _ _) => apply nf_CreateCast
  | |- never_fatal (CreateTrunc _ _) => apply nf_CreateCast
  | |- never_fatal (CreateZExt _ _) => apply nf_CreateCast
  | |- never_fatal (CreateBitCast _ _) => apply nf_CreateCast
  | |- never_fatal (CreateIntToPtr _ _) => apply nf_CreateCast
  | |- never_fatal (CreateZExtOrBitCast _ _) => apply nf_CreateZExtOrBitCast
  | |- never_fatal (CreateLoad _) => apply nf_CreateLoad
  | |- never_fatal (CreateExtractElement _ _) => apply nf_CreateExtractElement
  | |- never_fatal (CreateInsertElement _ _ _) => apply nf_CreateInsertElement
  | |- never_fatal (CreateBinOp _ _ _) => apply nf_CreateBinOp
  | |- never_fatal (CreateAdd _ _) => apply nf_CreateBinOp
  | |- never_fatal (CreateMul _ _) => apply nf_CreateBinOp
  | |- never_fatal (CreateLShr _ _) => apply nf_CreateBinOp
  | |- never_fatal (CreateICmp _ _ _) => apply nf_CreateICmp
  | |- never_fatal (CreateSelect _ _ _) => apply nf_CreateSelect
  | |- never_fatal (CreateCall _ _) => apply nf_CreateCall
  | |- never_fatal (getArgOperand _ _) => apply nf_getArgOperand
  | |- never_fatal (if ?c then _ else _) => destruct c
  end.

Lemma nf_copyBytes (n : nat) (I O A : Z) (b v : Value) :
  never_fatal (copyBytes n I O A b v).
Proof.
  revert I v. induction n as [| n IH]; intros I v; cbn [copyBytes].
  - apply nf_ret.
  - repeat nf1. apply IH.
Qed.

Lemma nf_truncLanes (lanes : list Z) (ld : Value) (t : Ty) (u : Value) :
  never_fatal (truncLanes lanes ld t u).
Proof.
  revert u. induction lanes as [| i lanes IH]; intros u; cbn [truncLanes].
  - apply nf_ret.
  - repeat nf1. apply IH.
Qed.

Lemma nf_BuildLoadInst (F : Function) (O : Z) (T : Ty) : never_fatal (BuildLoadInst F O T).
Proof.
  unfold BuildLoadInst. yields_prep.
  repeat lazymatch goal with
         | |- never_fatal (copyBytes _ _ _ _ _ _) => apply nf_copyBytes
         | |- _ => nf1
         end.
Qed.

Ltac nf_handler :=
  yields_prep;
  repeat lazymatch goal with
         | |- never_fatal (BuildLoadInst _ _ _) => apply nf_BuildLoadInst
         | |- never_fatal (truncLanes _ _ _ _) => apply nf_truncLanes
         | |- _ => nf1
         end.

Lemma nf_resolveCall (this : WIFuncResolution) (F : Function) (CI : Instruction)
    (name : string) (handler : M Value) :
  hasStackCallAttr F = true ->
  alwaysImplicit name = false ->
  resolveCall this F CI name = Some handler -> never_fatal handler.
Proof.
  intros HS Hn. unfold alwaysImplicit in Hn. apply orb_false_elim in Hn.
  destruct Hn as [Hn1 Hn2]. unfold resolveCall. rewrite Hn1, Hn2.
  repeat match goal with
         | |- context [String.eqb name ?c] => destruct (String.eqb name c)
         end;
    intros H; try discriminate; injection H as <-;
    unfold getLocalId, getGroupId, getLocalThreadId, getGlobalSize, getLocalSize,
      getEnqueuedLocalSize, getGlobalOffset, getWorkDim, getNumGroups, getStageInGridSize;
    rewrite HS; nf_handler.
Qed.

Lemma nf_adaptWidth (CI : Instruction) (v : Value) : never_fatal (adaptWidth CI v).
Proof.
  unfold adaptWidth.
  destruct (getScalarSizeInBits (getType v) <? getScalarSizeInBits (inst_ty CI));
    repeat nf1.
Qed.

(** X22.  In a stack-call function only StageInGridOrigin and SyncBuffer
    consult the hidden arguments: rewriting any other call can never abort
    on the parameter count, however few formal parameters the function
    has. *)
Theorem stack_call_lowering_never_aborts (this : WIFuncResolution) (F : Function)
    (CI : Instruction) (name : string) (args : list Value) (msg : string) :
  hasStackCallAttr F = true ->
  inst_op CI = Call (NamedFunction name) args ->
  alwaysImplicit name = false ->
  visitCallInst this F CI <> Fatal msg.
Proof.
  intros HS HCI Hn. unfold visitCallInst. rewrite HCI.
  destruct (resolveCall this F CI name) as [handler |] eqn:ER; [| discriminate].
  pose proof (nf_bind handler (adaptWidth CI)
                (nf_resolveCall this F CI name handler HS Hn ER)
                (nf_adaptWidth CI) (mkBuilder (freshId F) [])) as Hnf.
  destruct ((wiRes <- handler;; adaptWidth CI wiRes) (mkBuilder (freshId F) []))
    as [[w B] | msg' |].
  - destruct (rewire F CI w (inserted B)) as [F1 | msg1 |] eqn:ERW; try discriminate.
    exfalso. exact (rewire_never_fatal F CI w (inserted B) msg1 ERW).
  - exfalso. exact (Hnf msg' eq_refl).
  - discriminate.
Qed.

Lemma stack_call_lowering_never_aborts_witness :
  exists r,
    visitCallInst (samplePass [R0; WORK_DIM]) (stackFn [])
      (call 0 WIFuncsAnalysis.GET_WORK_DIM [] Int32Ty) = r /\
    r <> Fatal "Function arg size does not match meta data args.".
Proof.
  eexists. split; [reflexivity |].
  apply (stack_call_lowering_never_aborts (samplePass [R0; WORK_DIM]) (stackFn [])
           (call 0 WIFuncsAnalysis.GET_WORK_DIM [] Int32Ty)
           WIFuncsAnalysis.GET_WORK_DIM []);
    reflexivity.
Defined.

(** X23.  The width step never leaves a replacement narrower than the
    call: a narrower result is zero-extended to exactly the width of the
    call, any other result is passed on as it is (a wider one is not
    truncated). *)
Theorem adaptWidth_never_narrower (CI : Instruction) (v w : Value) (st st' : IRBuilder) :
  adaptWidth CI v st = Ok (w, st') ->
  getScalarSizeInBits (inst_ty CI) <= getScalarSizeInBits (getType w) /\
  (getScalarSizeInBits (inst_ty CI) <= getScalarSizeInBits (getType v) ->
   w = v /\ st' = st).
Proof.
  unfold adaptWidth.
  destruct (getScalarSizeInBits (getType v) <? getScalarSizeInBits (inst_ty CI)) eqn:E.
  - apply Z.ltb_lt in E. unfold bind, CastInst_Create.
    remember (getScalarSizeInBits (inst_ty CI)) as c eqn:Ec.
    destruct (castIsValid ZExt (getType v) (IntegerTy c)); [| discriminate].
    unfold Insert, ret, valueOf. cbn [inst_id inst_ty]. intros H. injection H as <- <-.
    split; [cbn; lia | intros; lia].
  - apply Z.ltb_ge in E. unfold ret. intros H. injection H as <- <-.
    split; [exact E | auto].
Qed.

Lemma adaptWidth_never_narrower_witness :
  exists w st',
    adaptWidth (call 0 WIFuncsAnalysis.GET_LOCAL_ID_X [] Int64Ty) (VArg 2 Int16Ty)
      (mkBuilder 5 []) = Ok (w, st') /\
    getScalarSizeInBits Int64Ty <= getScalarSizeInBits (getType w).
Proof.
  eexists. eexists. split; [reflexivity |].
  apply (adaptWidth_never_narrower (call 0 WIFuncsAnalysis.GET_LOCAL_ID_X [] Int64Ty)
           (VArg 2 Int16Ty) (VInst 5 Int64Ty) (mkBuilder 5 [])
           (mkBuilder 6 [mkInst 5 (Cast ZExt (VArg 2 Int16Ty)) Int64Ty])).
  reflexivity.
Defined.

(* ------------------------------------------------------------------ *)
(** ** No dangling operand *)

Lemma Value_eqb_VInst (id : nat) (t : Ty) : Value_eqb (VInst id t) (VInst id t) = true.
Proof. cbn [Value_eqb]. rewrite Nat.eqb_refl, Ty_eqb_refl. reflexivity. Qed.

Lemma Value_eqb_VInst_eq (a b : Value) (id : nat) (t : Ty) :
  b = VInst id t -> Value_eqb a b = true -> a = b.
Proof.
  intros -> H. destruct a as [id' t' | |]; cbn [Value_eqb] in H; try discriminate.
  apply andb_prop in H. destruct H as [H1 H2].
  apply Nat.eqb_eq in H1. apply Ty_eqb_eq in H2. congruence.
Qed.

Lemma closedb_closed (body : list Instruction) : closedb body = true -> closed body.
Proof.
  unfold closedb, closed. intros H i v Hi Hv.
  rewrite forallb_forall in H. specialize (H i Hi).
  rewrite forallb_forall in H. specialize (H v Hv).
  destruct v as [id t | |]; cbn [defined_in]; try exact I.
  apply existsb_exists in H. destruct H as [j [Hj E]].
  exists j. split; [exact Hj |]. apply (Value_eqb_VInst_eq _ _ id t eq_refl E).
Qed.

Lemma valueOf_subst (a b : Value) (i : Instruction) :
  valueOf (mkInst (inst_id i) (substOpcode a b (inst_op i)) (inst_ty i)) = valueOf i.
Proof. reflexivity. Qed.

Lemma defined_in_substUses (a b : Value) (body : list Instruction) (v : Value) :
  defined_in body v -> defined_in (substUses a b body) v.
Proof.
  destruct v as [id t | |]; cbn [defined_in]; try trivial.
  intros [j [Hj E]].
  exists (mkInst (inst_id j) (substOpcode a b (inst_op j)) (inst_ty j)).
  split; [| exact E]. unfold substUses.
  apply (in_map (fun I => mkInst (inst_id I) (substOpcode a b (inst_op I)) (inst_ty I))).
  exact Hj.
Qed.

Lemma defined_in_app (l1 l2 : list Instruction) (v : Value) :
  defined_in l1 v \/ defined_in l2 v -> defined_in (l1 ++ l2) v.
Proof.
  destruct v as [id t | |]; cbn [defined_in]; try trivial.
  intros [[j [Hj E]] | [j [Hj E]]]; exists j; (split; [apply in_or_app; auto | exact E]).
Qed.

(** One rewritten call leaves no dangling operand. *)
Lemma visitCallInst_closed (this this' : WIFuncResolution) (F F' : Function)
    (CI : Instruction) :
  NoDup (ids (fn_body F)) -> closed (fn_body F) -> In CI (fn_body F) ->
  visitCallInst this F CI = Ok (this', F') ->
  closed (fn_body F').
Proof.
  intros Hnd Hcl Hin EV.
  destruct (visitCallInst_cases this this' F F' CI Hnd Hin EV)
    as [[_ [_ ->]] | [_ [_ [pre [post [new [w [Hb [Hpre [Hpost [Hb1 [Hnids [_ [_ [_ [_ [Hw [Ht Hu]]]]]]]]]]]]]]]]]];
    [exact Hcl |].
  set (old := valueOf CI) in *.
  set (R := substUses old w) in *.
  (* a value defined by the inserted instructions *)
  assert (Hnew : forall v, defined_in new v -> defined_in (fn_body F') v).
  { intros v Hv. rewrite Hb1. apply defined_in_app. right. apply defined_in_app. left.
    apply defined_in_substUses. exact Hv. }
  (* a value defined by the function that is not the call *)
  assert (Hold : forall v, defined_in (fn_body F) v -> Value_eqb v old = false ->
                           defined_in (fn_body F') v).
  { intros v Hv Hne. destruct v as [id t | |]; try exact I.
    cbn [defined_in] in Hv. destruct Hv as [j [Hj E]].
    rewrite Hb in Hj. apply in_app_or in Hj. rewrite Hb1.
    destruct Hj as [Hj | [<- | Hj]].
    - apply defined_in_app. left. apply defined_in_substUses.
      exists j. auto.
    - exfalso. fold old in E. rewrite E, Value_eqb_VInst in Hne. discriminate.
    - apply defined_in_app. right. apply defined_in_app. right.
      apply defined_in_substUses. exists j. auto. }
  (* a usable value *)
  assert (Huse : forall v, usable CI new v -> Value_eqb v old = false ->
                           defined_in (fn_body F') v).
  { intros v [Hv | Hv] Hne; [apply Hnew; exact Hv |].
    apply Hold; [| exact Hne]. apply (Hcl CI v Hin Hv). }
  (* the replacement itself *)
  assert (Hwnew : Value_eqb w old = false) by (apply (newer_not_old F); assumption).
  assert (Hwd : defined_in (fn_body F') w) by (apply Huse; assumption).
  intros i' v' Hi' Hv'.
  assert (Hsrc : exists i0, In i0 (pre ++ new ++ post) /\
                            i' = mkInst (inst_id i0) (substOpcode old w (inst_op i0))
                                        (inst_ty i0)).
  { rewrite Hb1 in Hi'. unfold R in Hi'. unfold substUses in Hi'.
    rewrite <- !map_app in Hi'. apply in_map_iff in Hi'.
    destruct Hi' as [i0 [E Hi0]]. exists i0. auto. }
  destruct Hsrc as [i0 [Hi0 ->]]. cbn [inst_op] in Hv'.
  rewrite operands_substOpcode in Hv'. apply in_map_iff in Hv'.
  destruct Hv' as [v0 [<- Hv0]]. unfold substValue.
  destruct (Value_eqb v0 old) eqn:Ev; [exact Hwd |].
  apply in_app_or in Hi0. destruct Hi0 as [Hi0 | Hi0].
  - apply Hold; [| exact Ev]. apply (Hcl i0 v0); [| exact Hv0].
    rewrite Hb. apply in_or_app. left. exact Hi0.
  - apply in_app_or in Hi0. destruct Hi0 as [Hi0 | Hi0].
    + apply Huse; [| exact Ev]. apply (Ht i0 v0 Hi0 Hv0).
    + apply Hold; [| exact Ev]. apply (Hcl i0 v0); [| exact Hv0].
      rewrite Hb. apply in_or_app. right. right. exact Hi0.
Qed.

Lemma visitCallInst_nodup (this this' : WIFuncResolution) (F F' : Function)
    (CI : Instruction) :
  NoDup (ids (fn_body F)) -> In CI (fn_body F) ->
  visitCallInst this F CI = Ok (this', F') ->
  NoDup (ids (fn_body F')).
Proof.
  intros Hnd Hin EV.
  assert (HV : visitAll [inst_id CI] this F = Ok (this', F')).
  { cbn [visitAll].
    destruct (find (fun I => Nat.eqb (inst_id I) (inst_id CI)) (fn_body F)) as [CI' |] eqn:Ef.
    - apply find_some in Ef. destruct Ef as [Hin' E]. apply Nat.eqb_eq in E.
      assert (CI' = CI) by (apply (ids_unique (fn_body F)); assumption).
      subst CI'. rewrite EV. reflexivity.
    - exfalso. apply (find_none _ _ Ef CI) in Hin. rewrite Nat.eqb_refl in Hin.
      discriminate. }
  apply (visitAll_spec _ _ _ _ _ Hnd HV).
Qed.

Lemma visitAll_closed (l : list nat) (this this' : WIFuncResolution) (F F' : Function) :
  NoDup (ids (fn_body F)) -> closed (fn_body F) ->
  visitAll l this F = Ok (this', F') ->
  closed (fn_body F').
Proof.
  revert this F. induction l as [| id l IH]; intros this F Hnd Hcl; cbn [visitAll].
  - intros H. injection H as _ <-. exact Hcl.
  - destruct (find (fun I => Nat.eqb (inst_id I) id) (fn_body F)) as [CI |] eqn:Ef.
    + pose proof (find_some _ _ Ef) as [HinCI _].
      destruct (visitCallInst this F CI) as [[this1 F1] | |] eqn:EV; try discriminate.
      apply IH.
      * exact (visitCallInst_nodup this this1 F F1 CI Hnd HinCI EV).
      * exact (visitCallInst_closed this this1 F F1 CI Hnd Hcl HinCI EV).
    + apply IH; assumption.
Qed.

Lemma closed_substUses_arg (m : nat) (t : Ty) (c : Constant)
    (body : list Instruction) :
  closed body -> closed (substUses (VArg m t) (VConst c) body).
Proof.
  intros Hcl i' v' Hi' Hv'. unfold substUses in Hi'.
  apply in_map_iff in Hi'. destruct Hi' as [i0 [<- Hi0]]. cbn [inst_op] in Hv'.
  rewrite operands_substOpcode in Hv'. apply in_map_iff in Hv'.
  destruct Hv' as [v0 [<- Hv0]]. unfold substValue.
  destruct (Value_eqb v0 (VArg m t)); [exact I |].
  apply defined_in_substUses. exact (Hcl i0 v0 Hi0 Hv0).
Qed.

(** X24.  [runOnFunction] leaves no dangling operand: if every instruction
    result used in the function is the result of one of its instructions,
    that also holds of the function the pass returns.  The instructions it
    inserts use only constants, formal parameters, results of instructions
    inserted before them and operands of the call they replace. *)
Theorem runOnFunction_keeps_operands_defined (ctx : CodeGenContext) (MD : MetaDataUtils)
    (F F' : Function) (b : bool) :
  NoDup (ids (fn_body F)) ->
  closedb (fn_body F) = true ->
  runOnFunction ctx MD F = Ok (b, F') ->
  closed (fn_body F').
Proof.
  intros Hnd Hcb. apply closedb_closed in Hcb. unfold runOnFunction.
  destruct (visit (mkPass (md_implicitArgs MD) false ctx) F) as [[this1 F1] | |] eqn:HV;
    try discriminate.
  unfold visit in HV.
  pose proof (visitAll_closed _ _ _ _ _ Hnd Hcb HV) as Hc1.
  destruct (getKnownWorkGroupSize MD F1) as [K |] eqn:EK;
    [| intros H; injection H as _ <-; exact Hc1].
  destruct (ImplicitArgs_getImplicitArg (m_implicitArgs this1) F1 ENQUEUED_LOCAL_WORK_SIZE)
    as [[Arg |] | |] eqn:EA; try discriminate;
    [| intros H; injection H as _ <-; exact Hc1].
  destruct (ImplicitArgs_getImplicitArg_is_arg _ _ _ _ EA) as [m [t ->]].
  unfold getKnownWorkGroupSize in EK.
  destruct (md_threadGroupDims MD) as [[[x y] z] |]; [| discriminate].
  injection EK as <-.
  destruct (replaceAllUsesWith (VArg m t) (VConst (ConstantDataVector 32 [x; y; z]))
              (fn_body F1)) as [body | |] eqn:ER; try discriminate.
  apply replaceAllUsesWith_ok in ER. destruct ER as [_ ->].
  intros H. injection H as _ <-. cbn [fn_body set_body].
  apply closed_substUses_arg. exact Hc1.
Qed.

Lemma runOnFunction_keeps_operands_defined_witness :
  defined_in (fn_body sampleKernel_resolved) (VInst 6 Int32Ty).
Proof.
  apply (runOnFunction_keeps_operands_defined (mkCtx 32) sampleMD sampleKernel
           sampleKernel_resolved true
           ltac:(unfold ids; simpl; repeat constructor; simpl; intuition lia)
           eq_refl eq_refl
           (mkInst 2 (OtherInst [VArg 3 Int32Ty; VInst 6 Int32Ty]) Int32Ty));
    simpl; auto 10.
Defined.

(* ------------------------------------------------------------------ *)
(** ** LocalId for a call narrower than the table entries *)

(** X25.  In a stack-call function a LocalId call of fewer than 16 bits has
    no lowering: the 16-bit value loaded from the table is passed to
    CreateZExtOrBitCast, which can widen but not narrow, so the cast the
    source names Trunc cannot be built. *)
Theorem getLocalId_stack_narrow_call (this : WIFuncResolution) (F : Function)
    (CI : Instruction) (argType : ArgType) (n : nat) (c : Z) :
  hasStackCallAttr F = true ->
  inst_ty CI = IntegerTy c -> c < 16 ->
  getLocalId this F CI argType (mkBuilder n []) = Undefined.
Proof.
  intros HS HT Hc. unfold getLocalId. rewrite HS.
  change GLOBAL_STATE_FIELD_OFFSETS.LOCAL_IDS with 72.
  unfold bind at 1. unfold Int64Ty.
  rewrite (BuildLoadInst_aligned_scalar F 72 64 n) by (vm_compute; intuition congruence).
  cbv beta iota.
  fold (localIdFactor argType).
  unfold CreateZExtOrBitCast. rewrite HT.
  unfold callGetR0, CreateMul, CreateAdd, CreateZExt, CreateIntToPtr, Int32Ty, Int16Ty.
  remember (getGRFSize (m_ctx this) / SIZE_DWORD) as g.
  remember (localIdFactor argType) as f.
  repeat bstep.
  cbn [getScalarSizeInBits getScalarType getPrimitiveSizeInBits].
  replace (16 =? c) with false by (symmetry; apply Z.eqb_neq; lia).
  unfold bind at 1. unfold CreateCast. cbn [getType Ty_eqb castIsValid].
  replace (16 =? c) with false by (symmetry; apply Z.eqb_neq; lia).
  replace (16 <? c) with false by (symmetry; apply Z.ltb_ge; lia).
  reflexivity.
Qed.

Lemma getLocalId_stack_narrow_call_witness :
  getLocalId (samplePass []) (stackFn [])
    (call 0 WIFuncsAnalysis.GET_LOCAL_ID_X [] Int8Ty) LOCAL_ID_X (mkBuilder 1 []) = Undefined.
Proof.
  apply (getLocalId_stack_narrow_call (samplePass []) (stackFn [])
           (call 0 WIFuncsAnalysis.GET_LOCAL_ID_X [] Int8Ty) LOCAL_ID_X 1 8);
    reflexivity.
Defined.

(* ------------------------------------------------------------------ *)
(** ** What the pass leaves in place *)

(** X26.  [visitCallInst] rewrites a query call in place: the instructions
    before and after the call stay where they are, in order, with only
    their uses of the call renamed to the replacement; the new
    instructions stand where the call stood, numbered from the first free
    number. *)
Theorem visitCallInst_rewrites_in_place (this this' : WIFuncResolution) (F F' : Function)
    (CI : Instruction) :
  NoDup (ids (fn_body F)) -> In CI (fn_body F) -> isQueryCall CI = true ->
  visitCallInst this F CI = Ok (this', F') ->
  exists pre post new w,
    fn_body F = pre ++ CI :: post /\
    fn_body F' = substUses (valueOf CI) w pre ++
                 substUses (valueOf CI) w new ++
                 substUses (valueOf CI) w post /\
    ids new = seq (freshId F) (List.length new) /\
    ids (fn_body F') = ids pre ++ ids new ++ ids post.
Proof.
  intros Hnd Hin Hq EV.
  destruct (visitCallInst_cases this this' F F' CI Hnd Hin EV)
    as [[Hq' _] | [_ [_ [pre [post [new [w [Hb [_ [_ [Hb1 [Hnids _]]]]]]]]]]]];
    [congruence |].
  exists pre, post, new, w. repeat split; try assumption.
  rewrite Hb1. unfold ids. rewrite !map_app.
  fold (ids (substUses (valueOf CI) w pre)).
  fold (ids (substUses (valueOf CI) w new)).
  fold (ids (substUses (valueOf CI) w post)).
  rewrite !ids_substUses. reflexivity.
Qed.

Lemma visitCallInst_rewrites_in_place_witness :
  let CI := call 1 WIFuncsAnalysis.GET_GROUP_ID [VConst (ConstantInt 32 0)] Int32Ty in
  let F' := set_body sampleKernel
              (call 0 WIFuncsAnalysis.GET_WORK_DIM [] Int32Ty ::
               groupIdSequence 3 (VConst (ConstantInt 32 0)) (VArg 2 (FixedVectorTy Int32Ty 8)) ++
               [mkInst 2 (OtherInst [VInst 0 Int32Ty; VInst 6 Int32Ty]) Int32Ty]) in
  exists pre post new w,
    fn_body sampleKernel = pre ++ CI :: post /\
    fn_body F' = substUses (valueOf CI) w pre ++
                 substUses (valueOf CI) w new ++
                 substUses (valueOf CI) w post /\
    ids new = seq (freshId sampleKernel) (List.length new) /\
    ids (fn_body F') = ids pre ++ ids new ++ ids post.
Proof.
  intros CI F'.
  apply (visitCallInst_rewrites_in_place (samplePass [R0; WORK_DIM])
           (samplePass_changed [R0; WORK_DIM]) sampleKernel F' CI);
    [ unfold ids; simpl; repeat constructor; simpl; intuition lia
    | simpl; auto
    | reflexivity
    | vm_compute; reflexivity ].
Defined.

Lemma visitCallInst_keeps_others (this this' : WIFuncResolution) (F F' : Function)
    (CI i : Instruction) :
  NoDup (ids (fn_body F)) -> In CI (fn_body F) ->
  visitCallInst this F CI = Ok (this', F') ->
  In i (fn_body F) -> isQueryCall i = false ->
  exists i', In i' (fn_body F') /\ inst_id i' = inst_id i /\ inst_ty i' = inst_ty i /\
             isQueryCall i' = false.
Proof.
  intros Hnd Hin EV Hi Hq.
  destruct (visitCallInst_cases this this' F F' CI Hnd Hin EV)
    as [[_ [_ ->]] | [HqCI [_ [pre [post [new [w [Hb [_ [_ [Hb1 _]]]]]]]]]]].
  - exists i. auto.
  - exists (mkInst (inst_id i) (substOpcode (valueOf CI) w (inst_op i)) (inst_ty i)).
    split; [| split; [reflexivity | split; [reflexivity |]]].
    + rewrite Hb1. rewrite Hb in Hi. unfold substUses.
      apply in_app_or in Hi. destruct Hi as [Hi | [E | Hi]].
      * apply in_or_app. left.
        apply (in_map (fun I => mkInst (inst_id I) (substOpcode (valueOf CI) w (inst_op I))
                                       (inst_ty I))). exact Hi.
      * subst i. congruence.
      * apply in_or_app. right. apply in_or_app. right.
        apply (in_map (fun I => mkInst (inst_id I) (substOpcode (valueOf CI) w (inst_op I))
                                       (inst_ty I))). exact Hi.
    + rewrite isQueryCall_subst. exact Hq.
Qed.

Lemma visitAll_keeps_others (l : list nat) (this this' : WIFuncResolution) (F F' : Function)
    (i : Instruction) :
  NoDup (ids (fn_body F)) ->
  visitAll l this F = Ok (this', F') ->
  In i (fn_body F) -> isQueryCall i = false ->
  exists i', In i' (fn_body F') /\ inst_id i' = inst_id i /\ inst_ty i' = inst_ty i /\
             isQueryCall i' = false.
Proof.
  revert this F i. induction l as [| id l IH]; intros this F i Hnd; cbn [visitAll].
  - intros H Hi Hq. injection H as _ <-. exists i. auto.
  - destruct (find (fun I => Nat.eqb (inst_id I) id) (fn_body F)) as [CI |] eqn:Ef.
    + pose proof (find_some _ _ Ef) as [HinCI _].
      destruct (visitCallInst this F CI) as [[this1 F1] | |] eqn:EV; try discriminate.
      intros HA Hi Hq.
      destruct (visitCallInst_keeps_others this this1 F F1 CI i Hnd HinCI EV Hi Hq)
        as [i1 [Hi1 [E1 [T1 Hq1]]]].
      destruct (IH this1 F1 i1 (visitCallInst_nodup this this1 F F1 CI Hnd HinCI EV)
                  HA Hi1 Hq1) as [i' [Hi' [E' [T' Hq']]]].
      exists i'. repeat split; try assumption; congruence.
    + intros HA Hi Hq. exact (IH this F i Hnd HA Hi Hq).
Qed.

(** X27.  [runOnFunction] removes nothing but the query calls: every other
    instruction of the function is still there afterwards, under the same
    number and with the same type (its operands may have been renamed). *)
Theorem runOnFunction_keeps_other_instructions (ctx : CodeGenContext) (MD : MetaDataUtils)
    (F F' : Function) (b : bool) (i : Instruction) :
  NoDup (ids (fn_body F)) ->
  runOnFunction ctx MD F = Ok (b, F') ->
  In i (fn_body F) -> isQueryCall i = false ->
  exists i', In i' (fn_body F') /\ inst_id i' = inst_id i /\ inst_ty i' = inst_ty i.
Proof.
  intros Hnd H Hi Hq. unfold runOnFunction in H.
  destruct (visit (mkPass (md_implicitArgs MD) false ctx) F) as [[this1 F1] | |] eqn:HV;
    try discriminate.
  unfold visit in HV.
  destruct (visitAll_keeps_others _ _ _ _ _ i Hnd HV Hi Hq) as [i1 [Hi1 [E1 [T1 _]]]].
  assert (Hsame : Ok (m_changed this1, F1) = Ok (b, F') ->
            exists i', In i' (fn_body F') /\ inst_id i' = inst_id i /\ inst_ty i' = inst_ty i).
  { intros H'. injection H' as _ <-. exists i1. auto. }
  destruct (getKnownWorkGroupSize MD F1) as [K |]; [| exact (Hsame H)].
  destruct (ImplicitArgs_getImplicitArg (m_implicitArgs this1) F1 ENQUEUED_LOCAL_WORK_SIZE)
    as [[Arg |] | |]; try discriminate; [| exact (Hsame H)].
  destruct (replaceAllUsesWith Arg K (fn_body F1)) as [body | |] eqn:ER; try discriminate.
  apply replaceAllUsesWith_ok in ER. destruct ER as [_ ->].
  injection H as _ <-. cbn [fn_body set_body].
  exists (mkInst (inst_id i1) (substOpcode Arg K (inst_op i1)) (inst_ty i1)).
  split; [| split; assumption].
  unfold substUses.
  apply (in_map (fun I => mkInst (inst_id I) (substOpcode Arg K (inst_op I)) (inst_ty I))).
  exact Hi1.
Qed.

Lemma runOnFunction_keeps_other_instructions_witness :
  exists i', In i' (fn_body sampleKernel_resolved) /\ inst_id i' = 2%nat /\
             inst_ty i' = Int32Ty.
Proof.
  apply (runOnFunction_keeps_other_instructions (mkCtx 32) sampleMD sampleKernel
           sampleKernel_resolved true
           (mkInst 2 (OtherInst [VInst 0 Int32Ty; VInst 1 Int32Ty]) Int32Ty));
    [ unfold ids; simpl; repeat constructor; simpl; intuition lia
    | vm_compute; reflexivity
    | simpl; auto
    | reflexivity ].
Defined.

(* ------------------------------------------------------------------ *)
(** ** The lowering in a stack-call function always returns *)

Lemma adaptWidth_int (CI : Instruction) (v : Value) (a c : Z) (B : IRBuilder) :
  getType v = IntegerTy a -> inst_ty CI = IntegerTy c -> a <= c ->
  exists w B', adaptWidth CI v B = Ok (w, B') /\ getType w = inst_ty CI.
Proof.
  intros Hv HT Hle. unfold adaptWidth. rewrite Hv, HT.
  cbn [getScalarSizeInBits getScalarType getPrimitiveSizeInBits].
  destruct (a <? c) eqn:E.
  - unfold bind, CastInst_Create. rewrite Hv. cbn [castIsValid]. rewrite E.
    unfold Insert, ret. eexists. eexists. split; reflexivity.
  - unfold ret. exists v, B. split; [reflexivity |].
    apply Z.ltb_ge in E. rewrite Hv. f_equal. lia.
Qed.

Lemma lowering_returns (CI : Instruction) (handler : M Value) (st B : IRBuilder)
    (v : Value) (a c : Z) :
  inst_ty CI = IntegerTy c ->
  handler st = Ok (v, B) -> getType v = IntegerTy a -> a <= c ->
  exists w B', (wiRes <- handler ;; adaptWidth CI wiRes) st = Ok (w, B') /\
               getType w = inst_ty CI.
Proof.
  intros HT EH Hv Hle. rewrite (bind_ok _ _ _ _ _ EH).
  exact (adaptWidth_int CI v a c B Hv HT Hle).
Qed.

Lemma getGroupId_stack_built (this : WIFuncResolution) (F : Function) (CI : Instruction)
    (n : nat) (callee : Callee) (dim : Value) (args : list Value) :
  hasStackCallAttr F = true ->
  inst_op CI = Call callee (dim :: args) ->
  getType dim = Int32Ty ->
  let R0Ty := FixedVectorTy Int32Ty (getGRFSize (m_ctx this) / SIZE_DWORD) in
  getGroupId this F CI (mkBuilder n []) =
    Ok (VInst (4 + n) Int32Ty,
        mkBuilder (5 + n)
          (mkInst n (Call (GenISAIntrinsic GenISA_getR0) []) R0Ty ::
           groupIdSequence (S n) dim (VInst n R0Ty))).
Proof.
  intros HS HCI Hdim R0Ty. unfold getGroupId. rewrite HS.
  unfold bind at 1. unfold callGetR0, CreateCall, Insert at 1.
  cbn [next_id inserted app valueOf inst_id inst_ty].
  unfold bind at 1. unfold getArgOperand. rewrite HCI. cbn [nth_error]. unfold ret at 1.
  fold R0Ty.
  rewrite (groupIdSequence_built dim (VInst n R0Ty) _ (S n) _ Hdim eq_refl).
  reflexivity.
Qed.

Lemma getLocalThreadId_stack_built (this : WIFuncResolution) (F : Function)
    (CI : Instruction) (n : nat) :
  hasStackCallAttr F = true ->
  exists B, getLocalThreadId this F CI (mkBuilder n []) = Ok (VInst (2 + n) Int8Ty, B).
Proof.
  intros HS. unfold getLocalThreadId. rewrite HS.
  unfold callGetR0, ExtractElementInst_Create.
  bstep. bstep. unfold bind at 1. rewrite CastInst_Create_eq by reflexivity.
  eexists. reflexivity.
Qed.

(** X28.  In a stack-call function the rewriting of a query call returns:
    for every query that does not read a hidden argument, a call of an
    integer type of at least 32 and at most 64 bits (with a 32-bit dimension
    operand where the query takes one) is rewritten, and the changed flag is
    set.  No assertion fails, no builder call is ill formed, and the
    replacement has the type of the call. *)
Theorem stack_call_lowering_returns (this : WIFuncResolution) (F : Function)
    (CI : Instruction) (name : string) (args : list Value) (c : Z) :
  hasStackCallAttr F = true ->
  inst_op CI = Call (NamedFunction name) args ->
  isWIFunc name = true ->
  alwaysImplicit name = false ->
  inst_ty CI = IntegerTy c -> 32 <= c <= 64 ->
  (takesDim name = true ->
   exists dim rest, args = dim :: rest /\ getType dim = Int32Ty) ->
  exists w new,
    getType w = inst_ty CI /\
    visitCallInst this F CI = Ok (set_changed this true, rewired F CI w new).
Proof.
  intros HS HCI HW HA HT Hc Hdim.
  assert (HR : exists handler v B a,
             resolveCall this F CI name = Some handler /\
             handler (mkBuilder (freshId F) []) = Ok (v, B) /\
             getType v = IntegerTy a /\ a <= c).
  { unfold isWIFunc, WINames in HW. cbn [existsb] in HW.
    unfold alwaysImplicit in HA. apply orb_false_elim in HA. destruct HA as [HA1 HA2].
    unfold resolveCall.
    repeat match goal with
           | |- context [String.eqb name ?k] =>
               let E := fresh "E" in
               destruct (String.eqb name k) eqn:E;
               [ apply String.eqb_eq in E; subst name | ]
           end.
    - pose proof (getLocalId_stack_built this F CI LOCAL_ID_X (freshId F) c HS HT
                    ltac:(lia)) as H.
      eexists. eexists. eexists. eexists. split; [reflexivity |].
      split; [exact H | split; [reflexivity | lia]].
    - pose proof (getLocalId_stack_built this F CI LOCAL_ID_Y (freshId F) c HS HT
                    ltac:(lia)) as H.
      eexists. eexists. eexists. eexists. split; [reflexivity |].
      split; [exact H | split; [reflexivity | lia]].
    - pose proof (getLocalId_stack_built this F CI LOCAL_ID_Z (freshId F) c HS HT
                    ltac:(lia)) as H.
      eexists. eexists. eexists. eexists. split; [reflexivity |].
      split; [exact H | split; [reflexivity | lia]].
    - destruct (Hdim eq_refl) as [dim [rest [-> Hty]]].
      pose proof (getGroupId_stack_built this F CI (freshId F) _ dim rest HS HCI Hty) as H.
      eexists. eexists. eexists. eexists. split; [reflexivity |].
      split; [exact H | split; [reflexivity | lia]].
    - destruct (getLocalThreadId_stack_built this F CI (freshId F) HS) as [B H].
      eexists. eexists. eexists. eexists. split; [reflexivity |].
      split; [exact H | split; [reflexivity | lia]].
    - destruct (Hdim eq_refl) as [dim [rest [-> Hty]]].
      destruct (Z.eq_dec c 64) as [-> | Hne].
      + eexists. eexists. eexists. eexists. split; [reflexivity |]. split.
        { unfold getGlobalSize. cbv zeta. rewrite HT.
          eapply (wideLaneSequence64_built F CI (freshId F) (NamedFunction _) dim rest);
            try eassumption; vm_compute; intuition congruence. }
        split; [reflexivity | lia].
      + eexists. eexists. eexists. eexists. split; [reflexivity |]. split.
        { unfold getGlobalSize. cbv zeta. rewrite HT.
          eapply (wideLaneSequence_built F CI (freshId F) (NamedFunction _) dim rest);
            try eassumption; try lia; vm_compute; intuition congruence. }
        split; [reflexivity | lia].
    - destruct (Hdim eq_refl) as [dim [rest [-> Hty]]].
      eexists. eexists. eexists. eexists. split; [reflexivity |]. split.
      { unfold getLocalSize. cbv zeta.
        eapply (laneSequence_built F CI (freshId F) (NamedFunction _) dim rest);
          try eassumption; vm_compute; intuition congruence. }
      split; [reflexivity | lia].
    - destruct (Hdim eq_refl) as [dim [rest [-> Hty]]].
      eexists. eexists. eexists. eexists. split; [reflexivity |]. split.
      { unfold getEnqueuedLocalSize. cbv zeta.
        eapply (laneSequence_built F CI (freshId F) (NamedFunction _) dim rest);
          try eassumption; vm_compute; intuition congruence. }
      split; [reflexivity | lia].
    - destruct (Hdim eq_refl) as [dim [rest [-> Hty]]].
      destruct (Z.eq_dec c 64) as [-> | Hne].
      + eexists. eexists. eexists. eexists. split; [reflexivity |]. split.
        { unfold getGlobalOffset. cbv zeta. rewrite HT.
          eapply (wideLaneSequence64_built F CI (freshId F) (NamedFunction _) dim rest);
            try eassumption; vm_compute; intuition congruence. }
        split; [reflexivity | lia].
      + eexists. eexists. eexists. eexists. split; [reflexivity |]. split.
        { unfold getGlobalOffset. cbv zeta. rewrite HT.
          eapply (wideLaneSequence_built F CI (freshId F) (NamedFunction _) dim rest);
            try eassumption; try lia; vm_compute; intuition congruence. }
        split; [reflexivity | lia].
    - pose proof (getWorkDim_stack_built this F CI (freshId F) HS) as H. cbv zeta in H.
      eexists. eexists. eexists. eexists. split; [reflexivity |].
      split; [exact H | split; [reflexivity | lia]].
    - destruct (Hdim eq_refl) as [dim [rest [-> Hty]]].
      eexists. eexists. eexists. eexists. split; [reflexivity |]. split.
      { unfold getNumGroups. cbv zeta.
        eapply (laneSequence_built F CI (freshId F) (NamedFunction _) dim rest);
          try eassumption; vm_compute; intuition congruence. }
      split; [reflexivity | lia].
    - discriminate.
    - destruct (Hdim eq_refl) as [dim [rest [-> Hty]]].
      eexists. eexists. eexists. eexists. split; [reflexivity |]. split.
      { unfold getStageInGridSize. cbv zeta. unfold Int32Ty.
        eapply (wideLaneSequence_built F CI (freshId F) (NamedFunction _) dim rest);
          try eassumption; try lia; vm_compute; intuition congruence. }
      split; [reflexivity | lia].
    - discriminate.
    - cbn [orb] in HW. discriminate. }
  destruct HR as [handler [v [B [a [ER [EH [Hv Hle]]]]]]].
  rewrite (visitCallInst_recognised this F CI name args handler HCI ER).
  destruct (lowering_returns CI handler _ B v a c HT EH Hv Hle) as [w [B' [E Hw]]].
  exists w, (inserted B'). split; [exact Hw |].
  rewrite E. rewrite rewire_typed by exact Hw. reflexivity.
Qed.

Lemma stack_call_lowering_returns_witness :
  exists w new,
    getType w = Int64Ty /\
    visitCallInst (samplePass [])
      (stackFn [call 0 WIFuncsAnalysis.GET_GLOBAL_SIZE [VConst (ConstantInt 32 1)] Int64Ty])
      (call 0 WIFuncsAnalysis.GET_GLOBAL_SIZE [VConst (ConstantInt 32 1)] Int64Ty) =
    Ok (set_changed (samplePass []) true,
        rewired
          (stackFn [call 0 WIFuncsAnalysis.GET_GLOBAL_SIZE [VConst (ConstantInt 32 1)] Int64Ty])
          (call 0 WIFuncsAnalysis.GET_GLOBAL_SIZE [VConst (ConstantInt 32 1)] Int64Ty)
          w new).
Proof.
  apply (stack_call_lowering_returns (samplePass [])
           (stackFn [call 0 WIFuncsAnalysis.GET_GLOBAL_SIZE [VConst (ConstantInt 32 1)] Int64Ty])
           (call 0 WIFuncsAnalysis.GET_GLOBAL_SIZE [VConst (ConstantInt 32 1)] Int64Ty)
           WIFuncsAnalysis.GET_GLOBAL_SIZE [VConst (ConstantInt 32 1)] 64);
    [ reflexivity | reflexivity | reflexivity | reflexivity | reflexivity | lia
    | intros _; eexists; eexists; split; reflexivity ].
Defined.
